(** * sacn-monitor: E1.31 packet parser, universe manager and statistics tracker

    A shallow embedding of the Go packages [internal/sacn] (parser.go,
    types.go), [internal/universe] (universe.go, manager.go) and
    [internal/stats] (tracker.go), followed by the properties proved
    about them.

    Conventions of the embedding:
    - [uint8], [uint16], [uint64] and [int] values are [Z]; where Go
      arithmetic wraps, the wrap-around is written out ([u64_add]).
    - a [[]byte] is a [list byte]; a Go [string] is a [string].
    - [time.Time] is the number of nanoseconds since the zero instant, so
      that [IsZero] is a comparison with 0; [time.Now()] is an argument
      of every function that reads the clock.
    - a pointer ([*Universe], [*UniverseStats], [*Source]) is a location
      [loc]; the objects live in a store that maps locations to values,
      and the Go maps hold locations, as in the source.
    - the order in which a [range] loop visits a map is an argument of
      every function whose result depends on it ([RangeOrder]). *)

From Stdlib Require Import ZArith List Lia.
From Stdlib Require Import Strings.String Strings.Byte.
From stdpp Require Import gmap strings list fin_maps sorting.

Open Scope Z_scope.

(** ** Machine integers, bytes, time *)

Definition u64_modulus : Z := 2 ^ 64.

(** [x + y] on [uint64]. *)
Definition u64_add (x y : Z) : Z := (x + y) mod u64_modulus.

(** [uint8(n)] for an [int] [n]. *)
Definition to_uint8 (n : Z) : Z := n mod 256.

(** The numeric value of a byte. *)
Definition byte_val (b : byte) : Z := Z.of_N (Byte.to_N b).

#[global] Instance byte_eq_dec : EqDecision byte := Byte.byte_eq_dec.

#[global] Program Instance byte_countable : Countable byte :=
  inj_countable Byte.to_N Byte.of_N _.
Next Obligation. intros b. apply Byte.of_to_N. Qed.

(** [time.Time] and [time.Duration], both in nanoseconds. *)
Definition Time : Type := Z.
Definition Duration : Type := Z.

Definition Nanosecond : Duration := 1.
Definition Second : Duration := 1000000000.
Definition Minute : Duration := 60 * Second.
Definition Hour : Duration := 60 * Minute.

Definition minDuration : Duration := - 2 ^ 63.
Definition maxDuration : Duration := 2 ^ 63 - 1.

(** The zero value of [time.Time]. *)
Definition zeroTime : Time := 0.

(** [t.IsZero()] *)
Definition IsZero (t : Time) : bool := t =? zeroTime.

(** [t.Add(d)] *)
Definition Add (t : Time) (d : Duration) : Time := t + d.

(** [t.After(u)] *)
Definition After (t u : Time) : bool := u <? t.

(** [t.Sub(u)]: the difference, saturated to the range of [Duration]. *)
Definition Sub (t u : Time) : Duration :=
  Z.max minDuration (Z.min maxDuration (t - u)).

(** [time.Since(t)], the clock reading [now] made explicit. *)
Definition Since (now t : Time) : Duration := Sub now t.

(** Pointers. *)
Definition loc : Type := positive.

(** [s[lo:hi]] on a slice that is long enough. *)
Definition slice {A} (s : list A) (lo hi : nat) : list A :=
  take (hi - lo) (drop lo s).

(** ** Ranging over a map

    Go does not fix the order in which a [range] loop visits the
    entries of a map, and the order differs from one loop to the next.
    A function whose result depends on that order takes the order of
    its loop as an argument [o], as a function that reads the clock
    takes the time: the loop visits the entries in the order
    [ranged o entries], some rearrangement of the entries of the map. *)
Record RangeOrder (K V : Type) := {
  ranged : list (K * V) → list (K * V);
  ranged_perm : ∀ entries, ranged entries ≡ₚ entries
}.

Arguments ranged {K V} _ _.
Arguments ranged_perm {K V} _ _.

(** Two of the orders: the entries as they are stored, and the entries
    from the last to the first. *)
Definition storedOrder {K V} : RangeOrder K V :=
  {| ranged := fun entries => entries;
     ranged_perm := fun entries => Permutation_refl entries |}.

Definition reversedOrder {K V} : RangeOrder K V :=
  {| ranged := reverse; ranged_perm := reverse_Permutation |}.

(** ** Package sacn: types.go and parser.go *)

Module Sacn.

Definition E131Port : Z := 5568.
Definition E131MaxChannels : nat := 512.
Definition E131HeaderSize : nat := 126.
Definition E131RootVector : Z := 4.
Definition E131FramingVector : Z := 2.
Definition E131DMPVector : byte := x02.

Definition ACNPacketIdentifier : list byte :=
  [x41; x53; x43; x2d; x45; x31; x2e; x31; x37; x00; x00; x00].

Record Packet := {
  CID : list byte;
  SourceName : string;
  Priority : Z;
  Sequence : Z;
  Universe : Z;
  StartCode : Z;
  ChannelData : list byte;
  SourceAddr : option string;
  ReceivedAt : Time
}.

Record ParseError := { Message : string; Offset : Z }.

Definition NewParseError (message : string) (offset : Z) : ParseError :=
  {| Message := message; Offset := offset |}.

(** [p.ChannelCount()] *)
Definition ChannelCount (p : Packet) : Z := Z.of_nat (length (ChannelData p)).

(** [data[i]]; [Parse] only indexes below the header size, after it has
    checked the length, so the default is never returned there. *)
Definition at_ (data : list byte) (i : nat) : byte := default x00 (data !! i).

(** [bytes.IndexByte]: the index of the first [c], or -1. *)
Fixpoint IndexByte (b : list byte) (c : byte) : Z :=
  match b with
  | [] => -1
  | x :: r =>
      if bool_decide (x = c) then 0
      else let i := IndexByte r c in if i <? 0 then -1 else i + 1
  end.

(** [bytes.Equal] *)
Definition Equal (a b : list byte) : bool := bool_decide (a = b).

(** [binary.BigEndian.Uint32] and [Uint16]. *)
Definition Uint32 (b : list byte) : Z :=
  Z.lor (byte_val (at_ b 3))
    (Z.lor (Z.shiftl (byte_val (at_ b 2)) 8)
       (Z.lor (Z.shiftl (byte_val (at_ b 1)) 16)
          (Z.shiftl (byte_val (at_ b 0)) 24))).

Definition Uint16 (b : list byte) : Z :=
  Z.lor (byte_val (at_ b 1)) (Z.shiftl (byte_val (at_ b 0)) 8).

(** The source-name field: [string(sourceNameBytes[:nullIdx])] when the
    terminator is past the first byte, the whole field when there is
    none, and the zero value of [string] otherwise. *)
Definition sourceNameOf (sourceNameBytes : list byte) : string :=
  let nullIdx := IndexByte sourceNameBytes x00 in
  if 0 <? nullIdx then string_of_list_byte (take (Z.to_nat nullIdx) sourceNameBytes)
  else if nullIdx <? 0 then string_of_list_byte sourceNameBytes
  else EmptyString.

(** The channel data: nil for a header-sized buffer, else a fresh slice
    of [min (len(data) - 126) 512] bytes copied from offset 126. *)
Definition channelDataOf (data : list byte) : list byte :=
  if (E131HeaderSize <? length data)%nat then
    let channelCount := (length data - E131HeaderSize)%nat in
    let channelCount :=
      if (E131MaxChannels <? channelCount)%nat then E131MaxChannels else channelCount in
    slice data E131HeaderSize (E131HeaderSize + channelCount)
  else [].

(** [Parse]; [now] is the value of [time.Now()]. *)
Definition Parse (now : Time) (data : list byte) : ParseError + Packet :=
  if (length data <? E131HeaderSize)%nat then
    inl (NewParseError "packet too short" 0)
  else if negb (bool_decide (at_ data 0 = x00)) || negb (bool_decide (at_ data 1 = x10)) then
    inl (NewParseError "invalid preamble size" 0)
  else if negb (Equal (slice data 4 16) ACNPacketIdentifier) then
    inl (NewParseError "invalid ACN packet identifier" 4)
  else if negb (Uint32 (slice data 18 22) =? E131RootVector) then
    inl (NewParseError "invalid root vector" 18)
  else if negb (Uint32 (slice data 40 44) =? E131FramingVector) then
    inl (NewParseError "invalid framing vector" 40)
  else if negb (bool_decide (at_ data 117 = E131DMPVector)) then
    inl (NewParseError "invalid DMP vector" 117)
  else
    inr {| CID := slice data 22 38;
           SourceName := sourceNameOf (slice data 44 108);
           Priority := byte_val (at_ data 108);
           Sequence := byte_val (at_ data 111);
           Universe := Uint16 (slice data 113 115);
           StartCode := byte_val (at_ data 125);
           ChannelData := channelDataOf data;
           SourceAddr := None;
           ReceivedAt := now |}.

(** The five header validations of [Parse], as one proposition. *)
Definition header_ok (data : list byte) : Prop :=
  at_ data 0 = x00 ∧ at_ data 1 = x10 ∧
  slice data 4 16 = ACNPacketIdentifier ∧
  Uint32 (slice data 18 22) = E131RootVector ∧
  Uint32 (slice data 40 44) = E131FramingVector ∧
  at_ data 117 = E131DMPVector.

(** A well-formed packet for universe 1, sequence 7, source
    name "desk", priority 100, followed by [payload]. *)
Definition sample_header : list byte :=
  [x00; x10; x00; x00] ++ ACNPacketIdentifier ++ [x70; x6e] ++
  [x00; x00; x00; x04] ++
  [x01; x02; x03; x04; x05; x06; x07; x08; x09; x0a; x0b; x0c; x0d; x0e; x0f; x10] ++
  [x70; x58] ++ [x00; x00; x00; x02] ++
  ([x64; x65; x73; x6b] ++ replicate 60 x00) ++
  [x64; x00; x00; x07; x00; x00; x01; x70; x0b; x02; xa1; x00; x00; x00; x01; x02; x01; x00].

Definition sample_packet (payload : list byte) : list byte := sample_header ++ payload.

End Sacn.

(** ** Package universe: universe.go and manager.go *)

Module Universe.

(** The state of one DMX channel. *)
Record Channel := {
  Value : Z;
  Active : bool;
  LastUpdate : Time
}.

Definition zeroChannel : Channel :=
  {| Value := 0; Active := false; LastUpdate := zeroTime |}.

(** The state of one universe; [Channels] is the array [[512]Channel]. *)
Record Universe := {
  ID : Z;
  Channels : list Channel;
  SourceName : string;
  SourceCID : list byte;
  Priority : Z;
  LastSequence : Z;
  LastPacket : Time;
  PacketCount : Z
}.

(** The zero value of [[16]byte]. *)
Definition zeroCID : list byte := replicate 16 x00.

Definition NewUniverse (id : Z) : Universe :=
  {| ID := id;
     Channels := replicate 512 zeroChannel;
     SourceName := EmptyString;
     SourceCID := zeroCID;
     Priority := 0;
     LastSequence := 0;
     LastPacket := zeroTime;
     PacketCount := 0 |}.

(** The loop of [Update]:
    [for i := 0; i < len(channelData) && i < 512; i++]. The argument
    [rest] is [channelData[i:]], so [i < len(channelData)] is the test
    that [rest] is not empty. *)
Fixpoint updateChannels (now : Time) (i : nat) (rest : list byte)
    (channels : list Channel) : list Channel :=
  match rest with
  | [] => channels
  | b :: rest' =>
      if (i <? 512)%nat then
        updateChannels now (S i) rest'
          (<[i := {| Value := byte_val b; Active := true; LastUpdate := now |}]> channels)
      else channels
  end.

(** [u.Update(channelData, sourceName, sourceCID, priority, sequence)] *)
Definition Update (now : Time) (channelData : list byte) (sourceName : string)
    (sourceCID : list byte) (priority sequence : Z) (u : Universe) : Universe :=
  {| ID := ID u;
     Channels := updateChannels now 0 channelData (Channels u);
     SourceName := sourceName;
     SourceCID := sourceCID;
     Priority := priority;
     LastSequence := sequence;
     LastPacket := now;
     PacketCount := u64_add (PacketCount u) 1 |}.

(** [u.GetChannel(index)] *)
Definition GetChannel (index : Z) (u : Universe) : Channel :=
  if (index <? 0) || (512 <=? index) then zeroChannel
  else default zeroChannel (Channels u !! Z.to_nat index).

(** [u.GetAllChannels()] *)
Definition GetAllChannels (u : Universe) : list Channel := Channels u.

(** [u.ActiveChannelCount()] *)
Definition ActiveChannelCount (u : Universe) : Z :=
  fold_left (fun count ch => if Active ch then count + 1 else count) (Channels u) 0.

(** [u.IsStale(timeout)]; [now] is the clock read by [time.Since]. *)
Definition IsStale (now : Time) (timeout : Duration) (u : Universe) : bool :=
  if IsZero (LastPacket u) then true
  else timeout <? Since now (LastPacket u).

Record UniverseInfo := {
  info_ID : Z;
  info_SourceName : string;
  info_SourceCID : list byte;
  info_Priority : Z;
  info_LastSequence : Z;
  info_LastPacket : Time;
  info_PacketCount : Z
}.

(** [u.GetInfo()] *)
Definition GetInfo (u : Universe) : UniverseInfo :=
  {| info_ID := ID u;
     info_SourceName := SourceName u;
     info_SourceCID := SourceCID u;
     info_Priority := Priority u;
     info_LastSequence := LastSequence u;
     info_LastPacket := LastPacket u;
     info_PacketCount := PacketCount u |}.

(** The manager: the map [universes map[uint16]*Universe], and the store
    holding the [Universe] objects its pointers refer to. *)
Record Manager := {
  universes : gmap Z loc;
  store : gmap loc Universe
}.

Definition NewManager : Manager := {| universes := ∅; store := ∅ |}.

(** Every pointer in the map refers to an object of the store, and the
    object registered under [id] carries that [ID]. *)
Definition wf (m : Manager) : Prop :=
  ∀ id l, universes m !! id = Some l → ∃ u, store m !! l = Some u ∧ ID u = id.

(** Reading the object a pointer refers to, and writing [f] of it back
    through the pointer. *)
Definition deref (m : Manager) (l : loc) : option Universe := store m !! l.

Definition poke (l : loc) (f : Universe → Universe) (m : Manager) : Manager :=
  {| universes := universes m; store := alter f l (store m) |}.

(** [m2] is [m] after any number of assignments to the variables
    [elems] and to no other. *)
Definition assignedOnly (elems : list loc) (m m2 : Manager) : Prop :=
  universes m2 = universes m ∧
  ∀ l, l ∉ elems → store m2 !! l = store m !! l.

(** The assignment [u.PacketCount = n] to the exported field. *)
Definition setPacketCount (n : Z) (u : Universe) : Universe :=
  {| ID := ID u;
     Channels := Channels u;
     SourceName := SourceName u;
     SourceCID := SourceCID u;
     Priority := Priority u;
     LastSequence := LastSequence u;
     LastPacket := LastPacket u;
     PacketCount := n |}.

(** [m.GetOrCreate(id)] *)
Definition GetOrCreate (id : Z) (m : Manager) : loc * Manager :=
  match universes m !! id with
  | Some u => (u, m)
  | None =>
      let u := fresh (dom (store m)) in
      (u, {| universes := <[id := u]> (universes m);
             store := <[u := NewUniverse id]> (store m) |})
  end.

(** [m.Get(id)]; [None] is the nil pointer. *)
Definition Get (id : Z) (m : Manager) : option loc := universes m !! id.

(** The [ID] read through a pointer, as the comparison of [sort.Slice] does. *)
Definition idAt (m : Manager) (l : loc) : Z := from_option ID 0 (deref m l).

Definition lessEq (m : Manager) (a b : loc) : Prop := idAt m a ≤ idAt m b.

#[global] Instance lessEq_dec m a b : Decision (lessEq m a b) := Z_le_dec _ _.

(** [m.GetAll()]: a fresh slice of the pointers held by the map, sorted
    by the [ID] of the objects they refer to. *)
Definition GetAll (m : Manager) : list loc :=
  merge_sort (lessEq m) (snd <$> map_to_list (universes m)).

(** Whether the universe registered under [id] at [l] is stale when the
    clock reads [clock id]. *)
Definition staleAt (clock : Z → Time) (timeout : Duration) (m : Manager)
    (id : Z) (l : loc) : bool :=
  match deref m l with
  | Some u => IsStale (clock id) timeout u
  | None => false
  end.

(** [m.GetActiveUniverses(timeout)] *)
Definition GetActiveUniverses (clock : Z → Time) (timeout : Duration)
    (m : Manager) : list loc :=
  merge_sort (lessEq m)
    (snd <$> filter (fun p => staleAt clock timeout m p.1 p.2 = false)
               (map_to_list (universes m))).

(** [m.Count()] *)
Definition Count (m : Manager) : Z := Z.of_nat (size (universes m)).

(** [m.Remove(id)] *)
Definition Remove (id : Z) (m : Manager) : Manager :=
  {| universes := delete id (universes m); store := store m |}.

(** One iteration of the loop of [PruneStale], on the pair of the map
    being pruned and the counter. *)
Definition pruneStep (clock : Z → Time) (timeout : Duration) (m : Manager)
    (id : Z) (u : loc) (acc : gmap Z loc * Z) : gmap Z loc * Z :=
  if staleAt clock timeout m id u then (delete id acc.1, acc.2 + 1) else acc.

(** [m.PruneStale(timeout)]: the loop ranges over the map and deletes
    the stale entries; each call of [IsStale] reads the clock, and
    [clock id] is the reading made while the entry [id] is examined. *)
Definition PruneStale (clock : Z → Time) (timeout : Duration)
    (m : Manager) : Z * Manager :=
  let r := map_fold (pruneStep clock timeout m) (universes m, 0) (universes m) in
  (r.2, {| universes := r.1; store := store m |}).

End Universe.

(** ** Package stats: tracker.go *)

Module Stats.

Definition lossWindowDuration : Duration := Minute.
Definition sourceRestartThreshold : Z := 200.

Record PacketEvent := {
  Timestamp : Time;
  Received : Z;
  Lost : Z
}.

Module Source.
Record t := {
  CID : list byte;
  Name : string;
  LastSequence : Z;
  LastSeen : Time;
  PacketCount : Z;
  LostPackets : Z
}.
End Source.

Module UniverseStats.
Record t := {
  UniverseID : Z;
  Sources : gmap (list byte) loc;
  PacketCount : Z;
  LostPackets : Z;
  LastPacket : Time;
  packetsInWindow : list Time;
  lossWindow : list PacketEvent
}.
End UniverseStats.

(** The tracker: the map [universes map[uint16]*UniverseStats] and the
    rate window, together with the stores holding the [UniverseStats]
    and [Source] variables that pointers refer to. *)
Record Tracker := {
  universes : gmap Z loc;
  rateWindow : Duration;
  statsStore : gmap loc UniverseStats.t;
  sourceStore : gmap loc Source.t
}.

Definition NewTracker : Tracker :=
  {| universes := ∅; rateWindow := Second; statsStore := ∅; sourceStore := ∅ |}.

(** Every pointer held by the tracker refers to a variable of the stores. *)
Definition wf (t : Tracker) : Prop :=
  ∀ id ls, universes t !! id = Some ls →
    ∃ st, statsStore t !! ls = Some st ∧
          ∀ cid l, UniverseStats.Sources st !! cid = Some l → is_Some (sourceStore t !! l).

(** [&UniverseStats{UniverseID: universeID, Sources: make(...)}] *)
Definition newStats (universeID : Z) : UniverseStats.t :=
  {| UniverseStats.UniverseID := universeID;
     UniverseStats.Sources := ∅;
     UniverseStats.PacketCount := 0;
     UniverseStats.LostPackets := 0;
     UniverseStats.LastPacket := zeroTime;
     UniverseStats.packetsInWindow := [];
     UniverseStats.lossWindow := [] |}.

(** [&Source{CID: sourceCID, Name: sourceName}] *)
Definition newSource (sourceCID : list byte) (sourceName : string) : Source.t :=
  {| Source.CID := sourceCID;
     Source.Name := sourceName;
     Source.LastSequence := 0;
     Source.LastSeen := zeroTime;
     Source.PacketCount := 0;
     Source.LostPackets := 0 |}.

(** [uint8((int(source.LastSequence) + 1) % 256)] *)
Definition expectedSeq (lastSequence : Z) : Z := to_uint8 ((lastSequence + 1) mod 256).

(** The value given to [lost] when [sequence != expectedSeq]. *)
Definition gap (sequence expected : Z) : Z :=
  if expected <? sequence then sequence - expected
  else 256 - expected + sequence.

Record LossCheck := {
  lostThisPacket : Z;
  sourceLost : Z;
  universeLost : Z
}.

(** The block "Check for packet loss (sequence gap)" of [RecordPacket]:
    the value of [lostThisPacket] and the two lost counters after it. *)
Definition checkLoss (sourceExists : bool) (source : Source.t)
    (stats : UniverseStats.t) (sequence : Z) : LossCheck :=
  let unchanged :=
    {| lostThisPacket := 0;
       sourceLost := Source.LostPackets source;
       universeLost := UniverseStats.LostPackets stats |} in
  if sourceExists && (0 <? Source.PacketCount source) then
    let expected := expectedSeq (Source.LastSequence source) in
    if negb (sequence =? expected) then
      let lost := gap sequence expected in
      if lost <? sourceRestartThreshold then
        {| lostThisPacket := lost;
           sourceLost := u64_add (Source.LostPackets source) lost;
           universeLost := u64_add (UniverseStats.LostPackets stats) lost |}
      else unchanged
    else unchanged
  else unchanged.

(** The pruning loop of a window: keep the entries after [cutoff]. *)
Definition pruneTimes (cutoff : Time) (w : list Time) : list Time :=
  filter (fun pt => After pt cutoff = true) w.

Definition pruneEvents (cutoff : Time) (w : list PacketEvent) : list PacketEvent :=
  filter (fun evt => After (Timestamp evt) cutoff = true) w.

(** The first block of [RecordPacket]: the entry of [universeID],
    created when it is missing. *)
Definition statsFor (universeID : Z) (t : Tracker) : loc * Tracker :=
  match universes t !! universeID with
  | Some stats => (stats, t)
  | None =>
      let stats := fresh (dom (statsStore t)) in
      (stats, {| universes := <[universeID := stats]> (universes t);
                 rateWindow := rateWindow t;
                 statsStore := <[stats := newStats universeID]> (statsStore t);
                 sourceStore := sourceStore t |})
  end.

(** The block "Track source": the entry of [sourceCID] in [sources],
    created when it is missing, and whether it existed. *)
Definition sourceFor (sourceCID : list byte) (sourceName : string)
    (sources : gmap (list byte) loc) (mem : gmap loc Source.t)
    : loc * bool * gmap (list byte) loc * gmap loc Source.t :=
  match sources !! sourceCID with
  | Some source => (source, true, sources, mem)
  | None =>
      let source := fresh (dom mem) in
      (source, false, <[sourceCID := source]> sources,
       <[source := newSource sourceCID sourceName]> mem)
  end.

(** The [UniverseStats] variable at the end of [RecordPacket]: the
    packet counted and stamped, the rate window and the loss window
    extended by this packet and pruned, [sources] and the lost counter
    as the blocks before left them. *)
Definition statsAfter (now : Time) (rateWindow : Duration)
    (sources : gmap (list byte) loc) (chk : LossCheck)
    (st : UniverseStats.t) : UniverseStats.t :=
  let cutoff := Add now (- rateWindow) in
  let lossCutoff := Add now (- lossWindowDuration) in
  {| UniverseStats.UniverseID := UniverseStats.UniverseID st;
     UniverseStats.Sources := sources;
     UniverseStats.PacketCount := u64_add (UniverseStats.PacketCount st) 1;
     UniverseStats.LostPackets := universeLost chk;
     UniverseStats.LastPacket := now;
     UniverseStats.packetsInWindow :=
       pruneTimes cutoff (UniverseStats.packetsInWindow st ++ [now]);
     UniverseStats.lossWindow :=
       pruneEvents lossCutoff
         (UniverseStats.lossWindow st ++
          [{| Timestamp := now; Received := 1; Lost := lostThisPacket chk |}]) |}.

(** The [Source] variable at the end of [RecordPacket]. *)
Definition sourceAfter (now : Time) (sourceName : string) (sequence : Z)
    (chk : LossCheck) (src : Source.t) : Source.t :=
  {| Source.CID := Source.CID src;
     Source.Name := sourceName;
     Source.LastSequence := sequence;
     Source.LastSeen := now;
     Source.PacketCount := u64_add (Source.PacketCount src) 1;
     Source.LostPackets := sourceLost chk |}.

(** [t.RecordPacket(universeID, sourceCID, sourceName, sequence)]; [now]
    is the value of [time.Now()]. The two [None] branches stand for a
    pointer without a variable behind it, which Go does not have. *)
Definition RecordPacket (now : Time) (universeID : Z) (sourceCID : list byte)
    (sourceName : string) (sequence : Z) (t : Tracker) : Tracker :=
  let '(stats, t1) := statsFor universeID t in
  match statsStore t1 !! stats with
  | None => t1
  | Some st =>
      let '(source, sourceExists, sources, mem) :=
        sourceFor sourceCID sourceName (UniverseStats.Sources st) (sourceStore t1) in
      match mem !! source with
      | None => t1
      | Some src =>
          let chk := checkLoss sourceExists src st sequence in
          {| universes := universes t1;
             rateWindow := rateWindow t1;
             statsStore :=
               <[stats := statsAfter now (rateWindow t1) sources chk st]> (statsStore t1);
             sourceStore := <[source := sourceAfter now sourceName sequence chk src]> mem |}
      end
  end.

(** [t.GetUniverseStats(universeID)]: the pointer held by the map;
    [None] is the nil pointer. *)
Definition GetUniverseStats (universeID : Z) (t : Tracker) : option loc :=
  universes t !! universeID.

(** Reading through the pointers: the [UniverseStats] of a universe and
    the [Source] registered in it under a CID. *)
Definition statsOf (universeID : Z) (t : Tracker) : option UniverseStats.t :=
  GetUniverseStats universeID t ≫= fun stats => statsStore t !! stats.

Definition sourceOf (universeID : Z) (sourceCID : list byte) (t : Tracker)
    : option Source.t :=
  statsOf universeID t ≫= fun st =>
  UniverseStats.Sources st !! sourceCID ≫= fun source => sourceStore t !! source.

(** The lost counters as the loss getters read them: 0 for a universe
    or a source that is not tracked. *)
Definition universeLostOf (universeID : Z) (t : Tracker) : Z :=
  from_option UniverseStats.LostPackets 0 (statsOf universeID t).

Definition sourceLostOf (universeID : Z) (sourceCID : list byte) (t : Tracker) : Z :=
  from_option Source.LostPackets 0 (sourceOf universeID sourceCID t).

(** The body of the loop of [ResetUniverseStats] over [stats.Sources]. *)
Definition resetSource (source : Source.t) : Source.t :=
  {| Source.CID := Source.CID source;
     Source.Name := Source.Name source;
     Source.LastSequence := Source.LastSequence source;
     Source.LastSeen := Source.LastSeen source;
     Source.PacketCount := 0;
     Source.LostPackets := 0 |}.

Definition resetStats (stats : UniverseStats.t) : UniverseStats.t :=
  {| UniverseStats.UniverseID := UniverseStats.UniverseID stats;
     UniverseStats.Sources := UniverseStats.Sources stats;
     UniverseStats.PacketCount := 0;
     UniverseStats.LostPackets := 0;
     UniverseStats.LastPacket := UniverseStats.LastPacket stats;
     UniverseStats.packetsInWindow := [];
     UniverseStats.lossWindow := [] |}.

(** [t.ResetUniverseStats(universeID)] *)
Definition ResetUniverseStats (universeID : Z) (t : Tracker) : Tracker :=
  match universes t !! universeID with
  | Some stats =>
      match statsStore t !! stats with
      | Some st =>
          {| universes := universes t;
             rateWindow := rateWindow t;
             statsStore := <[stats := resetStats st]> (statsStore t);
             sourceStore :=
               map_fold (fun (_ : list byte) (source : loc) mem => alter resetSource source mem)
                 (sourceStore t) (UniverseStats.Sources st) |}
      | None => t
      end
  | None => t
  end.

(** [t.ResetAllStats()] *)
Definition ResetAllStats (t : Tracker) : Tracker :=
  {| universes := ∅;
     rateWindow := rateWindow t;
     statsStore := statsStore t;
     sourceStore := sourceStore t |}.

(** The values [*s] that the loop of [GetSources] appends, in the order
    [o] in which this loop ranges over [stats.Sources]. *)
Definition sourceValues (o : RangeOrder (list byte) loc) (universeID : Z)
    (t : Tracker) : list Source.t :=
  match statsOf universeID t with
  | None => []
  | Some st =>
      omap (fun p => sourceStore t !! p.2)
        (ranged o (map_to_list (UniverseStats.Sources st)))
  end.

(** The slice that [GetSources] builds: one new [Source] variable per
    appended value. *)
Fixpoint allocSources (vals : list Source.t) (mem : gmap loc Source.t)
    : list loc * gmap loc Source.t :=
  match vals with
  | [] => ([], mem)
  | v :: vals' =>
      let l := fresh (dom mem) in
      let r := allocSources vals' (<[l := v]> mem) in
      (l :: r.1, r.2)
  end.

(** [t.GetSources(universeID)]: the elements of the returned slice, as
    the variables that hold them; [o] is the order in which the call
    ranges over the sources. *)
Definition GetSources (o : RangeOrder (list byte) loc) (universeID : Z)
    (t : Tracker) : list loc * Tracker :=
  let r := allocSources (sourceValues o universeID t) (sourceStore t) in
  (r.1, {| universes := universes t;
           rateWindow := rateWindow t;
           statsStore := statsStore t;
           sourceStore := r.2 |}).

(** The values held by the elements of a slice of [Source]. *)
Definition readSources (elems : list loc) (t : Tracker) : list (option Source.t) :=
  (fun l => sourceStore t !! l) <$> elems.

(** [t.GetAllUniverseIDs()]; [o] is the order in which the call ranges
    over [t.universes]. *)
Definition GetAllUniverseIDs (o : RangeOrder Z loc) (t : Tracker) : list Z :=
  (ranged o (map_to_list (universes t))).*1.

(** Assignments through pointers, as a holder of the pointer can make
    them: to a [UniverseStats] variable and to a [Source] variable. *)
Definition pokeStats (l : loc) (f : UniverseStats.t → UniverseStats.t)
    (t : Tracker) : Tracker :=
  {| universes := universes t;
     rateWindow := rateWindow t;
     statsStore := alter f l (statsStore t);
     sourceStore := sourceStore t |}.

Definition pokeSource (l : loc) (f : Source.t → Source.t) (t : Tracker) : Tracker :=
  {| universes := universes t;
     rateWindow := rateWindow t;
     statsStore := statsStore t;
     sourceStore := alter f l (sourceStore t) |}.

(** The assignment [stats.LostPackets = n] to the exported field. *)
Definition setLostPackets (n : Z) (st : UniverseStats.t) : UniverseStats.t :=
  {| UniverseStats.UniverseID := UniverseStats.UniverseID st;
     UniverseStats.Sources := UniverseStats.Sources st;
     UniverseStats.PacketCount := UniverseStats.PacketCount st;
     UniverseStats.LostPackets := n;
     UniverseStats.LastPacket := UniverseStats.LastPacket st;
     UniverseStats.packetsInWindow := UniverseStats.packetsInWindow st;
     UniverseStats.lossWindow := UniverseStats.lossWindow st |}.

(** The assignment [source.Name = name]. *)
Definition setName (name : string) (src : Source.t) : Source.t :=
  {| Source.CID := Source.CID src;
     Source.Name := name;
     Source.LastSequence := Source.LastSequence src;
     Source.LastSeen := Source.LastSeen src;
     Source.PacketCount := Source.PacketCount src;
     Source.LostPackets := Source.LostPackets src |}.

(** [t2] is [t] after any number of assignments to the variables
    [elems] and to no other. *)
Definition assignedOnly (elems : list loc) (t t2 : Tracker) : Prop :=
  universes t2 = universes t ∧ rateWindow t2 = rateWindow t ∧
  statsStore t2 = statsStore t ∧
  ∀ l, l ∉ elems → sourceStore t2 !! l = sourceStore t !! l.

(** The CID used in the examples: 1, 2, 3, 4 and twelve zero bytes. *)
Definition sampleCID : list byte := [x01; x02; x03; x04] ++ replicate 12 x00.

End Stats.

(** ** Package sacn: the packet builder of parser_test.go *)

Module SacnTest.

(** [byte(n)]: the low eight bits of an integer. *)
Definition to_byte (n : Z) : byte :=
  default x00 (Byte.of_N (Z.to_N (n mod 256))).

(** [uint16(n)] for an [int] [n]. *)
Definition to_uint16 (n : Z) : Z := n mod 65536.

(** [copy(dst[lo:hi], src)]: the first [min (hi - lo) (len src)] bytes of
    [src] are written at [lo]. *)
Definition copyInto (dst : list byte) (lo hi : nat) (src : list byte) : list byte :=
  let n := Nat.min (hi - lo) (length src) in
  take lo dst ++ take n src ++ drop (lo + n) dst.

(** [0x70 | byte(length >> 8)] and [byte(length)], the two bytes of a
    flags-and-length field. *)
Definition flagsHigh (len : Z) : byte :=
  to_byte (Z.lor 112 (byte_val (to_byte (Z.shiftr len 8)))).

Definition testCID : list byte :=
  [x12; x34; x56; x78; x9a; xbc; xde; xf0; x12; x34; x56; x78; x9a; xbc; xde; xf0].

(** [buildValidPacket(universe, sequence, sourceName, channels)] *)
Definition buildValidPacket (universe sequence : Z) (sourceName : string)
    (channels : list byte) : list byte :=
  let channelCount :=
    if (Sacn.E131MaxChannels <? length channels)%nat then Sacn.E131MaxChannels
    else length channels in
  let packetSize := (Sacn.E131HeaderSize + channelCount)%nat in
  let packet := replicate packetSize x00 in
  let packet := <[0%nat := x00]> packet in
  let packet := <[1%nat := x10]> packet in
  let packet := copyInto packet 4 16 Sacn.ACNPacketIdentifier in
  let rootLength := to_uint16 (Z.of_nat packetSize - 16) in
  let packet := <[16%nat := flagsHigh rootLength]> packet in
  let packet := <[17%nat := to_byte rootLength]> packet in
  let packet := <[18%nat := x00]> packet in
  let packet := <[19%nat := x00]> packet in
  let packet := <[20%nat := x00]> packet in
  let packet := <[21%nat := x04]> packet in
  let packet := copyInto packet 22 38 testCID in
  let framingLength := to_uint16 (Z.of_nat packetSize - 38) in
  let packet := <[38%nat := flagsHigh framingLength]> packet in
  let packet := <[39%nat := to_byte framingLength]> packet in
  let packet := <[40%nat := x00]> packet in
  let packet := <[41%nat := x00]> packet in
  let packet := <[42%nat := x00]> packet in
  let packet := <[43%nat := x02]> packet in
  let packet := copyInto packet 44 108 (list_byte_of_string sourceName) in
  let packet := <[108%nat := to_byte 100]> packet in
  let packet := <[111%nat := to_byte sequence]> packet in
  let packet := <[113%nat := to_byte (Z.shiftr universe 8)]> packet in
  let packet := <[114%nat := to_byte universe]> packet in
  let dmpLength := to_uint16 (Z.of_nat packetSize - 115) in
  let packet := <[115%nat := flagsHigh dmpLength]> packet in
  let packet := <[116%nat := to_byte dmpLength]> packet in
  let packet := <[117%nat := x02]> packet in
  let packet := <[118%nat := xa1]> packet in
  let packet := <[121%nat := x00]> packet in
  let packet := <[122%nat := x01]> packet in
  let propValCount := to_uint16 (1 + Z.of_nat channelCount) in
  let packet := <[123%nat := to_byte (Z.shiftr propValCount 8)]> packet in
  let packet := <[124%nat := to_byte propValCount]> packet in
  let packet := <[125%nat := x00]> packet in
  copyInto packet Sacn.E131HeaderSize (length packet) channels.

End SacnTest.

(** ** The tracker as a state machine *)

Module StatsRun.

(** The calls that change the tracker or the store. *)
Inductive Call :=
  | CallRecordPacket (now : Time) (universeID : Z) (sourceCID : list byte)
      (sourceName : string) (sequence : Z)
  | CallResetUniverseStats (universeID : Z)
  | CallResetAllStats
  | CallGetSources (o : RangeOrder (list byte) loc) (universeID : Z).

Definition call (t : Stats.Tracker) (c : Call) : Stats.Tracker :=
  match c with
  | CallRecordPacket now universeID sourceCID sourceName sequence =>
      Stats.RecordPacket now universeID sourceCID sourceName sequence t
  | CallResetUniverseStats universeID => Stats.ResetUniverseStats universeID t
  | CallResetAllStats => Stats.ResetAllStats t
  | CallGetSources o universeID => (Stats.GetSources o universeID t).2
  end.

(** The tracker after a sequence of calls on [NewTracker()]. *)
Definition run (cs : list Call) : Stats.Tracker := fold_left call cs Stats.NewTracker.

(** Every [UniverseStats] is registered under its own ID and every
    [Source] under its own CID, behind pointers that refer to variables,
    and no [Source] variable is registered twice. *)
Definition separated (t : Stats.Tracker) : Prop :=
  (∀ id ls, Stats.universes t !! id = Some ls →
     ∃ st, Stats.statsStore t !! ls = Some st ∧
           Stats.UniverseStats.UniverseID st = id ∧
           ∀ cid l, Stats.UniverseStats.Sources st !! cid = Some l →
             ∃ src, Stats.sourceStore t !! l = Some src ∧ Stats.Source.CID src = cid) ∧
  (∀ id1 id2 st1 st2 cid1 cid2 l,
     Stats.statsOf id1 t = Some st1 → Stats.UniverseStats.Sources st1 !! cid1 = Some l →
     Stats.statsOf id2 t = Some st2 → Stats.UniverseStats.Sources st2 !! cid2 = Some l →
     id1 = id2).

(** The sum of a counter over the sources registered in [sources]. *)
Definition sumOver (f : Stats.Source.t → Z) (mem : gmap loc Stats.Source.t)
    (sources : gmap (list byte) loc) : Z :=
  map_fold (fun (_ : list byte) (l : loc) acc => acc + from_option f 0 (mem !! l))
    0 sources.

(** The packet and lost counters of every universe are the sums of the
    counters of its sources, in [uint64] arithmetic. *)
Definition balanced (t : Stats.Tracker) : Prop :=
  ∀ id st, Stats.statsOf id t = Some st →
    Stats.UniverseStats.PacketCount st =
      sumOver Stats.Source.PacketCount (Stats.sourceStore t)
        (Stats.UniverseStats.Sources st) mod u64_modulus ∧
    Stats.UniverseStats.LostPackets st =
      sumOver Stats.Source.LostPackets (Stats.sourceStore t)
        (Stats.UniverseStats.Sources st) mod u64_modulus.

End StatsRun.

(** ** The loops of the rate and loss getters *)

Module StatsLoops.

(** The loop of [t.GetPacketRate(universeID)]: the value of [count] that
    the function then divides by the length of the rate window in
    seconds; [None] is the early return for a universe that is not
    tracked. [now] is the value of [time.Now()]. *)
Definition packetRateCount (now : Time) (universeID : Z) (t : Stats.Tracker)
    : option Z :=
  match Stats.statsOf universeID t with
  | None => None
  | Some stats =>
      let cutoff := Add now (- Stats.rateWindow t) in
      Some (fold_left (fun count pt => if After pt cutoff then count + 1 else count)
              (Stats.UniverseStats.packetsInWindow stats) 0)
  end.

(** The loop of [t.GetRecentLossPercentage(universeID)]: the values of
    [totalReceived] and [totalLost] from which the function computes
    the percentage. *)
Definition recentLossTotals (now : Time) (universeID : Z) (t : Stats.Tracker)
    : option (Z * Z) :=
  match Stats.statsOf universeID t with
  | None => None
  | Some stats =>
      let cutoff := Add now (- Stats.lossWindowDuration) in
      Some (fold_left
              (fun (totals : Z * Z) evt =>
                 if After (Stats.Timestamp evt) cutoff
                 then (u64_add totals.1 (Stats.Received evt),
                       u64_add totals.2 (Stats.Lost evt))
                 else totals)
              (Stats.UniverseStats.lossWindow stats) (0, 0))
  end.

End StatsLoops.

(** ** The packet loop of [main] *)

Module Main.

(** The two components that the packet loop updates. *)
Record State := {
  universeManager : Universe.Manager;
  statsTracker : Stats.Tracker
}.

(** [universe.NewManager()] and [stats.NewTracker()] *)
Definition start : State :=
  {| universeManager := Universe.NewManager; statsTracker := Stats.NewTracker |}.

(** The body of the loop [for packet := range receiver.Packets()]:
    [GetOrCreate], [Update] through the pointer it returns, then
    [RecordPacket]. [nowU] and [nowR] are the values of [time.Now()]
    in [Update] and in [RecordPacket]. *)
Definition process (nowU nowR : Time) (packet : Sacn.Packet) (s : State) : State :=
  let r := Universe.GetOrCreate (Sacn.Universe packet) (universeManager s) in
  {| universeManager :=
       Universe.poke r.1
         (Universe.Update nowU (Sacn.ChannelData packet) (Sacn.SourceName packet)
            (Sacn.CID packet) (Sacn.Priority packet) (Sacn.Sequence packet))
         r.2;
     statsTracker :=
       Stats.RecordPacket nowR (Sacn.Universe packet) (Sacn.CID packet)
         (Sacn.SourceName packet) (Sacn.Sequence packet) (statsTracker s) |}.

(** The loop over the packets received, each with its two clock
    readings, from the components as [main] creates them. *)
Definition loop (received : list (Time * Time * Sacn.Packet)) : State :=
  fold_left (fun s e => process e.1.1 e.1.2 e.2 s) received start.

(** The [Universe] behind the pointer registered under [id]. *)
Definition universeOf (id : Z) (m : Universe.Manager) : option Universe.Universe :=
  Universe.Get id m ≫= Universe.deref m.

(** The manager and the tracker agree: they know the same universes,
    with the same packet count, and the source that the manager shows
    for a universe is tracked there with the same name and sequence
    number. *)
Definition consistent (s : State) : Prop :=
  ∀ id,
    match universeOf id (universeManager s), Stats.statsOf id (statsTracker s) with
    | Some u, Some st =>
        length (Universe.Channels u) = 512%nat ∧
        Universe.PacketCount u = Stats.UniverseStats.PacketCount st ∧
        ∃ src, Stats.sourceOf id (Universe.SourceCID u) (statsTracker s) = Some src ∧
               Stats.Source.LastSequence src = Universe.LastSequence u ∧
               Stats.Source.Name src = Universe.SourceName u
    | None, None => True
    | _, _ => False
    end.

End Main.

(** ** The receiver *)

From Stdlib Require DecimalString.
From Stdlib Require Import Strings.Ascii.

Module Receiver.

(** A connection returned by [net.ListenPacket]. *)
Definition Conn : Type := positive.

(** [Receiver]: the contents of the buffered channel [packets], oldest
    first, the two connection fields ([None] is nil) and [started]. *)
Record Receiver := {
  packets : list Sacn.Packet;
  conn : option Conn;
  rawConn : option Conn;
  started : bool
}.

(** The capacity of the channel made by [NewReceiver]. *)
Definition packetsCap : nat := 1000.

(** The length of the buffer [buf] of [readPackets]. *)
Definition bufSize : nat := 1500.

Definition NewReceiver : Receiver :=
  {| packets := []; conn := None; rawConn := None; started := false |}.

Inductive StartError :=
  | AlreadyStarted
  | ListenFailed.

(** [r.Start(ctx)] on the fields of the receiver; [listen] is what
    [net.ListenPacket] returns when it is called: a connection, or
    [None] for an error. The result is the error, [None] for nil. *)
Definition Start (listen : option Conn) (r : Receiver) : option StartError * Receiver :=
  if started r then (Some AlreadyStarted, r)
  else
    match listen with
    | None =>
        (Some ListenFailed,
         {| packets := packets r; conn := conn r; rawConn := rawConn r;
            started := true |})
    | Some c =>
        (None,
         {| packets := packets r; conn := Some c; rawConn := Some c;
            started := true |})
    end.

(** [r.Stop()] *)
Definition Stop (r : Receiver) : Receiver :=
  {| packets := packets r; conn := conn r; rawConn := None; started := false |}.

(** [fmt.Sprintf] with the verb [%d], on an unsigned number. *)
Definition formatUint (n : Z) : string :=
  DecimalString.NilZero.string_of_uint (N.to_uint (Z.to_N n)).

(** [multicastAddressForUniverse(universe)] *)
Definition multicastAddressForUniverse (universe : Z) : string :=
  let high := Z.land (Z.shiftr universe 8) 255 in
  let low := Z.land universe 255 in
  ("239.255." ++ formatUint high ++ "." ++ formatUint low)%string.

(** What one pass through the loop of [readPackets] meets: the context
    is done at the top of the loop; [ReadFrom] returns an error, and
    the context is done or not when the error is examined; or
    [ReadFrom] returns a datagram [data] from the address [src], and
    [now] is the value of [time.Now()] in [Parse]. *)
Inductive Read :=
  | Cancelled
  | ReadFailed (cancelled : bool)
  | Datagram (now : Time) (data : list byte) (src : string).

(** The assignment [packet.SourceAddr = src]. *)
Definition setSourceAddr (src : string) (p : Sacn.Packet) : Sacn.Packet :=
  {| Sacn.CID := Sacn.CID p;
     Sacn.SourceName := Sacn.SourceName p;
     Sacn.Priority := Sacn.Priority p;
     Sacn.Sequence := Sacn.Sequence p;
     Sacn.Universe := Sacn.Universe p;
     Sacn.StartCode := Sacn.StartCode p;
     Sacn.ChannelData := Sacn.ChannelData p;
     Sacn.SourceAddr := Some src;
     Sacn.ReceivedAt := Sacn.ReceivedAt p |}.

(** The [select] that sends on [r.packets] or, when the channel is
    full, drops the packet. *)
Definition trySend (packet : Sacn.Packet) (r : Receiver) : Receiver :=
  if (length (packets r) <? packetsCap)%nat then
    {| packets := packets r ++ [packet]; conn := conn r; rawConn := rawConn r;
       started := started r |}
  else r.

(** One pass through the loop of [readPackets]: the receiver after it,
    and whether the loop goes on. [ReadFrom] copies at most the 1500
    bytes of [buf], and [buf[:n]] is what [Parse] is given. *)
Definition readStep (e : Read) (r : Receiver) : Receiver * bool :=
  match e with
  | Cancelled => (Stop r, false)
  | ReadFailed cancelled => (r, negb cancelled)
  | Datagram now data src =>
      match Sacn.Parse now (take bufSize data) with
      | inl _ => (r, true)
      | inr packet => (trySend (setSourceAddr src packet) r, true)
      end
  end.

(** [r.readPackets(ctx)] over the passes of its loop. *)
Fixpoint readPackets (es : list Read) (r : Receiver) : Receiver :=
  match es with
  | [] => r
  | e :: es' =>
      let s := readStep e r in
      if s.2 then readPackets es' s.1 else s.1
  end.

(** The text before the first dot and the text after it; it serves to
    show that the addresses of different universes differ. *)
Fixpoint splitDot (s : string) : string * string :=
  match s with
  | EmptyString => (EmptyString, EmptyString)
  | String c s' =>
      if Ascii.eqb c "."%char then (EmptyString, s')
      else let r := splitDot s' in (String c r.1, r.2)
  end.

End Receiver.

(** ** The terminal interface *)

Module Tui.

(** [int], 64 bits wide: the result of an operation wraps around. *)
Definition to_int (n : Z) : Z := (n + 2 ^ 63) mod 2 ^ 64 - 2 ^ 63.

Definition int_add (a b : Z) : Z := to_int (a + b).
Definition int_sub (a b : Z) : Z := to_int (a - b).
Definition int_mul (a b : Z) : Z := to_int (a * b).

(** The functions [max] and [min] of the package. *)
Definition max (a b : Z) : Z := if b <? a then a else b.
Definition min (a b : Z) : Z := if a <? b then a else b.

(** [Model], without the two pointers [universeManager] and
    [statsTracker]: the manager they lead to is an argument of the
    functions that read it. *)
Record Model := {
  selectedUniverse : Z;
  universeList : list Z;
  scrollOffset : Z;
  width : Z;
  height : Z;
  columnsPerRow : Z
}.

(** [NewModel(um, st)] *)
Definition NewModel : Model :=
  {| selectedUniverse := 0; universeList := []; scrollOffset := 0;
     width := 0; height := 0; columnsPerRow := 16 |}.

(** The messages that [Update] tells apart: a key that matches the
    binding [Quit], [Tab], [Down] or [Up], any other key, a change of
    the window size, a tick, and any other message. *)
Inductive Msg :=
  | KeyQuit
  | KeyTab
  | KeyDown
  | KeyUp
  | KeyOther
  | WindowSizeMsg (Width Height : Z)
  | TickMsg
  | OtherMsg.

(** The command returned: nil, [tea.Quit] or [tickCmd()]. *)
Inductive Cmd :=
  | CmdNone
  | CmdQuit
  | CmdTick.

(** The loop of the case [Tab]: at the first [id] equal to the selected
    universe, the selection becomes [universeList[(i+1)%len]]; [rest]
    is [universeList[i:]]. *)
Fixpoint cycle (universeList : list Z) (selected : Z) (i : nat) (rest : list Z) : Z :=
  match rest with
  | [] => selected
  | id :: rest' =>
      if id =? selected
      then default selected (universeList !! ((i + 1) mod length universeList)%nat)
      else cycle universeList selected (S i) rest'
  end.

(** The loop that looks for the selected universe in the list. *)
Fixpoint found (selected : Z) (universeList : list Z) : bool :=
  match universeList with
  | [] => false
  | id :: rest => if id =? selected then true else found selected rest
  end.

(** [m.updateUniverseList()]; [um] is the manager behind
    [m.universeManager]. *)
Definition updateUniverseList (um : Universe.Manager) (m : Model) : Model :=
  let universes := Universe.GetAll um in
  let universeList := merge_sort Z.le (Universe.idAt um <$> universes) in
  {| selectedUniverse :=
       match universeList with
       | [] => selectedUniverse m
       | first :: _ =>
           if found (selectedUniverse m) universeList then selectedUniverse m else first
       end;
     universeList := universeList;
     scrollOffset := scrollOffset m;
     width := width m;
     height := height m;
     columnsPerRow := columnsPerRow m |}.

(** [m.Update(msg)] *)
Definition Update (um : Universe.Manager) (msg : Msg) (m : Model) : Model * Cmd :=
  match msg with
  | KeyQuit => (m, CmdQuit)
  | KeyTab =>
      (if (1 <? length (universeList m))%nat then
         {| selectedUniverse := cycle (universeList m) (selectedUniverse m) 0 (universeList m);
            universeList := universeList m;
            scrollOffset := scrollOffset m;
            width := width m;
            height := height m;
            columnsPerRow := columnsPerRow m |}
       else m, CmdNone)
  | KeyDown =>
      ({| selectedUniverse := selectedUniverse m;
          universeList := universeList m;
          scrollOffset := int_add (scrollOffset m) (columnsPerRow m);
          width := width m;
          height := height m;
          columnsPerRow := columnsPerRow m |}, CmdNone)
  | KeyUp =>
      (if columnsPerRow m <=? scrollOffset m then
         {| selectedUniverse := selectedUniverse m;
            universeList := universeList m;
            scrollOffset := int_sub (scrollOffset m) (columnsPerRow m);
            width := width m;
            height := height m;
            columnsPerRow := columnsPerRow m |}
       else m, CmdNone)
  | KeyOther => (m, CmdNone)
  | WindowSizeMsg Width Height =>
      ({| selectedUniverse := selectedUniverse m;
          universeList := universeList m;
          scrollOffset := scrollOffset m;
          width := Width;
          height := Height;
          columnsPerRow := max 1 (Z.quot (int_sub Width 2) 6) |}, CmdNone)
  | TickMsg => (updateUniverseList um m, CmdTick)
  | OtherMsg => (m, CmdNone)
  end.

(** The model after a sequence of messages, each with the manager as
    it is when the message is handled. *)
Definition updates (msgs : list (Universe.Manager * Msg)) (m : Model) : Model :=
  fold_left (fun m e => (Update e.1 e.2 m).1) msgs m.

(** The numbers that [renderChannelGrid] computes before its loops. *)
Definition channelsPerRow (m : Model) : Z :=
  if columnsPerRow m <? 1 then 16 else columnsPerRow m.

Definition rowsPerScreen (m : Model) : Z :=
  let availableHeight := int_sub (height m) 9 in
  let availableHeight := if availableHeight <? 4 then 4 else availableHeight in
  let rowsPerScreen := Z.quot availableHeight 4 in
  if rowsPerScreen <? 1 then 1 else rowsPerScreen.

Definition startChannel (m : Model) : Z :=
  let startChannel := scrollOffset m in
  let startChannel :=
    if 512 <=? startChannel then int_sub 512 (channelsPerRow m) else startChannel in
  if startChannel <? 0 then 0 else startChannel.

Definition endChannel (m : Model) : Z :=
  min 512 (int_add (startChannel m) (int_mul (rowsPerScreen m) (channelsPerRow m))).

(** The inner loop of [renderChannelGrid],
    [for j := 0; j < channelsPerRow && (i+j) < 512; j++]: the indices
    [i+j] at which [channels] is read. [None] when [fuel] passes are
    not enough. *)
Fixpoint rowIndices (fuel : nat) (i j channelsPerRow : Z) : option (list Z) :=
  if (j <? channelsPerRow) && (int_add i j <? 512) then
    match fuel with
    | O => None
    | S fuel' =>
        cons (int_add i j) <$> rowIndices fuel' i (int_add j 1) channelsPerRow
    end
  else Some [].

(** The outer loop,
    [for i := startChannel; i < endChannel; i += channelsPerRow]: the
    indices read for each row. *)
Fixpoint gridIndices (fuel : nat) (i endChannel channelsPerRow : Z)
    : option (list (list Z)) :=
  if i <? endChannel then
    match fuel with
    | O => None
    | S fuel' =>
        row ← rowIndices 512 i 0 channelsPerRow;
        rows ← gridIndices fuel' (int_add i channelsPerRow) endChannel channelsPerRow;
        Some (row :: rows)
    end
  else Some [].

(** The indices of [channels], an array of 512, that
    [renderChannelGrid] reads, row by row. *)
Definition renderedIndices (m : Model) : option (list (list Z)) :=
  gridIndices 512 (startChannel m) (endChannel m) (channelsPerRow m).

End Tui.

(** * Properties

    ** The parser *)

Section ParserFacts.
Import Sacn.

Lemma IndexByte_range (b : list byte) (c : byte) :
  -1 ≤ IndexByte b c < Z.of_nat (length b).
Proof.
  induction b as [|x r IH]; simpl; [lia|].
  case_bool_decide; [lia|].
  destruct (IndexByte r c <? 0) eqn:E; lia.
Qed.

Lemma IndexByte_absent (b : list byte) (c : byte) :
  c ∉ b → IndexByte b c = -1.
Proof.
  induction b as [|x r IH]; simpl; [done|].
  intros Hn. apply not_elem_of_cons in Hn as [Hne Hr].
  rewrite bool_decide_eq_false_2 by congruence.
  rewrite IH by done. reflexivity.
Qed.

Lemma IndexByte_first (b : list byte) (c : byte) (k : nat) :
  b !! k = Some c → c ∉ take k b → IndexByte b c = Z.of_nat k.
Proof.
  revert k. induction b as [|x r IH]; intros k Hk Hn; [done|].
  destruct k as [|k]; simpl in *.
  - injection Hk as ->. by rewrite bool_decide_eq_true_2.
  - apply not_elem_of_cons in Hn as [Hne Hr].
    rewrite bool_decide_eq_false_2 by congruence.
    rewrite (IH k) by done.
    destruct (Z.of_nat k <? 0) eqn:E; lia.
Qed.

Lemma slice_length {A} (s : list A) (lo hi : nat) :
  (hi ≤ length s)%nat → length (slice s lo hi) = (hi - lo)%nat.
Proof. intros H. unfold slice. rewrite length_take, length_drop. lia. Qed.

Lemma slice_lookup {A} (s : list A) (lo hi j : nat) :
  (j < hi - lo)%nat → slice s lo hi !! j = s !! (lo + j)%nat.
Proof. intros H. unfold slice. rewrite lookup_take_lt by done. apply lookup_drop. Qed.

Lemma Parse_inr now data p :
  Parse now data = inr p →
  (126 ≤ length data)%nat ∧ header_ok data ∧
  SourceName p = sourceNameOf (slice data 44 108) ∧
  ChannelData p = channelDataOf data.
Proof.
  unfold Parse, header_ok, Equal, E131HeaderSize.
  destruct (length data <? 126)%nat eqn:Hlen; [done|].
  apply Nat.ltb_ge in Hlen.
  destruct (Uint32 (slice data 18 22) =? E131RootVector) eqn:Hr;
    destruct (Uint32 (slice data 40 44) =? E131FramingVector) eqn:Hf;
    repeat case_bool_decide; simpl; try done.
  apply Z.eqb_eq in Hr, Hf.
  intros [= <-]; simpl. done.
Qed.

Lemma Parse_header_ok now data :
  (126 ≤ length data)%nat → header_ok data → ∃ p, Parse now data = inr p.
Proof.
  intros Hlen (H0 & H1 & Hid & Hr & Hf & Hd).
  unfold Parse, Equal, E131HeaderSize.
  rewrite (proj2 (Nat.ltb_ge _ _)) by done.
  rewrite !bool_decide_eq_true_2 by done.
  rewrite Hr, Hf, !Z.eqb_refl. simpl. eauto.
Qed.

Lemma channelDataOf_eq data :
  channelDataOf data = take 512 (drop 126 data).
Proof.
  unfold channelDataOf, slice, E131HeaderSize, E131MaxChannels.
  destruct (126 <? length data)%nat eqn:H1.
  - apply Nat.ltb_lt in H1.
    destruct (512 <? length data - 126)%nat eqn:H2.
    + reflexivity.
    + apply Nat.ltb_ge in H2.
      replace (126 + (length data - 126) - 126)%nat with (length data - 126)%nat by lia.
      rewrite !take_ge; [done | rewrite length_drop; lia | rewrite length_drop; lia].
  - apply Nat.ltb_ge in H1. rewrite drop_ge by done. by rewrite take_nil.
Qed.

(** C7: a buffer shorter than the 126-byte header is rejected with the
    "packet too short" error, whatever its content; the length test is
    the first one [Parse] makes. *)
Theorem Parse_too_short (now : Time) (data : list byte) :
  (length data < 126)%nat →
  Parse now data = inl (NewParseError "packet too short" 0).
Proof.
  intros Hlen. unfold Parse, E131HeaderSize.
  by rewrite (proj2 (Nat.ltb_lt _ _)).
Qed.

Lemma Parse_too_short_witness :
  Parse 0 (take 125 (sample_packet [])) = inl (NewParseError "packet too short" 0).
Proof. apply Parse_too_short. vm_compute. lia. Defined.

(** C5: when [Parse] accepts [data], the source name is made of the 64
    bytes at offsets 44 to 107, read up to and excluding the first zero
    byte; it is all 64 bytes when none is zero, and the empty string when
    the byte at offset 44 is zero. *)
Theorem Parse_source_name (now : Time) (data : list byte) (p : Packet) :
  Parse now data = inr p →
  let field := slice data 44 108 in
  (length field = 64%nat ∧ ∀ j, (j < 64)%nat → field !! j = data !! (44 + j)%nat) ∧
  (∀ k, field !! k = Some x00 → x00 ∉ take k field →
        SourceName p = string_of_list_byte (take k field)) ∧
  (x00 ∉ field → SourceName p = string_of_list_byte field) ∧
  (data !! 44%nat = Some x00 → SourceName p = EmptyString).
Proof.
  intros HP field. apply Parse_inr in HP as (Hlen & _ & Hname & _).
  assert (Hfirst : ∀ k, field !! k = Some x00 → x00 ∉ take k field →
            SourceName p = string_of_list_byte (take k field)).
  { intros k Hk Hn. rewrite Hname. unfold sourceNameOf. fold field.
    rewrite (IndexByte_first _ _ k) by done.
    destruct k as [|k]; [reflexivity|].
    rewrite (proj2 (Z.ltb_lt 0 (Z.of_nat (S k)))) by lia.
    by rewrite Nat2Z.id. }
  split; [split|split; [|split]].
  - apply slice_length. lia.
  - intros j Hj. by apply slice_lookup.
  - exact Hfirst.
  - intros Hn. rewrite Hname. unfold sourceNameOf. fold field.
    by rewrite IndexByte_absent.
  - intros H44. apply (Hfirst 0%nat).
    + unfold field. rewrite slice_lookup by lia. exact H44.
    + rewrite take_0. apply not_elem_of_nil.
Qed.

Lemma Parse_source_name_witness :
  ∃ p, Parse 0 (sample_packet []) = inr p ∧ SourceName p = "desk"%string.
Proof.
  eexists. split; [reflexivity|].
  destruct (Parse_source_name 0 (sample_packet []) _ eq_refl) as (_ & Hfirst & _).
  apply (Hfirst 4%nat); [reflexivity|].
  apply (bool_decide_unpack _). vm_compute. exact I.
Defined.

(** C6: when the buffer holds at least the header and passes the header
    validations, [Parse] succeeds and the channel data is the bytes from
    offset 126 on, cut to at most 512: its length is [min L 512] for [L]
    bytes after the header, and it is empty for a buffer of exactly 126
    bytes. *)
Theorem Parse_channel_data (now : Time) (data : list byte) :
  (126 ≤ length data)%nat → header_ok data →
  ∃ p, Parse now data = inr p ∧
       ChannelData p = take 512 (drop 126 data) ∧
       length (ChannelData p) = Nat.min (length data - 126) 512 ∧
       (length data = 126%nat → ChannelData p = []).
Proof.
  intros Hlen Hok. destruct (Parse_header_ok now data Hlen Hok) as [p HP].
  exists p. split; [done|].
  apply Parse_inr in HP as (_ & _ & _ & Hch).
  rewrite Hch, channelDataOf_eq.
  split; [done|]. split.
  - rewrite length_take, length_drop. lia.
  - intros H126. rewrite drop_ge by lia. by rewrite take_nil.
Qed.

Lemma Parse_channel_data_witness :
  ∃ p, Parse 0 (sample_packet [x0a; x14; x1e]) = inr p ∧
       ChannelData p = take 512 (drop 126 (sample_packet [x0a; x14; x1e])) ∧
       length (ChannelData p) = Nat.min (length (sample_packet [x0a; x14; x1e]) - 126) 512 ∧
       (length (sample_packet [x0a; x14; x1e]) = 126%nat → ChannelData p = []).
Proof.
  apply Parse_channel_data.
  - vm_compute. lia.
  - repeat split; reflexivity.
Defined.

End ParserFacts.

(** ** The universe and its channels *)

Section UniverseFacts.
Import Universe.

Lemma updateChannels_length now i rest channels :
  length (updateChannels now i rest channels) = length channels.
Proof.
  revert i channels. induction rest as [|b rest IH]; intros i channels; simpl; [done|].
  destruct (i <? 512)%nat; [|done]. by rewrite IH, length_insert.
Qed.

(** Indices below the loop variable are behind the loop. *)
Lemma updateChannels_below now i rest channels j :
  (j < i)%nat → updateChannels now i rest channels !! j = channels !! j.
Proof.
  revert i channels. induction rest as [|b rest IH]; intros i channels Hj; simpl; [done|].
  destruct (i <? 512)%nat; [|done].
  rewrite IH by lia. apply list_lookup_insert_ne. lia.
Qed.

(** Indices the loop does not reach: past the data, or past 511. *)
Lemma updateChannels_beyond now i rest channels j :
  (i + length rest ≤ j ∨ 512 ≤ j)%nat →
  updateChannels now i rest channels !! j = channels !! j.
Proof.
  revert i channels. induction rest as [|b rest IH]; intros i channels Hj; simpl; [done|].
  destruct (i <? 512)%nat eqn:Hi; [|done].
  apply Nat.ltb_lt in Hi. simpl in Hj.
  rewrite IH by lia. apply list_lookup_insert_ne. lia.
Qed.

(** Indices the loop visits. *)
Lemma updateChannels_covered now i rest channels k b :
  rest !! k = Some b → (i + k < 512)%nat → (i + k < length channels)%nat →
  updateChannels now i rest channels !! (i + k)%nat =
    Some {| Value := byte_val b; Active := true; LastUpdate := now |}.
Proof.
  revert i channels k.
  induction rest as [|x rest IH]; intros i channels k Hk H512 Hlen; [done|].
  simpl. rewrite (proj2 (Nat.ltb_lt i 512)) by lia.
  destruct k as [|k]; simpl in Hk.
  - injection Hk as ->. rewrite Nat.add_0_r in *.
    rewrite updateChannels_below by lia.
    by apply list_lookup_insert_eq.
  - replace (i + S k)%nat with (S i + k)%nat by lia.
    apply IH; [done | lia | rewrite length_insert; lia].
Qed.

(** C8: [Update] with channel data of length [n] sets the value, the
    active flag and the update time of exactly the channels [i] with
    [i < n] and [i < 512], and leaves every other channel as it was; so
    a channel that is active stays active. *)
Theorem Update_channels (now : Time) (channelData : list byte) (sourceName : string)
    (sourceCID : list byte) (priority sequence : Z) (u : Universe) :
  length (Channels u) = 512%nat →
  let u' := Update now channelData sourceName sourceCID priority sequence u in
  (∀ i b, (i < 512)%nat → channelData !! i = Some b →
      Channels u' !! i =
        Some {| Value := byte_val b; Active := true; LastUpdate := now |}) ∧
  (∀ i, ¬ (i < length channelData ∧ i < 512)%nat →
      Channels u' !! i = Channels u !! i) ∧
  (∀ i c, Channels u !! i = Some c → Active c = true →
      ∃ c', Channels u' !! i = Some c' ∧ Active c' = true).
Proof.
  intros Hlen u'.
  assert (Hset : ∀ i b, (i < 512)%nat → channelData !! i = Some b →
      Channels u' !! i =
        Some {| Value := byte_val b; Active := true; LastUpdate := now |}).
  { intros i b Hi Hb. simpl.
    apply (updateChannels_covered now 0 channelData (Channels u) i b); [done|lia|lia]. }
  assert (Hkeep : ∀ i, ¬ (i < length channelData ∧ i < 512)%nat →
      Channels u' !! i = Channels u !! i).
  { intros i Hi. simpl. apply updateChannels_beyond. lia. }
  split; [exact Hset|]. split; [exact Hkeep|].
  intros i c Hc Hact.
  destruct (decide (i < length channelData ∧ i < 512)%nat) as [[Hn H512]|Hout].
  - destruct (lookup_lt_is_Some_2 channelData i Hn) as [b Hb].
    eexists. split; [by apply (Hset i b)|done].
  - exists c. by rewrite Hkeep.
Qed.

Lemma Update_channels_witness :
  let u' := Update 1000 [xff; x80] "desk" zeroCID 100 7 (NewUniverse 1) in
  Channels u' !! 1%nat = Some {| Value := 128; Active := true; LastUpdate := 1000 |} ∧
  Channels u' !! 2%nat = Some zeroChannel.
Proof.
  destruct (Update_channels 1000 [xff; x80] "desk" zeroCID 100 7 (NewUniverse 1) eq_refl)
    as (Hset & Hkeep & _).
  split.
  - apply (Hset 1%nat x80); [lia | reflexivity].
  - rewrite (Hkeep 2%nat); [reflexivity | simpl; lia].
Defined.

End UniverseFacts.

(** ** The universe manager *)

Section ManagerFacts.
Import Universe.

Lemma IsStale_iff now timeout u :
  IsStale now timeout u = true ↔
  LastPacket u = zeroTime ∨ timeout < Since now (LastPacket u).
Proof.
  unfold IsStale, IsZero.
  destruct (LastPacket u =? zeroTime) eqn:E.
  - apply Z.eqb_eq in E. tauto.
  - apply Z.eqb_neq in E. rewrite Z.ltb_lt. tauto.
Qed.

(** The loop of [PruneStale] after it has ranged over the part [m0] of
    the map: the entries of [m0] found stale are gone, the others are
    as in the map, and the counter is the number of entries removed. *)
Lemma pruneFold clock timeout m (m0 : gmap Z loc) :
  m0 ⊆ universes m →
  let r := map_fold (pruneStep clock timeout m) (universes m, 0) m0 in
  (∀ id, r.1 !! id =
      match m0 !! id with
      | Some l => if staleAt clock timeout m id l then None else Some l
      | None => universes m !! id
      end) ∧
  r.2 = Z.of_nat (size (universes m)) - Z.of_nat (size r.1).
Proof.
  revert m0.
  apply (map_fold_weak_ind (λ r m0, m0 ⊆ universes m →
    (∀ id, r.1 !! id =
        match m0 !! id with
        | Some l => if staleAt clock timeout m id l then None else Some l
        | None => universes m !! id
        end) ∧
    r.2 = Z.of_nat (size (universes m)) - Z.of_nat (size r.1))).
  { intros _. split; [intros id; by rewrite lookup_empty | simpl; lia]. }
  intros i x m0 r Hi IH Hsub.
  assert (Hx : universes m !! i = Some x).
  { apply (lookup_weaken _ _ _ _ (lookup_insert_eq m0 i x) Hsub). }
  assert (Hsub0 : m0 ⊆ universes m).
  { etrans; [|exact Hsub]. by apply insert_subseteq. }
  destruct (IH Hsub0) as [IHl IHn].
  assert (Hri : r.1 !! i = Some x) by (by rewrite IHl, Hi).
  unfold pruneStep. destruct (staleAt clock timeout m i x) eqn:Hst; simpl.
  - split.
    + intros id. destruct (decide (id = i)) as [->|Hne].
      * by rewrite lookup_delete_eq, lookup_insert_eq, Hst.
      * rewrite lookup_delete_ne, lookup_insert_ne by done. apply IHl.
    + rewrite map_size_delete, Hri. simpl.
      assert (size r.1 ≠ 0%nat) by (by apply (map_size_ne_0_lookup_2 _ i)).
      lia.
  - split; [|done].
    intros id. destruct (decide (id = i)) as [->|Hne].
    * by rewrite lookup_insert_eq, Hst.
    * rewrite lookup_insert_ne by done. apply IHl.
Qed.

(** C4: a universe whose last-packet time was never set, such as a new
    one, is stale for every timeout; and [PruneStale] removes from the
    map exactly the universes whose last-packet time was never set or
    is older than the timeout, keeps the others, and returns the number
    of universes it removed. *)
Theorem PruneStale_exact (clock : Z → Time) (timeout : Duration) (m : Manager) :
  (∀ now u, LastPacket u = zeroTime → IsStale now timeout u = true) ∧
  (∀ now id, PacketCount (NewUniverse id) = 0 ∧
             IsStale now timeout (NewUniverse id) = true) ∧
  let r := PruneStale clock timeout m in
  (∀ id l u, universes m !! id = Some l → deref m l = Some u →
      (LastPacket u = zeroTime ∨ timeout < Since (clock id) (LastPacket u)) →
      universes r.2 !! id = None) ∧
  (∀ id l u, universes m !! id = Some l → deref m l = Some u →
      ¬ (LastPacket u = zeroTime ∨ timeout < Since (clock id) (LastPacket u)) →
      universes r.2 !! id = Some l) ∧
  (∀ id, universes m !! id = None → universes r.2 !! id = None) ∧
  store r.2 = store m ∧
  r.1 = Z.of_nat (size (universes m)) - Z.of_nat (size (universes r.2)).
Proof.
  split; [|split].
  - intros now u Hz. apply IsStale_iff. by left.
  - intros now id. split; [done|]. apply IsStale_iff. by left.
  - destruct (pruneFold clock timeout m (universes m)) as [Hl Hn]; [done|].
    simpl. split; [|split; [|split; [|split]]].
    + intros id l u Hid Hu Hst. rewrite Hl, Hid. unfold staleAt. rewrite Hu.
      by rewrite (proj2 (IsStale_iff _ _ _) Hst).
    + intros id l u Hid Hu Hst. rewrite Hl, Hid. unfold staleAt. rewrite Hu.
      destruct (IsStale (clock id) timeout u) eqn:E; [|done].
      by apply IsStale_iff in E.
    + intros id Hid. by rewrite Hl, Hid.
    + done.
    + exact Hn.
Qed.

Lemma PruneStale_exact_witness :
  let m0 := (GetOrCreate 2 (GetOrCreate 1 NewManager).2).2 in
  let m := poke 1%positive (Update 1000 [xff] "active" zeroCID 100 1) m0 in
  let r := PruneStale (fun _ => 2000) Hour m in
  universes r.2 !! 2 = None ∧ universes r.2 !! 1 = Some 1%positive ∧ r.1 = 1.
Proof.
  intros m0 m r.
  destruct (PruneStale_exact (fun _ => 2000) Hour m) as (_ & _ & Hdel & Hkeep & _ & _ & Hn).
  split; [|split].
  - apply (Hdel 2 2%positive (NewUniverse 2)); [reflexivity | reflexivity | by left].
  - eapply (Hkeep 1 1%positive); [reflexivity | reflexivity |].
    vm_compute. intros [H|H]; discriminate H.
  - etrans; [exact Hn|]. reflexivity.
Defined.

End ManagerFacts.

(** ** The statistics tracker *)

Section TrackerFacts.
Import Stats.

Lemma statsOf_unfold uid t :
  statsOf uid t = match universes t !! uid with
                  | Some ls => statsStore t !! ls
                  | None => None
                  end.
Proof. unfold statsOf, GetUniverseStats. by destruct (universes t !! uid). Qed.

Lemma sourceOf_unfold uid cid t :
  sourceOf uid cid t =
    match statsOf uid t with
    | Some st =>
        match UniverseStats.Sources st !! cid with
        | Some l => sourceStore t !! l
        | None => None
        end
    | None => None
    end.
Proof.
  unfold sourceOf. destruct (statsOf uid t) as [st|]; [|done]. simpl.
  by destruct (UniverseStats.Sources st !! cid).
Qed.

(** What [RecordPacket] leaves behind the pointers of the universe and
    of the source, from what it found there; a universe or a source that
    was not tracked starts from its new, zeroed variable. *)
Lemma RecordPacket_lookup now uid cid name seq t :
  (universes t !! uid = None ∨ is_Some (statsOf uid t)) →
  let st0 := default (newStats uid) (statsOf uid t) in
  (∀ l, UniverseStats.Sources st0 !! cid = Some l → is_Some (sourceStore t !! l)) →
  let src0 := default (newSource cid name) (sourceOf uid cid t) in
  let chk := checkLoss (bool_decide (is_Some (UniverseStats.Sources st0 !! cid)))
               src0 st0 seq in
  let t' := RecordPacket now uid cid name seq t in
  (∃ sources, statsOf uid t' = Some (statsAfter now (rateWindow t) sources chk st0)) ∧
  sourceOf uid cid t' = Some (sourceAfter now name seq chk src0).
Proof.
  intros Hu st0 Hs src0 chk t'. subst t' chk src0 st0.
  rewrite sourceOf_unfold. revert Hu Hs. rewrite (statsOf_unfold uid t).
  unfold RecordPacket, statsFor.
  destruct (universes t !! uid) as [ls|] eqn:Hls.
  - intros [|[st Hst]]; [done|]. rewrite Hst. simpl. intros Hs.
    unfold sourceFor.
    destruct (UniverseStats.Sources st !! cid) as [l|] eqn:Hl.
    + destruct (Hs l eq_refl) as [src Hsrc]. rewrite Hsrc. simpl.
      try rewrite bool_decide_eq_true_2 by eauto.
      rewrite sourceOf_unfold, statsOf_unfold. simpl.
      rewrite Hls, lookup_insert_eq. simpl. rewrite Hl, lookup_insert_eq.
      split; [eexists|]; reflexivity.
    + rewrite lookup_insert_eq. simpl.
      try rewrite bool_decide_eq_false_2 by (intros [? ?]; done).
      rewrite sourceOf_unfold, statsOf_unfold. simpl.
      rewrite Hls, lookup_insert_eq. simpl. rewrite !lookup_insert_eq.
      split; [eexists|]; reflexivity.
  - intros _ Hs. simpl. rewrite lookup_insert_eq. simpl.
    unfold sourceFor. simpl. rewrite lookup_empty, lookup_insert_eq. simpl.
    try rewrite bool_decide_eq_false_2 by (intros [? ?]; done).
    rewrite sourceOf_unfold, statsOf_unfold. simpl.
    rewrite !lookup_insert_eq. simpl. rewrite !lookup_insert_eq.
    split; [eexists|]; reflexivity.
Qed.

Lemma sourceOf_Some uid cid t src :
  sourceOf uid cid t = Some src →
  ∃ st l, statsOf uid t = Some st ∧ UniverseStats.Sources st !! cid = Some l ∧
          sourceStore t !! l = Some src.
Proof.
  rewrite sourceOf_unfold. destruct (statsOf uid t) as [st|]; [|done].
  destruct (UniverseStats.Sources st !! cid) as [l|] eqn:Hl; [|done]. eauto.
Qed.

(** [RecordPacket] for a source that is tracked. *)
Lemma RecordPacket_known now uid cid name seq t st src :
  statsOf uid t = Some st → sourceOf uid cid t = Some src →
  let chk := checkLoss true src st seq in
  let t' := RecordPacket now uid cid name seq t in
  (∃ sources, statsOf uid t' = Some (statsAfter now (rateWindow t) sources chk st)) ∧
  sourceOf uid cid t' = Some (sourceAfter now name seq chk src).
Proof.
  intros Hst Hsrc.
  destruct (sourceOf_Some _ _ _ _ Hsrc) as (st1 & l & Hst1 & Hl & Hm).
  assert (st1 = st) as -> by congruence.
  pose proof (RecordPacket_lookup now uid cid name seq t) as H.
  rewrite Hst, Hsrc in H. simpl in H. rewrite Hl in H.
  rewrite bool_decide_eq_true_2 in H by eauto.
  apply H; [right; eauto|]. intros l' [= <-]. eauto.
Qed.

(** [RecordPacket] for a universe that is not tracked. *)
Lemma RecordPacket_new_universe now uid cid name seq t :
  universes t !! uid = None →
  let chk := checkLoss false (newSource cid name) (newStats uid) seq in
  let t' := RecordPacket now uid cid name seq t in
  (∃ sources, statsOf uid t' =
                Some (statsAfter now (rateWindow t) sources chk (newStats uid))) ∧
  sourceOf uid cid t' = Some (sourceAfter now name seq chk (newSource cid name)).
Proof.
  intros Hu.
  pose proof (RecordPacket_lookup now uid cid name seq t) as H.
  assert (Hst : statsOf uid t = None) by (by rewrite statsOf_unfold, Hu).
  assert (Hsrc : sourceOf uid cid t = None) by (by rewrite sourceOf_unfold, Hst).
  rewrite Hst, Hsrc in H. simpl in H.
  apply H; [by left|]. intros l. by rewrite lookup_empty.
Qed.

Lemma expectedSeq_eq x : expectedSeq x = (x + 1) mod 256.
Proof. unfold expectedSeq, to_uint8. apply Z.mod_mod. lia. Qed.

(** The gap computed by the code is the forward distance modulo 256. *)
Lemma gap_mod sequence expected :
  0 ≤ sequence < 256 → 0 ≤ expected < 256 → sequence ≠ expected →
  gap sequence expected = (sequence - expected) mod 256 ∧
  1 ≤ gap sequence expected ≤ 255.
Proof.
  intros Hs He Hne. unfold gap.
  destruct (expected <? sequence) eqn:E.
  - apply Z.ltb_lt in E. rewrite Z.mod_small by lia. lia.
  - apply Z.ltb_ge in E.
    replace (sequence - expected) with ((256 - expected + sequence) + (-1) * 256) by lia.
    rewrite Z.mod_add by lia. rewrite Z.mod_small by lia. lia.
Qed.

(** The three outcomes of the loss check for a source with packets. *)
Lemma checkLoss_in_order src st sequence :
  0 < Source.PacketCount src →
  sequence = expectedSeq (Source.LastSequence src) →
  checkLoss true src st sequence =
    {| lostThisPacket := 0; sourceLost := Source.LostPackets src;
       universeLost := UniverseStats.LostPackets st |}.
Proof.
  intros Hpc Heq. unfold checkLoss.
  rewrite (proj2 (Z.ltb_lt _ _) Hpc). simpl.
  by rewrite (proj2 (Z.eqb_eq _ _) Heq).
Qed.

Lemma checkLoss_gap src st sequence :
  0 < Source.PacketCount src →
  sequence ≠ expectedSeq (Source.LastSequence src) →
  gap sequence (expectedSeq (Source.LastSequence src)) < 200 →
  let lost := gap sequence (expectedSeq (Source.LastSequence src)) in
  checkLoss true src st sequence =
    {| lostThisPacket := lost;
       sourceLost := u64_add (Source.LostPackets src) lost;
       universeLost := u64_add (UniverseStats.LostPackets st) lost |}.
Proof.
  intros Hpc Hne Hlt. unfold checkLoss, sourceRestartThreshold.
  rewrite (proj2 (Z.ltb_lt _ _) Hpc). simpl.
  rewrite (proj2 (Z.eqb_neq _ _) Hne). simpl.
  by rewrite (proj2 (Z.ltb_lt _ _) Hlt).
Qed.

Lemma checkLoss_restart src st sequence :
  200 ≤ gap sequence (expectedSeq (Source.LastSequence src)) →
  checkLoss true src st sequence =
    {| lostThisPacket := 0; sourceLost := Source.LostPackets src;
       universeLost := UniverseStats.LostPackets st |}.
Proof.
  intros Hge. unfold checkLoss, sourceRestartThreshold.
  destruct (0 <? Source.PacketCount src); simpl; [|done].
  destruct (sequence =? expectedSeq (Source.LastSequence src)); simpl; [done|].
  by rewrite (proj2 (Z.ltb_ge _ _) Hge).
Qed.

(** Without a source that has packets, the loss check changes nothing. *)
Lemma checkLoss_first sourceExists src st sequence :
  sourceExists = false ∨ ¬ (0 < Source.PacketCount src) →
  checkLoss sourceExists src st sequence =
    {| lostThisPacket := 0; sourceLost := Source.LostPackets src;
       universeLost := UniverseStats.LostPackets st |}.
Proof.
  intros H. unfold checkLoss. destruct H as [-> | Hpc]; [done|].
  rewrite (proj2 (Z.ltb_ge _ _)) by lia. by rewrite andb_false_r.
Qed.

(** The first packet recorded by a new tracker. *)
Lemma RecordPacket_first_packet now uid cid name seq :
  ∃ st src,
    statsOf uid (RecordPacket now uid cid name seq NewTracker) = Some st ∧
    sourceOf uid cid (RecordPacket now uid cid name seq NewTracker) = Some src ∧
    UniverseStats.LostPackets st = 0 ∧ Source.LostPackets src = 0 ∧
    Source.LastSequence src = seq ∧ Source.PacketCount src = 1.
Proof.
  destruct (RecordPacket_new_universe now uid cid name seq NewTracker)
    as [[sources Hst] Hsrc]; [apply lookup_empty|].
  eexists _, _. split; [exact Hst|]. split; [exact Hsrc|]. done.
Qed.

(** C1: for a source that the universe already tracks, a packet whose
    forward gap modulo 256 from the expected sequence is at least 200 is
    taken for a restart: neither lost counter changes and the event put
    in the loss window carries no loss, while the last sequence, the
    last-seen time, the packet count and the name of the source are
    updated. In particular 100 followed by 50 counts no lost packet. *)
Theorem RecordPacket_restart :
  (∀ now uid cid name seq t st src,
     statsOf uid t = Some st → sourceOf uid cid t = Some src →
     0 ≤ seq < 256 → 0 ≤ Source.LastSequence src < 256 →
     200 ≤ (seq - (Source.LastSequence src + 1) mod 256) mod 256 →
     let t' := RecordPacket now uid cid name seq t in
     (∃ st', statsOf uid t' = Some st' ∧
             UniverseStats.LostPackets st' = UniverseStats.LostPackets st ∧
             UniverseStats.lossWindow st' =
               pruneEvents (Add now (- lossWindowDuration))
                 (UniverseStats.lossWindow st ++
                  [{| Timestamp := now; Received := 1; Lost := 0 |}])) ∧
     sourceOf uid cid t' =
       Some {| Source.CID := Source.CID src;
               Source.Name := name;
               Source.LastSequence := seq;
               Source.LastSeen := now;
               Source.PacketCount := u64_add (Source.PacketCount src) 1;
               Source.LostPackets := Source.LostPackets src |}) ∧
  (∀ now1 now2 uid cid name1 name2,
     let t := RecordPacket now2 uid cid name2 50
                (RecordPacket now1 uid cid name1 100 NewTracker) in
     universeLostOf uid t = 0 ∧ sourceLostOf uid cid t = 0).
Proof.
  assert (Hgen : ∀ now uid cid name seq t st src,
     statsOf uid t = Some st → sourceOf uid cid t = Some src →
     0 ≤ seq < 256 → 0 ≤ Source.LastSequence src < 256 →
     200 ≤ (seq - (Source.LastSequence src + 1) mod 256) mod 256 →
     let t' := RecordPacket now uid cid name seq t in
     (∃ st', statsOf uid t' = Some st' ∧
             UniverseStats.LostPackets st' = UniverseStats.LostPackets st ∧
             UniverseStats.lossWindow st' =
               pruneEvents (Add now (- lossWindowDuration))
                 (UniverseStats.lossWindow st ++
                  [{| Timestamp := now; Received := 1; Lost := 0 |}])) ∧
     sourceOf uid cid t' =
       Some {| Source.CID := Source.CID src;
               Source.Name := name;
               Source.LastSequence := seq;
               Source.LastSeen := now;
               Source.PacketCount := u64_add (Source.PacketCount src) 1;
               Source.LostPackets := Source.LostPackets src |}).
  { intros now uid cid name seq t st src Hst Hsrc Hseq Hlast Hgap t'.
    destruct (RecordPacket_known now uid cid name seq t st src Hst Hsrc)
      as [[sources Hst'] Hsrc'].
    rewrite <- expectedSeq_eq in Hgap.
    assert (He : 0 ≤ expectedSeq (Source.LastSequence src) < 256).
    { rewrite expectedSeq_eq. apply Z.mod_pos_bound. lia. }
    assert (Hne : seq ≠ expectedSeq (Source.LastSequence src)).
    { intros ->. rewrite Z.sub_diag in Hgap. by vm_compute in Hgap. }
    destruct (gap_mod seq _ Hseq He Hne) as [Hg _].
    rewrite checkLoss_restart in Hst', Hsrc' by lia.
    split; [eexists; split; [exact Hst'|done]|exact Hsrc']. }
  split; [exact Hgen|].
  intros now1 now2 uid cid name1 name2 t.
  destruct (RecordPacket_first_packet now1 uid cid name1 100)
    as (st & src & Hst & Hsrc & Hl & Hsl & Hlast & Hpc).
  destruct (Hgen now2 uid cid name2 50 _ st src Hst Hsrc) as [(st' & Hst' & Hl' & _) Hsrc'];
    [lia | lia | by rewrite Hlast |].
  unfold universeLostOf, sourceLostOf. subst t.
  rewrite Hst', Hsrc'. simpl. lia.
Qed.

(** C2: for a source that has sent packets, with [expected] the last
    sequence plus one modulo 256: a packet with the expected sequence
    adds no loss; otherwise the gap is [seq - expected] when
    [seq > expected] and [256 - expected + seq] when not, which is the
    forward distance modulo 256, and a gap below 200 is added to the
    lost counters of the source and of the universe. In particular 0
    followed by 5 counts 4 lost packets, and 254 followed by 1 counts 2. *)
Theorem RecordPacket_gap :
  (∀ now uid cid name seq t st src,
     statsOf uid t = Some st → sourceOf uid cid t = Some src →
     0 ≤ seq < 256 → 0 ≤ Source.LastSequence src < 256 →
     0 < Source.PacketCount src →
     let expected := (Source.LastSequence src + 1) mod 256 in
     let g := if expected <? seq then seq - expected else 256 - expected + seq in
     let t' := RecordPacket now uid cid name seq t in
     ∃ st' src',
       statsOf uid t' = Some st' ∧ sourceOf uid cid t' = Some src' ∧
       (seq = expected →
          UniverseStats.LostPackets st' = UniverseStats.LostPackets st ∧
          Source.LostPackets src' = Source.LostPackets src ∧
          UniverseStats.lossWindow st' =
            pruneEvents (Add now (- lossWindowDuration))
              (UniverseStats.lossWindow st ++
               [{| Timestamp := now; Received := 1; Lost := 0 |}])) ∧
       (seq ≠ expected → 1 ≤ g ≤ 255 ∧ g = (seq - expected) mod 256) ∧
       (seq ≠ expected → g < 200 →
          UniverseStats.LostPackets st' = u64_add (UniverseStats.LostPackets st) g ∧
          Source.LostPackets src' = u64_add (Source.LostPackets src) g ∧
          UniverseStats.lossWindow st' =
            pruneEvents (Add now (- lossWindowDuration))
              (UniverseStats.lossWindow st ++
               [{| Timestamp := now; Received := 1; Lost := g |}]))) ∧
  (∀ now1 now2 uid cid name1 name2,
     let t := RecordPacket now2 uid cid name2 5
                (RecordPacket now1 uid cid name1 0 NewTracker) in
     universeLostOf uid t = 4 ∧ sourceLostOf uid cid t = 4) ∧
  (∀ now1 now2 uid cid name1 name2,
     let t := RecordPacket now2 uid cid name2 1
                (RecordPacket now1 uid cid name1 254 NewTracker) in
     universeLostOf uid t = 2 ∧ sourceLostOf uid cid t = 2).
Proof.
  assert (Hgen : ∀ now uid cid name seq t st src,
     statsOf uid t = Some st → sourceOf uid cid t = Some src →
     0 ≤ seq < 256 → 0 ≤ Source.LastSequence src < 256 →
     0 < Source.PacketCount src →
     let expected := (Source.LastSequence src + 1) mod 256 in
     let g := if expected <? seq then seq - expected else 256 - expected + seq in
     let t' := RecordPacket now uid cid name seq t in
     ∃ st' src',
       statsOf uid t' = Some st' ∧ sourceOf uid cid t' = Some src' ∧
       (seq = expected →
          UniverseStats.LostPackets st' = UniverseStats.LostPackets st ∧
          Source.LostPackets src' = Source.LostPackets src ∧
          UniverseStats.lossWindow st' =
            pruneEvents (Add now (- lossWindowDuration))
              (UniverseStats.lossWindow st ++
               [{| Timestamp := now; Received := 1; Lost := 0 |}])) ∧
       (seq ≠ expected → 1 ≤ g ≤ 255 ∧ g = (seq - expected) mod 256) ∧
       (seq ≠ expected → g < 200 →
          UniverseStats.LostPackets st' = u64_add (UniverseStats.LostPackets st) g ∧
          Source.LostPackets src' = u64_add (Source.LostPackets src) g ∧
          UniverseStats.lossWindow st' =
            pruneEvents (Add now (- lossWindowDuration))
              (UniverseStats.lossWindow st ++
               [{| Timestamp := now; Received := 1; Lost := g |}]))).
  { intros now uid cid name seq t st src Hst Hsrc Hseq Hlast Hpc expected g t'.
    destruct (RecordPacket_known now uid cid name seq t st src Hst Hsrc)
      as [[sources Hst'] Hsrc'].
    assert (Hexp : expectedSeq (Source.LastSequence src) = expected)
      by apply expectedSeq_eq.
    assert (He : 0 ≤ expected < 256) by (apply Z.mod_pos_bound; lia).
    eexists _, _. split; [exact Hst'|]. split; [exact Hsrc'|].
    split; [|split].
    - intros Heq. rewrite checkLoss_in_order by congruence. done.
    - intros Hne. destruct (gap_mod seq expected Hseq He Hne). done.
    - intros Hne Hlt.
      rewrite checkLoss_gap by (rewrite ?Hexp; done).
      rewrite Hexp. done. }
  split; [exact Hgen|].
  assert (Htwo : ∀ s1 s2 n now1 now2 uid cid name1 name2,
     0 ≤ s1 < 256 → 0 ≤ s2 < 256 → s2 ≠ (s1 + 1) mod 256 →
     (if (s1 + 1) mod 256 <? s2 then s2 - (s1 + 1) mod 256
      else 256 - (s1 + 1) mod 256 + s2) = n → 0 ≤ n < 200 →
     let t := RecordPacket now2 uid cid name2 s2
                (RecordPacket now1 uid cid name1 s1 NewTracker) in
     universeLostOf uid t = n ∧ sourceLostOf uid cid t = n).
  { intros s1 s2 n now1 now2 uid cid name1 name2 Hs1 Hs2 Hne Hn Hlt t.
    destruct (RecordPacket_first_packet now1 uid cid name1 s1)
      as (st & src & Hst & Hsrc & Hl & Hsl & Hlast & Hpc).
    destruct (Hgen now2 uid cid name2 s2 _ st src Hst Hsrc)
      as (st' & src' & Hst' & Hsrc' & _ & _ & Hadd); [lia | lia | lia |].
    rewrite Hlast, Hn, Hl, Hsl in Hadd. destruct Hadd as (Hu & Hs & _); [done | lia |].
    unfold universeLostOf, sourceLostOf. subst t. rewrite Hst', Hsrc'. simpl.
    rewrite Hu, Hs. unfold u64_add, u64_modulus. rewrite Z.mod_small; lia. }
  split.
  - intros. by apply (Htwo 0 5 4).
  - intros. by apply (Htwo 254 1 2).
Qed.

Lemma resetSource_idemp (x : option Source.t) :
  resetSource <$> (resetSource <$> x) = resetSource <$> x.
Proof. by destruct x. Qed.

(** The loop of [ResetUniverseStats] over the sources: every variable a
    pointer of [sources] refers to is reset, and no other variable
    changes. *)
Lemma resetFold (mem : gmap loc Source.t) (sources : gmap (list byte) loc) (l : loc) :
  let r := map_fold (fun (_ : list byte) (source : loc) mem => alter resetSource source mem)
             mem sources in
  (r !! l = mem !! l ∨ r !! l = resetSource <$> mem !! l) ∧
  ((∃ cid, sources !! cid = Some l) → r !! l = resetSource <$> mem !! l) ∧
  ((∀ cid, sources !! cid ≠ Some l) → r !! l = mem !! l).
Proof.
  revert sources.
  apply (map_fold_weak_ind (λ r (sources : gmap (list byte) loc),
    (r !! l = mem !! l ∨ r !! l = resetSource <$> mem !! l) ∧
    ((∃ cid, sources !! cid = Some l) → r !! l = resetSource <$> mem !! l) ∧
    ((∀ cid, sources !! cid ≠ Some l) → r !! l = mem !! l))).
  { split; [by left|]. split; [|done].
    intros [cid Hc]. by rewrite lookup_empty in Hc. }
  intros cid x sources r Hcid (Hor & Hin & Hout).
  destruct (decide (x = l)) as [->|Hne].
  - assert (Hl : alter resetSource l r !! l = resetSource <$> mem !! l).
    { rewrite lookup_alter_eq.
      destruct Hor as [-> | ->]; [done | apply resetSource_idemp]. }
    split; [by right|]. split; [done|].
    intros Hno. destruct (Hno cid). apply lookup_insert_eq.
  - rewrite lookup_alter_ne by done.
    split; [done|]. split.
    + intros [cid' Hc']. apply Hin.
      destruct (decide (cid' = cid)) as [->|Hk].
      * rewrite lookup_insert_eq in Hc'. congruence.
      * rewrite lookup_insert_ne in Hc' by done. eauto.
    + intros Hno. apply Hout. intros cid' Hc'. apply (Hno cid').
      rewrite lookup_insert_ne; [done|]. intros <-. congruence.
Qed.

Lemma ResetUniverseStats_lookup uid t st :
  statsOf uid t = Some st →
  statsOf uid (ResetUniverseStats uid t) = Some (resetStats st) ∧
  ∀ cid src, sourceOf uid cid t = Some src →
    sourceOf uid cid (ResetUniverseStats uid t) = Some (resetSource src).
Proof.
  intros Hst.
  assert (Hst' : statsOf uid (ResetUniverseStats uid t) = Some (resetStats st)).
  { revert Hst. rewrite !statsOf_unfold. unfold ResetUniverseStats.
    destruct (universes t !! uid) as [ls|] eqn:Hls; [|done].
    intros Hst. rewrite Hst. simpl. by rewrite Hls, lookup_insert_eq. }
  split; [exact Hst'|].
  intros cid src Hsrc.
  destruct (sourceOf_Some _ _ _ _ Hsrc) as (st1 & l & Hst1 & Hl & Hm).
  assert (st1 = st) as -> by congruence.
  rewrite sourceOf_unfold, Hst'. simpl. rewrite Hl.
  revert Hst. rewrite statsOf_unfold. unfold ResetUniverseStats.
  destruct (universes t !! uid) as [ls|] eqn:Hls; [|done].
  intros Hst. rewrite Hst. simpl.
  destruct (resetFold (sourceStore t) (UniverseStats.Sources st) l) as (_ & Hin & _).
  rewrite Hin by eauto. by rewrite Hm.
Qed.

(** The slice built by [GetSources] holds the values it was given, in
    new variables; the variables that existed keep their values. *)
Lemma allocSources_read (vals : list Source.t) (mem : gmap loc Source.t) :
  let r := allocSources vals mem in
  (fun l => r.2 !! l) <$> r.1 = Some <$> vals ∧
  mem ⊆ r.2 ∧
  (∀ l, l ∈ r.1 → mem !! l = None) ∧
  (∀ l, r.2 !! l ≠ mem !! l → l ∈ r.1).
Proof.
  revert mem. induction vals as [|v vals IH]; intros mem; simpl.
  { split; [done|]. split; [done|]. split; [by intros l ?%elem_of_nil | done]. }
  set (l := fresh (dom mem)).
  assert (Hl : mem !! l = None) by (apply not_elem_of_dom, is_fresh).
  destruct (IH (<[l := v]> mem)) as (Hread & Hsub & Hnew & Hold).
  split; [|split; [|split]].
  - f_equal; [|exact Hread].
    apply (lookup_weaken _ _ _ _ (lookup_insert_eq mem l v) Hsub).
  - etrans; [|exact Hsub]. by apply insert_subseteq.
  - intros l' [->|Hin]%elem_of_cons; [done|].
    specialize (Hnew l' Hin).
    destruct (decide (l' = l)) as [->|Hne]; [by rewrite lookup_insert_eq in Hnew|].
    by rewrite lookup_insert_ne in Hnew.
  - intros l' Hdiff. destruct (decide (l' = l)) as [->|Hne]; [apply list_elem_of_here|].
    apply list_elem_of_further, Hold. by rewrite lookup_insert_ne.
Qed.

Lemma GetSources_read o uid t :
  readSources (GetSources o uid t).1 (GetSources o uid t).2 =
    Some <$> sourceValues o uid t.
Proof.
  unfold readSources, GetSources. simpl.
  apply (allocSources_read (sourceValues o uid t) (sourceStore t)).
Qed.

Lemma sourceOf_in_values o uid cid t src :
  sourceOf uid cid t = Some src → src ∈ sourceValues o uid t.
Proof.
  intros Hsrc. destruct (sourceOf_Some _ _ _ _ Hsrc) as (st & l & Hst & Hl & Hm).
  unfold sourceValues. rewrite Hst.
  apply list_elem_of_omap. exists (cid, l). split; [|done].
  rewrite (ranged_perm o). by apply elem_of_map_to_list.
Qed.

(** C9: [ResetUniverseStats] zeroes the packet and lost counters of the
    universe, empties its rate and loss windows and zeroes the packet
    and lost counters of every source of the universe; each source keeps
    its CID and name and is still returned by [GetSources]. After
    [ResetAllStats] no universe is tracked or listed. *)
Theorem Reset_keeps_identity :
  (∀ uid t st,
     statsOf uid t = Some st →
     let t' := ResetUniverseStats uid t in
     (∃ st', statsOf uid t' = Some st' ∧
        UniverseStats.PacketCount st' = 0 ∧ UniverseStats.LostPackets st' = 0 ∧
        UniverseStats.packetsInWindow st' = [] ∧ UniverseStats.lossWindow st' = [] ∧
        UniverseStats.Sources st' = UniverseStats.Sources st) ∧
     (∀ cid src, sourceOf uid cid t = Some src →
        let src' := {| Source.CID := Source.CID src;
                       Source.Name := Source.Name src;
                       Source.LastSequence := Source.LastSequence src;
                       Source.LastSeen := Source.LastSeen src;
                       Source.PacketCount := 0;
                       Source.LostPackets := 0 |} in
        sourceOf uid cid t' = Some src' ∧
        ∀ o, Some src' ∈ readSources (GetSources o uid t').1 (GetSources o uid t').2)) ∧
  (∀ t, (∀ o, GetAllUniverseIDs o (ResetAllStats t) = []) ∧
        ∀ uid, GetUniverseStats uid (ResetAllStats t) = None ∧
               ∀ o, (GetSources o uid (ResetAllStats t)).1 = []).
Proof.
  split.
  - intros uid t st Hst t'.
    destruct (ResetUniverseStats_lookup uid t st Hst) as [Hst' Hsrc'].
    split; [by eexists; split; [exact Hst'|]|].
    intros cid src Hsrc src'. specialize (Hsrc' cid src Hsrc).
    split; [exact Hsrc'|]. intros o.
    rewrite GetSources_read. apply list_elem_of_fmap_2.
    by apply (sourceOf_in_values o uid cid).
  - intros t. split.
    { intros o. unfold GetAllUniverseIDs. simpl. rewrite map_to_list_empty.
      by rewrite (proj1 (Permutation_nil_r _) (ranged_perm o [])). }
    intros uid. split; [apply lookup_empty|]. intros o.
    unfold GetSources, sourceValues. rewrite statsOf_unfold. simpl.
    by rewrite lookup_empty.
Qed.

(** Unless the source is tracked and has packets, [RecordPacket] leaves
    the lost counters of the source and of its universe as they are. *)
Lemma RecordPacket_lost_unchanged now uid cid name seq t :
  (∀ src, sourceOf uid cid t = Some src → ¬ (0 < Source.PacketCount src)) →
  let t' := RecordPacket now uid cid name seq t in
  universeLostOf uid t' = universeLostOf uid t ∧
  sourceLostOf uid cid t' = sourceLostOf uid cid t.
Proof.
  intros Hfirst t'. unfold universeLostOf, sourceLostOf.
  destruct (universes t !! uid) as [ls|] eqn:Hls.
  2:{ destruct (RecordPacket_new_universe now uid cid name seq t Hls)
        as [[sources Hst'] Hsrc'].
      subst t'. rewrite Hst', Hsrc'.
      rewrite sourceOf_unfold, statsOf_unfold, Hls. done. }
  destruct (statsStore t !! ls) as [st|] eqn:Hst.
  2:{ subst t'. unfold RecordPacket, statsFor. by rewrite Hls, Hst. }
  assert (HstOf : statsOf uid t = Some st) by (by rewrite statsOf_unfold, Hls).
  destruct (UniverseStats.Sources st !! cid) as [l|] eqn:Hl.
  2:{ pose proof (RecordPacket_lookup now uid cid name seq t) as H.
      assert (Hnone : sourceOf uid cid t = None)
        by (by rewrite sourceOf_unfold, HstOf, Hl).
      rewrite HstOf, Hnone in H. simpl in H. rewrite Hl in H.
      destruct H as [[sources Hst'] Hsrc']; [right; eauto | done |].
      subst t'. rewrite Hst', Hsrc', HstOf, Hnone. done. }
  destruct (sourceStore t !! l) as [src|] eqn:Hm.
  2:{ subst t'. unfold RecordPacket, statsFor, sourceFor.
      by rewrite Hls, Hst, Hl, Hm. }
  assert (HsrcOf : sourceOf uid cid t = Some src)
    by (by rewrite sourceOf_unfold, HstOf, Hl).
  destruct (RecordPacket_known now uid cid name seq t st src HstOf HsrcOf)
    as [[sources Hst'] Hsrc'].
  rewrite checkLoss_first in Hst', Hsrc' by (right; by apply Hfirst).
  subst t'. rewrite Hst', Hsrc', HstOf, HsrcOf. done.
Qed.

(** C10: [RecordPacket] adds no loss when the source is new or its
    packet count is zero, which is the case for the first packet of a
    known source after [ResetUniverseStats], whatever last sequence the
    source still carries; so a lost counter changes only in a call in
    which the source had a positive packet count. *)
Theorem RecordPacket_first_no_loss :
  (∀ now uid cid name seq t,
     (sourceOf uid cid t = None ∨
      ∃ src, sourceOf uid cid t = Some src ∧ Source.PacketCount src = 0) →
     let t' := RecordPacket now uid cid name seq t in
     universeLostOf uid t' = universeLostOf uid t ∧
     sourceLostOf uid cid t' = sourceLostOf uid cid t) ∧
  (∀ now uid cid name seq t src,
     sourceOf uid cid t = Some src →
     let t' := RecordPacket now uid cid name seq (ResetUniverseStats uid t) in
     universeLostOf uid t' = 0 ∧ sourceLostOf uid cid t' = 0 ∧
     ∃ src', sourceOf uid cid t' = Some src' ∧
             Source.LastSequence src' = seq ∧ Source.PacketCount src' = 1) ∧
  (∀ now uid cid name seq t,
     let t' := RecordPacket now uid cid name seq t in
     universeLostOf uid t' ≠ universeLostOf uid t ∨
     sourceLostOf uid cid t' ≠ sourceLostOf uid cid t →
     ∃ src, sourceOf uid cid t = Some src ∧ 0 < Source.PacketCount src).
Proof.
  split; [|split].
  - intros now uid cid name seq t Hz. apply RecordPacket_lost_unchanged.
    intros src Hsrc. destruct Hz as [Hn | (src0 & Hs0 & Hpc)]; [congruence|].
    assert (src0 = src) as -> by congruence. lia.
  - intros now uid cid name seq t src Hsrc t'.
    destruct (sourceOf_Some _ _ _ _ Hsrc) as (st & l & Hst & _).
    destruct (ResetUniverseStats_lookup uid t st Hst) as [Hst0 Hsrc0].
    specialize (Hsrc0 cid src Hsrc).
    destruct (RecordPacket_known now uid cid name seq _ _ _ Hst0 Hsrc0)
      as [[sources Hst'] Hsrc'].
    rewrite checkLoss_first in Hst', Hsrc' by (right; simpl; lia).
    unfold universeLostOf, sourceLostOf. subst t'. rewrite Hst', Hsrc'.
    split; [done|]. split; [done|]. eexists. split; [done|]. done.
  - intros now uid cid name seq t t' Hchg.
    destruct (sourceOf uid cid t) as [src|] eqn:Hsrc.
    + destruct (decide (0 < Source.PacketCount src)) as [Hpos|Hnpos]; [eauto|].
      destruct (RecordPacket_lost_unchanged now uid cid name seq t) as [Hu Hs].
      { intros src0 Hs0. assert (src0 = src) as -> by congruence. done. }
      unfold sourceLostOf in Hchg, Hs. rewrite Hsrc in Hchg, Hs.
      destruct Hchg; done.
    + destruct (RecordPacket_lost_unchanged now uid cid name seq t) as [Hu Hs].
      { intros src0 Hs0. congruence. }
      unfold sourceLostOf in Hchg, Hs. rewrite Hsrc in Hchg, Hs.
      destruct Hchg; done.
Qed.

Lemma is_Some_insert {A} (m : gmap loc A) (l k : loc) (v : A) :
  is_Some (m !! k) → is_Some (<[l := v]> m !! k).
Proof.
  intros H. destruct (decide (l = k)) as [->|Hne].
  - rewrite lookup_insert_eq. eauto.
  - by rewrite lookup_insert_ne.
Qed.

Lemma wf_NewTracker : wf NewTracker.
Proof. intros id ls H. simpl in H. by rewrite lookup_empty in H. Qed.

(** Storing, behind a pointer that the tracker holds or has just
    obtained, a [UniverseStats] whose sources are all allocated keeps
    the tracker well formed; the store of sources may have grown. *)
Lemma wf_store (t : Tracker) (us : gmap Z loc) (ls : loc) (st' : UniverseStats.t)
    (ss : gmap loc UniverseStats.t) (mem' : gmap loc Source.t) :
  wf t →
  ss !! ls = Some st' →
  (∀ l, l ≠ ls → ss !! l = statsStore t !! l) →
  (∀ id ls0, us !! id = Some ls0 → ls0 = ls ∨ universes t !! id = Some ls0) →
  (∀ l, is_Some (sourceStore t !! l) → is_Some (mem' !! l)) →
  (∀ cid l, UniverseStats.Sources st' !! cid = Some l → is_Some (mem' !! l)) →
  wf {| universes := us; rateWindow := rateWindow t;
        statsStore := ss; sourceStore := mem' |}.
Proof.
  intros Hwf Hls Hother Hus Hgrow Hsrc id ls0 Hid. simpl in *.
  destruct (decide (ls0 = ls)) as [->|Hne].
  - exists st'. split; [done|]. exact Hsrc.
  - destruct (Hus id ls0 Hid) as [|Hold]; [done|].
    destruct (Hwf id ls0 Hold) as (st0 & Hst0 & Hall).
    exists st0. split; [by rewrite Hother|].
    intros cid l Hl. apply Hgrow. by apply (Hall cid).
Qed.

Lemma wf_RecordPacket now uid cid name seq t :
  wf t → wf (RecordPacket now uid cid name seq t).
Proof.
  intros Hwf. unfold RecordPacket, statsFor.
  destruct (universes t !! uid) as [ls|] eqn:Hls.
  - destruct (Hwf uid ls Hls) as (st & Hst & Hall). rewrite Hst.
    unfold sourceFor.
    destruct (UniverseStats.Sources st !! cid) as [l|] eqn:Hl.
    + destruct (Hall cid l Hl) as [src Hsrc]. rewrite Hsrc.
      eapply (wf_store t _ ls); [done | apply lookup_insert_eq | | | |].
      * intros l0 Hne. by apply lookup_insert_ne.
      * intros id ls0 Hid. by right.
      * intros l0. apply is_Some_insert.
      * simpl. intros cid0 l0 Hl0. apply is_Some_insert. by apply (Hall cid0).
    + rewrite lookup_insert_eq.
      eapply (wf_store t _ ls); [done | apply lookup_insert_eq | | | |].
      * intros l0 Hne. by apply lookup_insert_ne.
      * intros id ls0 Hid. by right.
      * intros l0 H0. by do 2 apply is_Some_insert.
      * simpl. intros cid0 l0 Hl0.
        destruct (decide (cid0 = cid)) as [->|Hne].
        -- rewrite lookup_insert_eq in Hl0. injection Hl0 as <-.
           rewrite lookup_insert_eq. eauto.
        -- rewrite lookup_insert_ne in Hl0 by done.
           do 2 apply is_Some_insert. by apply (Hall cid0).
  - simpl. rewrite lookup_insert_eq. unfold sourceFor. simpl.
    rewrite lookup_empty, lookup_insert_eq.
    eapply (wf_store t _ (fresh (dom (statsStore t))));
      [done | apply lookup_insert_eq | | | |].
    + intros l0 Hne. by rewrite !lookup_insert_ne.
    + intros id ls0 Hid. destruct (decide (id = uid)) as [->|Hne].
      * rewrite lookup_insert_eq in Hid. left. congruence.
      * rewrite lookup_insert_ne in Hid by done. by right.
    + intros l0 H0. by do 2 apply is_Some_insert.
    + simpl. intros cid0 l0 Hl0.
      destruct (decide (cid0 = cid)) as [->|Hne].
      * rewrite lookup_insert_eq in Hl0. injection Hl0 as <-.
        rewrite lookup_insert_eq. eauto.
      * rewrite lookup_insert_ne in Hl0 by done. by rewrite lookup_empty in Hl0.
Qed.
Lemma RecordPacket_restart_witness :
  let t := RecordPacket 1000 1 sampleCID "desk" 100 NewTracker in
  let t' := RecordPacket 2000 1 sampleCID "desk" 50 t in
  sourceOf 1 sampleCID t' =
    Some {| Source.CID := sampleCID; Source.Name := "desk";
            Source.LastSequence := 50; Source.LastSeen := 2000;
            Source.PacketCount := 2; Source.LostPackets := 0 |}.
Proof.
  intros t t'.
  destruct (proj1 RecordPacket_restart 2000 1 sampleCID "desk"%string 50 t _ _
              eq_refl eq_refl) as [_ H].
  - lia.
  - simpl. lia.
  - vm_compute. intros H. discriminate H.
  - exact H.
Defined.

Lemma RecordPacket_gap_witness :
  let t := RecordPacket 1000 1 sampleCID "desk" 0 NewTracker in
  let t' := RecordPacket 2000 1 sampleCID "desk" 5 t in
  ∃ st' src', statsOf 1 t' = Some st' ∧ sourceOf 1 sampleCID t' = Some src' ∧
              UniverseStats.LostPackets st' = 4 ∧ Source.LostPackets src' = 4.
Proof.
  intros t t'.
  destruct (proj1 RecordPacket_gap 2000 1 sampleCID "desk"%string 5 t _ _
              eq_refl eq_refl) as (st' & src' & Hst & Hsrc & _ & _ & Hadd).
  - lia.
  - simpl. lia.
  - vm_compute. reflexivity.
  - exists st', src'. split; [exact Hst|]. split; [exact Hsrc|].
    destruct Hadd as (Hu & Hs & _).
    + vm_compute. intros H. discriminate H.
    + vm_compute. reflexivity.
    + split; [exact Hu | exact Hs].
Defined.

Lemma Reset_keeps_identity_witness :
  let t := RecordPacket 2000 1 sampleCID "desk" 5
             (RecordPacket 1000 1 sampleCID "desk" 0 NewTracker) in
  sourceOf 1 sampleCID (ResetUniverseStats 1 t) =
    Some {| Source.CID := sampleCID; Source.Name := "desk";
            Source.LastSequence := 5; Source.LastSeen := 2000;
            Source.PacketCount := 0; Source.LostPackets := 0 |}.
Proof.
  intros t.
  destruct (proj1 Reset_keeps_identity 1 t _ eq_refl) as [_ H].
  exact (proj1 (H sampleCID _ eq_refl)).
Defined.

Lemma RecordPacket_first_no_loss_witness :
  let t := ResetUniverseStats 1
             (RecordPacket 2000 1 sampleCID "desk" 5
                (RecordPacket 1000 1 sampleCID "desk" 0 NewTracker)) in
  let t' := RecordPacket 3000 1 sampleCID "desk" 200 t in
  universeLostOf 1 t' = universeLostOf 1 t ∧
  sourceLostOf 1 sampleCID t' = sourceLostOf 1 sampleCID t.
Proof.
  intros t t'.
  apply (proj1 RecordPacket_first_no_loss 3000 1 sampleCID "desk"%string 200 t).
  right. eexists. split; reflexivity.
Defined.

End TrackerFacts.

(** ** What the queries return *)

Section QueryFacts.

(** The slice returned by [GetAll] holds exactly the pointers of the map. *)
Lemma GetAll_elem (m : Universe.Manager) (l : loc) :
  l ∈ Universe.GetAll m ↔ ∃ id, Universe.Get id m = Some l.
Proof.
  unfold Universe.GetAll, Universe.Get.
  rewrite merge_sort_Permutation, list_elem_of_fmap. split.
  - intros ([id l'] & -> & Hin). exists id. by apply elem_of_map_to_list.
  - intros [id Hid]. exists (id, l). split; [done|]. by apply elem_of_map_to_list.
Qed.

Lemma omap_ext_in {A B} (f g : A → option B) (l : list A) :
  (∀ x, x ∈ l → f x = g x) → omap f l = omap g l.
Proof.
  induction l as [|x l IH]; intros H; csimpl; [done|].
  rewrite (H x) by apply list_elem_of_here.
  rewrite IH; [done|]. intros y Hy. apply H. by apply list_elem_of_further.
Qed.

(** Two loops over the entries of the same map visit the same entries,
    in whatever orders. *)
Lemma GetAllUniverseIDs_perm o1 o2 (t t2 : Stats.Tracker) :
  Stats.universes t2 = Stats.universes t →
  Stats.GetAllUniverseIDs o1 t2 ≡ₚ Stats.GetAllUniverseIDs o2 t.
Proof.
  intros H. unfold Stats.GetAllUniverseIDs. rewrite H.
  apply fmap_Permutation. by rewrite !ranged_perm.
Qed.

(** Every rearrangement of the entries is the order of some loop. *)
Lemma ranged_any {K V} `{EqDecision K, EqDecision V} (entries entries' : list (K * V)) :
  entries' ≡ₚ entries → ∃ o : RangeOrder K V, ranged o entries = entries'.
Proof.
  intros Hp.
  unshelve eexists
    {| ranged := fun l => if decide (l = entries) then entries' else l |}.
  - intros l. simpl. by destruct (decide (l = entries)) as [->|].
  - simpl. by rewrite decide_True.
Qed.

Lemma omap_perm {A B} (f : A → option B) (l l' : list A) :
  l ≡ₚ l' → omap f l ≡ₚ omap f l'.
Proof.
  induction 1 as [|x l l' _ IH|x y l|l l' l'' _ IH1 _ IH2]; csimpl.
  - done.
  - destruct (f x); csimpl; [by constructor | done].
  - destruct (f x), (f y); csimpl; try done. apply perm_swap.
  - by etrans.
Qed.

Lemma sourceValues_perm o1 o2 uid (t : Stats.Tracker) :
  Stats.sourceValues o1 uid t ≡ₚ Stats.sourceValues o2 uid t.
Proof.
  unfold Stats.sourceValues. destruct (Stats.statsOf uid t) as [st|]; [|done].
  apply omap_perm. by rewrite !ranged_perm.
Qed.

(** Assignments to variables that the tracker holds no pointer to do
    not change what its queries read. *)
Lemma assignedOnly_queries (elems : list loc) (t t1 t2 : Stats.Tracker) :
  Stats.wf t →
  Stats.universes t1 = Stats.universes t →
  Stats.rateWindow t1 = Stats.rateWindow t →
  Stats.statsStore t1 = Stats.statsStore t →
  Stats.sourceStore t ⊆ Stats.sourceStore t1 →
  (∀ l, l ∈ elems → Stats.sourceStore t !! l = None) →
  Stats.assignedOnly elems t1 t2 →
  Stats.universes t2 = Stats.universes t ∧
  Stats.rateWindow t2 = Stats.rateWindow t ∧
  ∀ uid, Stats.GetUniverseStats uid t2 = Stats.GetUniverseStats uid t ∧
         Stats.statsOf uid t2 = Stats.statsOf uid t ∧
         (∀ o, Stats.sourceValues o uid t2 = Stats.sourceValues o uid t) ∧
         ∀ cid, Stats.sourceOf uid cid t2 = Stats.sourceOf uid cid t.
Proof.
  intros Hwf Hu1 Hr1 Hs1 Hsub Hnew (Hu2 & Hr2 & Hs2 & Hout).
  assert (Hkeep : ∀ l, is_Some (Stats.sourceStore t !! l) →
            Stats.sourceStore t2 !! l = Stats.sourceStore t !! l).
  { intros l [x Hx]. rewrite Hout.
    - rewrite Hx. apply (lookup_weaken _ _ _ _ Hx Hsub).
    - intros Hin. rewrite (Hnew l Hin) in Hx. done. }
  assert (Hstats : ∀ uid, Stats.statsOf uid t2 = Stats.statsOf uid t).
  { intros uid. unfold Stats.statsOf, Stats.GetUniverseStats.
    by rewrite Hu2, Hu1, Hs2, Hs1. }
  assert (Hall : ∀ uid st cid l, Stats.statsOf uid t = Some st →
            Stats.UniverseStats.Sources st !! cid = Some l →
            Stats.sourceStore t2 !! l = Stats.sourceStore t !! l).
  { intros uid st cid l Hst Hl. apply Hkeep.
    rewrite statsOf_unfold in Hst.
    destruct (Stats.universes t !! uid) as [ls|] eqn:Hls; [|done].
    destruct (Hwf uid ls Hls) as (st0 & Hst0 & Hal).
    assert (st0 = st) as -> by congruence. by apply (Hal cid). }
  split; [by rewrite Hu2, Hu1|]. split; [by rewrite Hr2, Hr1|].
  intros uid. split; [|split; [|split]].
  - unfold Stats.GetUniverseStats. by rewrite Hu2, Hu1.
  - apply Hstats.
  - intros o. unfold Stats.sourceValues. rewrite Hstats.
    destruct (Stats.statsOf uid t) as [st|] eqn:Hst; [|done].
    apply omap_ext_in. intros [cid l] Hin. simpl.
    rewrite (ranged_perm o) in Hin. apply elem_of_map_to_list in Hin.
    by apply (Hall uid st cid).
  - intros cid. rewrite !sourceOf_unfold, Hstats.
    destruct (Stats.statsOf uid t) as [st|] eqn:Hst; [|done].
    destruct (Stats.UniverseStats.Sources st !! cid) as [l|] eqn:Hl; [|done].
    by apply (Hall uid st cid).
Qed.

Lemma RecordPacket_universes now uid cid name seq (t : Stats.Tracker) l :
  Stats.universes t !! uid = Some l →
  Stats.universes (Stats.RecordPacket now uid cid name seq t) = Stats.universes t.
Proof.
  intros Hl. unfold Stats.RecordPacket, Stats.statsFor. rewrite Hl.
  destruct (Stats.statsStore t !! l) as [st|]; [|done].
  destruct (Stats.sourceFor cid name (Stats.UniverseStats.Sources st)
              (Stats.sourceStore t)) as [[[source ex] sources] mem].
  by destruct (mem !! source).
Qed.

(** C3, as the code has it. Two kinds of query hand out pointers of
    the core: [Manager.Get] and [Manager.GetAll] (and
    [GetActiveUniverses]) return the pointers that the map of the
    manager holds, [GetAll] exactly these in a new slice, and
    [Tracker.GetUniverseStats] returns the pointer that the map of the
    tracker holds. An assignment through such a pointer is read by the
    following queries, and the [UniverseStats] behind a pointer
    obtained earlier changes when a packet is recorded.

    The other queries return copies. What [GetInfo], [GetChannel],
    [GetAllChannels], [ActiveChannelCount] and [Count] return is a
    value, held in a variable of the caller: assignments to variables
    that the manager holds no pointer to change the result of no query
    of the manager. [Tracker.GetSources] returns new variables that
    hold the values of the sources, in the order of its loop, and
    assignments to them change the result of no following query of the
    tracker: [GetUniverseStats], [GetSources] and [GetAllUniverseIDs]
    up to the order of their loops, the lost counters, and the counts
    and totals from which the rate and the recent loss are computed. *)
Theorem queries_pointers_and_copies :
  (∀ (m : Universe.Manager) l,
     l ∈ Universe.GetAll m ↔ ∃ id, Universe.Get id m = Some l) ∧
  (∀ clock timeout (m : Universe.Manager) l,
     l ∈ Universe.GetActiveUniverses clock timeout m →
     ∃ id, Universe.Get id m = Some l) ∧
  (∀ (m : Universe.Manager) id l,
     Universe.Get id m = Some l →
     ∀ f, Universe.Get id (Universe.poke l f m) = Some l ∧
          l ∈ Universe.GetAll (Universe.poke l f m) ∧
          Universe.deref (Universe.poke l f m) l = f <$> Universe.deref m l) ∧
  (∀ (t : Stats.Tracker) uid l,
     Stats.GetUniverseStats uid t = Some l →
     (∀ f, Stats.GetUniverseStats uid (Stats.pokeStats l f t) = Some l ∧
           Stats.statsOf uid (Stats.pokeStats l f t) = f <$> Stats.statsOf uid t) ∧
     (∀ now cid name seq,
        Stats.wf t →
        let t' := Stats.RecordPacket now uid cid name seq t in
        Stats.GetUniverseStats uid t' = Some l ∧
        ∃ st', Stats.statsStore t' !! l = Some st' ∧
               Stats.UniverseStats.LastPacket st' = now)) ∧
  (∀ (m : Universe.Manager) elems m2,
     (∀ id l, Universe.Get id m = Some l → l ∉ elems) →
     Universe.assignedOnly elems m m2 →
     Universe.Count m2 = Universe.Count m ∧
     (∀ l, l ∈ Universe.GetAll m2 ↔ l ∈ Universe.GetAll m) ∧
     ∀ id l, Universe.Get id m = Some l →
       Universe.Get id m2 = Some l ∧
       Universe.GetInfo <$> Universe.deref m2 l =
         Universe.GetInfo <$> Universe.deref m l ∧
       Universe.GetAllChannels <$> Universe.deref m2 l =
         Universe.GetAllChannels <$> Universe.deref m l ∧
       Universe.ActiveChannelCount <$> Universe.deref m2 l =
         Universe.ActiveChannelCount <$> Universe.deref m l ∧
       ∀ index, Universe.GetChannel index <$> Universe.deref m2 l =
                Universe.GetChannel index <$> Universe.deref m l) ∧
  (∀ (t : Stats.Tracker) o uid,
     Stats.wf t →
     let r := Stats.GetSources o uid t in
     Stats.readSources r.1 r.2 = Some <$> Stats.sourceValues o uid t ∧
     (∀ l, l ∈ r.1 → Stats.sourceStore t !! l = None) ∧
     ∀ t2, Stats.assignedOnly r.1 r.2 t2 →
       (∀ o1 o2, Stats.GetAllUniverseIDs o1 t2 ≡ₚ Stats.GetAllUniverseIDs o2 t) ∧
       ∀ uid', Stats.GetUniverseStats uid' t2 = Stats.GetUniverseStats uid' t ∧
               Stats.statsOf uid' t2 = Stats.statsOf uid' t ∧
               (∀ o1 o2, Stats.sourceValues o1 uid' t2 ≡ₚ Stats.sourceValues o2 uid' t) ∧
               (∀ cid, Stats.sourceOf uid' cid t2 = Stats.sourceOf uid' cid t) ∧
               Stats.universeLostOf uid' t2 = Stats.universeLostOf uid' t ∧
               (∀ cid, Stats.sourceLostOf uid' cid t2 = Stats.sourceLostOf uid' cid t) ∧
               ∀ now,
                 StatsLoops.packetRateCount now uid' t2 =
                   StatsLoops.packetRateCount now uid' t ∧
                 StatsLoops.recentLossTotals now uid' t2 =
                   StatsLoops.recentLossTotals now uid' t).
Proof.
  split; [|split; [|split; [|split; [|split]]]].
  - apply GetAll_elem.
  - intros clock timeout m l. unfold Universe.GetActiveUniverses, Universe.Get.
    rewrite merge_sort_Permutation, list_elem_of_fmap.
    intros ([id l'] & -> & Hin). apply list_elem_of_filter in Hin as [_ Hin].
    exists id. by apply elem_of_map_to_list.
  - intros m id l Hl f. split; [done|]. split.
    + apply GetAll_elem. by exists id.
    + unfold Universe.deref, Universe.poke. simpl. apply lookup_alter_eq.
  - intros t uid l Hl. split.
    + intros f. split; [done|].
      unfold Stats.statsOf, Stats.pokeStats, Stats.GetUniverseStats in *. simpl.
      rewrite Hl. simpl. apply lookup_alter_eq.
    + intros now cid name seq Hwf t'.
      unfold Stats.GetUniverseStats in Hl.
      destruct (Hwf uid l Hl) as (st & Hst & Hall).
      assert (HstOf : Stats.statsOf uid t = Some st)
        by (by rewrite statsOf_unfold, Hl).
      assert (Hl' : Stats.GetUniverseStats uid t' = Some l).
      { unfold Stats.GetUniverseStats. subst t'.
        by rewrite (RecordPacket_universes _ _ _ _ _ _ l). }
      split; [exact Hl'|].
      pose proof (RecordPacket_lookup now uid cid name seq t) as H.
      rewrite HstOf in H. simpl in H.
      destruct H as [[sources Hst'] _]; [right; eauto | by apply Hall |].
      fold t' in Hst'. unfold Stats.statsOf in Hst'. rewrite Hl' in Hst'. simpl in Hst'.
      eexists. split; [exact Hst'|done].
  - intros m elems m2 Hout [Hu Hst].
    split; [by unfold Universe.Count; rewrite Hu|]. split.
    + intros l. rewrite !GetAll_elem. unfold Universe.Get. by rewrite Hu.
    + intros id l Hl. unfold Universe.Get, Universe.deref in *.
      rewrite Hu, (Hst l (Hout id l Hl)). done.
  - intros t o uid Hwf r.
    destruct (allocSources_read (Stats.sourceValues o uid t) (Stats.sourceStore t))
      as (Hread & Hsub & Hnew & _).
    split; [apply GetSources_read|]. split; [exact Hnew|].
    intros t2 Hassigned.
    destruct (assignedOnly_queries r.1 t r.2 t2) as (Hu & Hrw & Hq); try done.
    split; [intros o1 o2; by apply GetAllUniverseIDs_perm|].
    intros uid'. destruct (Hq uid') as (Hptr & Hstats & Hvals & Hsrc).
    split; [exact Hptr|]. split; [exact Hstats|]. split.
    { intros o1 o2. rewrite (Hvals o1). apply sourceValues_perm. }
    split; [exact Hsrc|]. split.
    { unfold Stats.universeLostOf. by rewrite Hstats. }
    split.
    { intros cid. unfold Stats.sourceLostOf. by rewrite Hsrc. }
    intros now. unfold StatsLoops.packetRateCount, StatsLoops.recentLossTotals.
    by rewrite Hstats, Hrw.
Qed.

Lemma queries_pointers_and_copies_witness :
  let t := Stats.RecordPacket 1000 1 Stats.sampleCID "desk" 0 Stats.NewTracker in
  let r := Stats.GetSources storedOrder 1 t in
  let t2 := Stats.pokeSource 2%positive (Stats.setName "changed") r.2 in
  r.1 = [2%positive] ∧
  Stats.sourceOf 1 Stats.sampleCID t2 = Stats.sourceOf 1 Stats.sampleCID t ∧
  Stats.sourceValues reversedOrder 1 t2 ≡ₚ Stats.sourceValues storedOrder 1 t.
Proof.
  intros t r t2.
  assert (Hr : r.1 = [2%positive]) by (vm_compute; reflexivity).
  split; [exact Hr|].
  destruct queries_pointers_and_copies as (_ & _ & _ & _ & _ & Hcopy).
  destruct (Hcopy t storedOrder 1) as (_ & _ & Hiso).
  { apply wf_RecordPacket, wf_NewTracker. }
  destruct (Hiso t2) as [_ Hq].
  { split; [reflexivity|]. split; [reflexivity|]. split; [reflexivity|].
    intros l Hl. apply lookup_alter_ne. intros <-. apply Hl.
    fold r. rewrite Hr. apply list_elem_of_here. }
  destruct (Hq 1) as (_ & _ & Hvals & Hsrc & _).
  split; [apply Hsrc | apply Hvals].
Defined.

(** C3 as stated fails: the pointer that [GetAll] returns for a universe
    is the one the manager holds, so an assignment through it changes
    what [GetInfo] reports next; and an assignment through the pointer
    returned by [GetUniverseStats] changes the lost count read next. *)
Lemma queries_return_copies_counterexample :
  (let m := (Universe.GetOrCreate 1 Universe.NewManager).2 in
   ∃ l, Universe.GetAll m = [l] ∧
        let m' := Universe.poke l (Universe.setPacketCount 7) m in
        Universe.GetInfo <$> (Universe.Get 1 m' ≫= Universe.deref m') ≠
        Universe.GetInfo <$> (Universe.Get 1 m ≫= Universe.deref m)) ∧
  (let t := Stats.RecordPacket 1000 1 Stats.sampleCID "desk" 0 Stats.NewTracker in
   ∃ l, Stats.GetUniverseStats 1 t = Some l ∧
        let t' := Stats.pokeStats l (Stats.setLostPackets 99) t in
        Stats.universeLostOf 1 t' ≠ Stats.universeLostOf 1 t).
Proof.
  split.
  - eexists. split; [vm_compute; reflexivity|].
    vm_compute. intros H. discriminate H.
  - eexists. split; [vm_compute; reflexivity|].
    vm_compute. intros H. discriminate H.
Qed.
End QueryFacts.

(** ** More on the parser *)

Section ParserMore.
Import Sacn.

(** The packet that [Parse] builds from an accepted buffer. *)
Lemma Parse_inr_fields now data p :
  Parse now data = inr p →
  p = {| CID := slice data 22 38;
         SourceName := sourceNameOf (slice data 44 108);
         Priority := byte_val (at_ data 108);
         Sequence := byte_val (at_ data 111);
         Universe := Uint16 (slice data 113 115);
         StartCode := byte_val (at_ data 125);
         ChannelData := channelDataOf data;
         SourceAddr := None;
         ReceivedAt := now |}.
Proof.
  unfold Parse.
  repeat (match goal with |- (if ?c then _ else _) = _ → _ => destruct c end; [done|]).
  by intros [= <-].
Qed.

Lemma byte_val_range (b : byte) : 0 ≤ byte_val b < 256.
Proof.
  unfold byte_val. pose proof (Byte.to_N_bounded b). lia.
Qed.

(** Two bytes joined with [lor] and a shift are a number in base 256. *)
Lemma lor_shiftl_8 (lo hi : Z) :
  0 ≤ lo < 256 → 0 ≤ hi → Z.lor lo (Z.shiftl hi 8) = lo + 256 * hi.
Proof.
  intros Hlo Hhi. rewrite Z.shiftl_mul_pow2 by lia.
  rewrite <- Z.lxor_lor.
  - rewrite <- Z.add_nocarry_lxor; [lia|].
    apply Z.bits_inj'. intros n Hn. rewrite Z.land_spec, Z.bits_0.
    destruct (Z.lt_ge_cases n 8) as [Hlt|Hge].
    + rewrite (Z.mul_pow2_bits_low hi 8 n) by lia. apply andb_false_r.
    + rewrite (Z.bits_above_log2 lo n); [done | lia |].
      destruct (Z.eq_dec lo 0) as [->|Hne]; [simpl; lia|].
      apply Z.lt_le_trans with 8; [|done].
      apply Z.log2_lt_pow2; lia.
  - apply Z.bits_inj'. intros n Hn. rewrite Z.land_spec, Z.bits_0.
    destruct (Z.lt_ge_cases n 8) as [Hlt|Hge].
    + rewrite (Z.mul_pow2_bits_low hi 8 n) by lia. apply andb_false_r.
    + rewrite (Z.bits_above_log2 lo n); [done | lia |].
      destruct (Z.eq_dec lo 0) as [->|Hne]; [simpl; lia|].
      apply Z.lt_le_trans with 8; [|done].
      apply Z.log2_lt_pow2; lia.
Qed.

Lemma Uint16_value (b : list byte) :
  Uint16 b = 256 * byte_val (at_ b 0) + byte_val (at_ b 1).
Proof.
  unfold Uint16. rewrite lor_shiftl_8; [lia | apply byte_val_range |].
  pose proof (byte_val_range (at_ b 0)). lia.
Qed.

(** [IndexByte] returns the position of the first occurrence. *)
Lemma IndexByte_found (b : list byte) (c : byte) :
  0 ≤ IndexByte b c →
  b !! Z.to_nat (IndexByte b c) = Some c ∧ c ∉ take (Z.to_nat (IndexByte b c)) b.
Proof.
  induction b as [|x r IH]; simpl; [lia|].
  case_bool_decide as Hx.
  - intros _. subst x. split; [done|]. simpl. apply not_elem_of_nil.
  - destruct (IndexByte r c <? 0) eqn:E; [lia|]. intros _.
    apply Z.ltb_ge in E. destruct (IH E) as [Hl Hn].
    replace (Z.to_nat (IndexByte r c + 1)) with (S (Z.to_nat (IndexByte r c))) by lia.
    simpl. split; [done|]. apply not_elem_of_cons. split; [congruence|done].
Qed.

Lemma IndexByte_none (b : list byte) (c : byte) :
  IndexByte b c < 0 → c ∉ b.
Proof.
  induction b as [|x r IH]; simpl; [intros _; apply not_elem_of_nil|].
  case_bool_decide as Hx; [lia|].
  destruct (IndexByte r c <? 0) eqn:E.
  - intros _. apply Z.ltb_lt in E. apply not_elem_of_cons. split; [congruence|auto].
  - apply Z.ltb_ge in E. lia.
Qed.

(** The name read from a field is a prefix of the field without a zero
    byte in it. *)
Lemma sourceNameOf_prefix (field : list byte) :
  ∃ k, list_byte_of_string (sourceNameOf field) = take k field ∧
       x00 ∉ take k field.
Proof.
  unfold sourceNameOf.
  destruct (0 <? IndexByte field x00) eqn:E1.
  - apply Z.ltb_lt in E1. exists (Z.to_nat (IndexByte field x00)).
    rewrite list_byte_of_string_of_list_byte. split; [done|].
    apply IndexByte_found. lia.
  - destruct (IndexByte field x00 <? 0) eqn:E2.
    + apply Z.ltb_lt in E2. exists (length field).
      rewrite list_byte_of_string_of_list_byte, take_ge by done.
      split; [done|]. by apply IndexByte_none.
    + exists 0%nat. split; [done|]. rewrite take_0. apply not_elem_of_nil.
Qed.

(** X1: [Parse] accepts a buffer exactly when it holds at least 126 bytes
    and passes the five header checks; nothing else in the buffer is looked
    at to accept or reject it. *)
Theorem Parse_accepts_iff (now : Time) (data : list byte) :
  (∃ p, Parse now data = inr p) ↔ (126 ≤ length data)%nat ∧ header_ok data.
Proof.
  split.
  - intros [p Hp]. apply Parse_inr in Hp as (Hlen & Hok & _). done.
  - intros [Hlen Hok]. by apply Parse_header_ok.
Qed.

(** X2: on a buffer of at least 126 bytes the checks are made in the order
    preamble, ACN identifier, root vector, framing vector, DMP vector, and
    the first one that fails decides the error and its offset. *)
Theorem Parse_first_failure (now : Time) (data : list byte) :
  (126 ≤ length data)%nat →
  (¬ (at_ data 0 = x00 ∧ at_ data 1 = x10) →
     Parse now data = inl (NewParseError "invalid preamble size" 0)) ∧
  (at_ data 0 = x00 ∧ at_ data 1 = x10 →
   (slice data 4 16 ≠ ACNPacketIdentifier →
      Parse now data = inl (NewParseError "invalid ACN packet identifier" 4)) ∧
   (slice data 4 16 = ACNPacketIdentifier →
    (Uint32 (slice data 18 22) ≠ E131RootVector →
       Parse now data = inl (NewParseError "invalid root vector" 18)) ∧
    (Uint32 (slice data 18 22) = E131RootVector →
     (Uint32 (slice data 40 44) ≠ E131FramingVector →
        Parse now data = inl (NewParseError "invalid framing vector" 40)) ∧
     (Uint32 (slice data 40 44) = E131FramingVector →
      at_ data 117 ≠ E131DMPVector →
        Parse now data = inl (NewParseError "invalid DMP vector" 117))))).
Proof.
  intros Hlen. unfold Parse, Equal, E131HeaderSize.
  rewrite (proj2 (Nat.ltb_ge _ _) Hlen).
  split.
  { intros Hpre.
    destruct (bool_decide (at_ data 0 = x00)) eqn:E0;
      destruct (bool_decide (at_ data 1 = x10)) eqn:E1; simpl; try done.
    apply bool_decide_eq_true in E0, E1. tauto. }
  intros [H0 H1]. rewrite !bool_decide_eq_true_2 by done. simpl.
  split.
  { intros Hid. by rewrite bool_decide_eq_false_2. }
  intros Hid. rewrite bool_decide_eq_true_2 by done. simpl.
  split.
  { intros Hr. by rewrite (proj2 (Z.eqb_neq _ _) Hr). }
  intros Hr. rewrite (proj2 (Z.eqb_eq _ _) Hr). simpl.
  split.
  { intros Hf. by rewrite (proj2 (Z.eqb_neq _ _) Hf). }
  intros Hf Hd. rewrite (proj2 (Z.eqb_eq _ _) Hf). simpl.
  by rewrite bool_decide_eq_false_2.
Qed.

Lemma Parse_first_failure_witness :
  Parse 0 (<[21%nat := xff]> (sample_packet [x00])) =
    inl (NewParseError "invalid root vector" 18).
Proof.
  destruct (Parse_first_failure 0 (<[21%nat := xff]> (sample_packet [x00])))
    as (_ & Hrest).
  { vm_compute. lia. }
  destruct Hrest as (_ & Hrest); [split; reflexivity|].
  destruct Hrest as (Hroot & _); [reflexivity|].
  apply Hroot. vm_compute. intros H. discriminate H.
Defined.

(** X3: the fields of a decoded packet are within the ranges of their
    types: 16 bytes of CID, one-byte priority, sequence and start code,
    a universe below 65536 that is the big-endian value of bytes 113 and 114,
    at most 512 channel bytes, and a name of at most 64 bytes none of which
    is zero. *)
Theorem Parse_field_ranges (now : Time) (data : list byte) (p : Packet) :
  Parse now data = inr p →
  length (CID p) = 16%nat ∧
  (∀ j, (j < 16)%nat → CID p !! j = data !! (22 + j)%nat) ∧
  0 ≤ Priority p < 256 ∧ 0 ≤ Sequence p < 256 ∧ 0 ≤ StartCode p < 256 ∧
  Universe p = 256 * byte_val (at_ data 113) + byte_val (at_ data 114) ∧
  0 ≤ Universe p < 65536 ∧
  0 ≤ ChannelCount p ≤ 512 ∧
  (length (list_byte_of_string (SourceName p)) ≤ 64)%nat ∧
  (x00 ∉ list_byte_of_string (SourceName p)) ∧
  ReceivedAt p = now.
Proof.
  intros HP. pose proof (Parse_inr _ _ _ HP) as (Hlen & _ & _ & _).
  apply Parse_inr_fields in HP. subst p. simpl. unfold ChannelCount. simpl.
  assert (Hu : Uint16 (slice data 113 115) =
               256 * byte_val (at_ data 113) + byte_val (at_ data 114)).
  { rewrite Uint16_value. unfold at_. rewrite !slice_lookup by lia. done. }
  pose proof (byte_val_range (at_ data 113)).
  pose proof (byte_val_range (at_ data 114)).
  destruct (sourceNameOf_prefix (slice data 44 108)) as (k & Hk & Hn).
  split; [apply slice_length; lia|].
  split; [intros j Hj; by apply slice_lookup|].
  repeat (split; [apply byte_val_range|]).
  split; [exact Hu|]. split; [lia|].
  split.
  { rewrite channelDataOf_eq, length_take. lia. }
  rewrite Hk. split; [|done].
  rewrite length_take, slice_length by lia. lia.
Qed.

Lemma Parse_field_ranges_witness :
  ∃ p, Parse 0 (sample_packet [x0a]) = inr p ∧ Universe p = 1 ∧ 0 ≤ ChannelCount p ≤ 512.
Proof.
  eexists. split; [reflexivity|].
  destruct (Parse_field_ranges 0 (sample_packet [x0a]) _ eq_refl)
    as (_ & _ & _ & _ & _ & Hu & _ & Hc & _).
  split; [exact Hu | exact Hc].
Defined.

Lemma Parse_take_638 (now : Time) (data : list byte) :
  Parse now (take 638 data) = Parse now data.
Proof.
  destruct (decide (length data ≤ 638)%nat) as [Hle|Hgt].
  { by rewrite take_ge. }
  assert (Hat : ∀ i, (i < 638)%nat → at_ (take 638 data) i = at_ data i).
  { intros i Hi. unfold at_. by rewrite lookup_take_lt. }
  assert (Hsl : ∀ lo hi, (lo ≤ hi ≤ 638)%nat →
            slice (take 638 data) lo hi = slice data lo hi).
  { intros lo hi Hh. unfold slice.
    rewrite (take_drop_commute data), (take_drop_commute (take 638 data)).
    rewrite take_take. do 2 f_equal. lia. }
  unfold Parse, E131HeaderSize.
  rewrite !Hat, !Hsl by lia.
  rewrite !channelDataOf_eq.
  replace (length (take 638 data) <? 126)%nat with (length data <? 126)%nat.
  2:{ rewrite length_take. rewrite !(proj2 (Nat.ltb_ge _ _)); [done | lia | lia]. }
  replace (take 512 (drop 126 (take 638 data))) with (take 512 (drop 126 data)); [done|].
  rewrite (take_drop_commute data), (take_drop_commute (take 638 data)).
  rewrite take_take. do 2 f_equal.
Qed.

(** A buffer that cuts a datagram at 638 bytes or later. *)
Lemma Parse_take_ge (now : Time) (data : list byte) (n : nat) :
  (638 ≤ n)%nat → Parse now (take n data) = Parse now data.
Proof.
  intros Hn. rewrite <- (Parse_take_638 now (take n data)), take_take.
  rewrite Nat.min_l by done. apply Parse_take_638.
Qed.

(** X4: [Parse] reads nothing past offset 637: a buffer and its first 638
    bytes are decoded alike. *)
Theorem Parse_reads_638 (now : Time) (data : list byte) :
  Parse now (take 638 data) = Parse now data.
Proof. apply Parse_take_638. Qed.

End ParserMore.

(** ** Building a packet and parsing it back *)

Section RoundTrip.
Import Sacn SacnTest.

Lemma byte_val_to_byte (n : Z) : byte_val (to_byte n) = n mod 256.
Proof.
  unfold to_byte, byte_val.
  assert (Hr : 0 ≤ n mod 256 < 256) by (apply Z.mod_pos_bound; lia).
  destruct (Byte.of_N (Z.to_N (n mod 256))) as [b|] eqn:E.
  - simpl. apply Byte.to_of_N in E. rewrite E. lia.
  - apply Byte.of_N_None_iff in E. lia.
Qed.

(** A copy that stays inside the first part of a buffer. *)
Lemma copyInto_app_l (A X src : list byte) (lo hi : nat) :
  (lo ≤ hi ≤ length A)%nat →
  copyInto (A ++ X) lo hi src = copyInto A lo hi src ++ X.
Proof.
  intros H. unfold copyInto.
  rewrite take_app_le, drop_app_le by lia.
  by rewrite <- !(assoc_L (++)).
Qed.

(** A copy over the whole middle part of a buffer. *)
Lemma copyInto_middle (A F Y src : list byte) (lo hi : nat) :
  length A = lo → length F = (hi - lo)%nat → (lo ≤ hi)%nat →
  copyInto (A ++ F ++ Y) lo hi src =
    A ++ (take (Nat.min (hi - lo) (length src)) src ++
          drop (Nat.min (hi - lo) (length src)) F) ++ Y.
Proof.
  intros HA HF Hle. unfold copyInto.
  rewrite take_app_length' by done.
  rewrite drop_app_ge by lia. rewrite HA.
  replace (lo + Nat.min (hi - lo) (length src) - lo)%nat
    with (Nat.min (hi - lo) (length src)) by lia.
  rewrite drop_app_le by lia.
  by rewrite <- !(assoc_L (++)).
Qed.

(** A copy to the end of a buffer. *)
Lemma copyInto_end (H D src : list byte) (lo : nat) :
  length H = lo → (length D ≤ length src)%nat →
  copyInto (H ++ D) lo (length (H ++ D)) src = H ++ take (length D) src.
Proof.
  intros HH HD. unfold copyInto. rewrite length_app, HH.
  replace (Nat.min (lo + length D - lo) (length src)) with (length D) by lia.
  rewrite take_app_length' by done.
  rewrite drop_app_ge by lia. rewrite drop_ge by lia.
  by rewrite app_nil_r.
Qed.

Lemma copyInto_end4 (A F C D src : list byte) :
  length A = 44%nat → length F = 64%nat → length C = 18%nat →
  (length D ≤ length src)%nat →
  copyInto (A ++ F ++ C ++ D) 126 (length (A ++ F ++ C ++ D)) src =
    A ++ F ++ C ++ take (length D) src.
Proof.
  intros HA HF HC HD.
  rewrite !(assoc_L (++) _ _ D).
  rewrite copyInto_end; [by rewrite <- !(assoc_L (++)) | | done].
  rewrite !length_app. lia.
Qed.

Lemma insert_third (A F Y : list byte) (i : nat) (v : byte) :
  length A = 44%nat → length F = 64%nat → (108 ≤ i)%nat →
  <[i := v]> (A ++ F ++ Y) = A ++ F ++ <[(i - 108)%nat := v]> Y.
Proof.
  intros HA HF Hi.
  rewrite insert_app_r_alt by lia. rewrite insert_app_r_alt by lia.
  rewrite HA, HF. do 3 f_equal. lia.
Qed.

(** The bytes of a built packet: the root and framing headers up to the
    framing vector, the name field, the rest of the header, the channels. *)
Lemma buildValidPacket_layout universe sequence sourceName channels :
  let cc := Nat.min 512 (length channels) in
  let name := list_byte_of_string sourceName in
  let n := Nat.min 64 (length name) in
  let size := Z.of_nat (126 + cc) in
  buildValidPacket universe sequence sourceName channels =
    ([x00; x10; x00; x00] ++ ACNPacketIdentifier ++
     [flagsHigh (to_uint16 (size - 16)); to_byte (to_uint16 (size - 16));
      x00; x00; x00; x04] ++ testCID ++
     [flagsHigh (to_uint16 (size - 38)); to_byte (to_uint16 (size - 38));
      x00; x00; x00; x02]) ++
    (take n name ++ replicate (64 - n) x00) ++
    [to_byte 100; x00; x00; to_byte sequence; x00;
     to_byte (Z.shiftr universe 8); to_byte universe;
     flagsHigh (to_uint16 (size - 115)); to_byte (to_uint16 (size - 115));
     x02; xa1; x00; x00; x00; x01;
     to_byte (Z.shiftr (to_uint16 (1 + Z.of_nat cc)) 8);
     to_byte (to_uint16 (1 + Z.of_nat cc)); x00] ++
    take cc channels.
Proof.
  intros cc name n size. unfold buildValidPacket.
  replace (if (E131MaxChannels <? length channels)%nat then E131MaxChannels
           else length channels) with cc.
  2:{ unfold cc, E131MaxChannels.
      destruct (512 <? length channels)%nat eqn:E;
        [apply Nat.ltb_lt in E | apply Nat.ltb_ge in E]; lia. }
  cbv zeta. unfold E131HeaderSize. fold name. fold size.
  replace (replicate (126 + cc) x00)
    with (replicate 44 x00 ++ replicate 64 x00 ++ replicate 18 x00 ++ replicate cc x00).
  2:{ by rewrite <- !replicate_add. }
  (* the writes before the name field *)
  rewrite (insert_app_l (replicate 44 x00)) by (simpl; lia).
  rewrite (insert_app_l (<[0%nat:=x00]> _)) by (simpl; lia).
  rewrite copyInto_app_l by (simpl; lia).
  do 6 (rewrite (insert_app_l _ _ _ _) by (simpl; lia)).
  rewrite copyInto_app_l by (simpl; lia).
  do 6 (rewrite (insert_app_l _ _ _ _) by (simpl; lia)).
  (* the name *)
  rewrite copyInto_middle by (simpl; lia).
  change (108 - 44)%nat with 64%nat. fold n.
  rewrite drop_replicate.
  (* the writes after the name field *)
  do 13 (rewrite insert_third;
         [ | reflexivity
           | rewrite length_app, length_take, length_replicate; lia
           | lia]).
  simpl Nat.sub.
  do 13 (rewrite (insert_app_l _ _ _ _) by (simpl; lia)).
  (* the channels *)
  rewrite copyInto_end4.
  - rewrite length_replicate. reflexivity.
  - reflexivity.
  - rewrite length_app, length_take, length_replicate. lia.
  - reflexivity.
  - rewrite length_replicate. lia.
Qed.

Lemma at_app_l (A X : list byte) (i : nat) :
  (i < length A)%nat → at_ (A ++ X) i = at_ A i.
Proof. intros H. unfold at_. by rewrite lookup_app_l. Qed.

Lemma slice_app_l (A X : list byte) (lo hi : nat) :
  (hi ≤ length A)%nat → slice (A ++ X) lo hi = slice A lo hi.
Proof.
  intros H. unfold slice.
  destruct (decide (lo ≤ hi)%nat) as [Hle|Hgt].
  - rewrite drop_app_le by lia. apply take_app_le. rewrite length_drop. lia.
  - replace (hi - lo)%nat with 0%nat by lia. by rewrite !take_0.
Qed.

Lemma at_app_r (A X : list byte) (i : nat) :
  (length A ≤ i)%nat → at_ (A ++ X) i = at_ X (i - length A).
Proof. intros H. unfold at_. by rewrite lookup_app_r. Qed.

Lemma slice_app_r (A X : list byte) (lo hi : nat) :
  (length A ≤ lo)%nat →
  slice (A ++ X) lo hi = slice X (lo - length A) (hi - length A).
Proof.
  intros H. unfold slice. rewrite drop_app_ge by done. f_equal. lia.
Qed.

(** [Parse] on a buffer given by its four parts. *)
Lemma Parse_parts now (A F C P : list byte) :
  length A = 44%nat → length F = 64%nat → length C = 18%nat →
  at_ A 0 = x00 → at_ A 1 = x10 → slice A 4 16 = ACNPacketIdentifier →
  Uint32 (slice A 18 22) = E131RootVector →
  Uint32 (slice A 40 44) = E131FramingVector →
  at_ C 9 = E131DMPVector →
  Parse now (A ++ F ++ C ++ P) =
    inr {| CID := slice A 22 38;
           SourceName := sourceNameOf F;
           Priority := byte_val (at_ C 0);
           Sequence := byte_val (at_ C 3);
           Universe := Uint16 (slice C 5 7);
           StartCode := byte_val (at_ C 17);
           ChannelData := take 512 P;
           SourceAddr := None;
           ReceivedAt := now |}.
Proof.
  intros HA HF HC H0 H1 Hid Hr Hf Hd.
  set (data := A ++ F ++ C ++ P).
  assert (HatA : ∀ i, (i < 44)%nat → at_ data i = at_ A i).
  { intros i Hi. apply at_app_l. lia. }
  assert (HslA : ∀ lo hi, (hi ≤ 44)%nat → slice data lo hi = slice A lo hi).
  { intros lo hi Hh. apply slice_app_l. lia. }
  assert (HatC : ∀ i j, (j < 18)%nat → i = (108 + j)%nat → at_ data i = at_ C j).
  { intros i j Hj ->. unfold data.
    rewrite at_app_r, HA by lia. rewrite at_app_r, HF by lia.
    rewrite at_app_l by lia. f_equal. lia. }
  assert (HslC : slice data 113 115 = slice C 5 7).
  { unfold data. rewrite slice_app_r, HA by lia. rewrite slice_app_r, HF by lia.
    by rewrite slice_app_l by lia. }
  assert (HslF : slice data 44 108 = F).
  { unfold data. rewrite slice_app_r, HA by lia. unfold slice.
    change (108 - 44 - (44 - 44))%nat with 64%nat.
    change (44 - 44)%nat with 0%nat. rewrite drop_0.
    by rewrite take_app_length'. }
  assert (Hdrop : drop 126 data = P).
  { unfold data. rewrite drop_app_ge, HA by lia. rewrite drop_app_ge, HF by lia.
    rewrite drop_app_ge, HC by lia. done. }
  destruct (Parse_header_ok now data) as [p Hp].
  { unfold data. rewrite !length_app. lia. }
  { unfold header_ok. rewrite !HatA, !HslA by lia.
    rewrite (HatC 117%nat 9%nat) by lia. done. }
  rewrite Hp. f_equal. rewrite (Parse_inr_fields _ _ _ Hp).
  rewrite HslA, HslF, HslC, channelDataOf_eq, Hdrop by lia.
  rewrite (HatC 108%nat 0%nat), (HatC 111%nat 3%nat), (HatC 125%nat 17%nat) by lia.
  done.
Qed.

(** The name field holds the name. *)
Lemma sourceNameOf_field (sourceName : string) :
  let name := list_byte_of_string sourceName in
  (length name ≤ 64)%nat → x00 ∉ name →
  sourceNameOf (name ++ replicate (64 - length name) x00) = sourceName.
Proof.
  intros name Hlen Hn.
  assert (Hname : string_of_list_byte name = sourceName)
    by apply string_of_list_byte_of_string.
  destruct (decide (length name = 64%nat)) as [H64|Hlt].
  - rewrite H64. simpl. rewrite app_nil_r. unfold sourceNameOf.
    by rewrite IndexByte_absent.
  - unfold sourceNameOf.
    rewrite (IndexByte_first _ _ (length name)).
    + destruct (length name) as [|k] eqn:Hk.
      * simpl. destruct name; [|done]. by rewrite <- Hname.
      * rewrite (proj2 (Z.ltb_lt 0 (Z.of_nat (S k)))) by lia.
        rewrite Nat2Z.id, <- Hk. by rewrite take_app_length.
    + rewrite lookup_app_r by lia. rewrite Nat.sub_diag.
      destruct (64 - length name)%nat eqn:E; [lia|done].
    + by rewrite take_app_length.
Qed.

(** X5: a packet built for a universe, a sequence number, a name of at
    most 64 bytes without a zero byte, and channel data is decoded to
    exactly these, with the test CID, priority 100, start code 0 and the
    channel data cut to 512 bytes. *)
Theorem buildValidPacket_round_trip (now : Time) (universe sequence : Z)
    (sourceName : string) (channels : list byte) :
  0 ≤ universe < 65536 → 0 ≤ sequence < 256 →
  (length (list_byte_of_string sourceName) ≤ 64)%nat →
  x00 ∉ list_byte_of_string sourceName →
  Parse now (buildValidPacket universe sequence sourceName channels) =
    inr {| CID := testCID;
           SourceName := sourceName;
           Priority := 100;
           Sequence := sequence;
           Universe := universe;
           StartCode := 0;
           ChannelData := take 512 channels;
           SourceAddr := None;
           ReceivedAt := now |}.
Proof.
  intros Hu Hs Hlen Hn.
  rewrite buildValidPacket_layout.
  rewrite (Nat.min_r 64) by done.
  rewrite take_ge by done.
  rewrite Parse_parts; try reflexivity.
  2:{ rewrite length_app, length_replicate. lia. }
  f_equal. f_equal.
  - by apply sourceNameOf_field.
  - change (byte_val (to_byte sequence) = sequence).
    rewrite byte_val_to_byte. apply Z.mod_small. lia.
  - change (Uint16 [to_byte (Z.shiftr universe 8); to_byte universe] = universe).
    rewrite Uint16_value.
    change (256 * byte_val (to_byte (Z.shiftr universe 8)) +
            byte_val (to_byte universe) = universe).
    rewrite !byte_val_to_byte, Z.shiftr_div_pow2 by lia.
    change (2 ^ 8) with 256.
    rewrite (Z.mod_small (universe / 256)).
    + pose proof (Z.div_mod universe 256). lia.
    + split; [apply Z.div_pos; lia | apply Z.div_lt_upper_bound; lia].
  - rewrite take_take.
    destruct (decide (length channels ≤ 512)%nat) as [Hle|Hgt].
    + rewrite !take_ge; [done | lia | lia].
    + f_equal. lia.
Qed.

Lemma buildValidPacket_round_trip_witness :
  ∃ p, Parse 0 (buildValidPacket 63999 42 "desk" [xff; x80]) = inr p ∧
       Universe p = 63999 ∧ Sequence p = 42 ∧ SourceName p = "desk"%string ∧
       ChannelData p = [xff; x80].
Proof.
  eexists. split.
  - apply (buildValidPacket_round_trip 0 63999 42 "desk" [xff; x80]).
    + lia.
    + lia.
    + vm_compute. lia.
    + apply (bool_decide_unpack _). vm_compute. exact I.
  - simpl. repeat split; reflexivity.
Defined.

End RoundTrip.


(** ** More on the universe *)

Section UniverseMore.
Import Universe.

Lemma updateChannels_covered0 now (data : list byte) (channels : list Channel) k b :
  data !! k = Some b → (k < 512)%nat → (k < length channels)%nat →
  updateChannels now 0 data channels !! k =
    Some {| Value := byte_val b; Active := true; LastUpdate := now |}.
Proof. intros. by apply (updateChannels_covered now 0 data channels k b). Qed.

Lemma filter_active_written now (l : list byte) :
  length (filter (fun ch => Active ch = true)
            ((fun b => {| Value := byte_val b; Active := true; LastUpdate := now |})
               <$> l)) = length l.
Proof.
  induction l as [|b l IH]; [done|].
  rewrite fmap_cons, filter_cons, decide_True by done. simpl. by rewrite IH.
Qed.

Lemma filter_active_zero (n : nat) :
  filter (fun ch => Active ch = true) (replicate n zeroChannel) = [].
Proof.
  induction n as [|n IH]; [done|].
  change (replicate (S n) zeroChannel) with (zeroChannel :: replicate n zeroChannel).
  by rewrite filter_cons, decide_False.
Qed.

(** The channel that [Update] writes for a byte of the packet. *)
Lemma updateChannels_eq now (data : list byte) (channels : list Channel) :
  length channels = 512%nat →
  updateChannels now 0 data channels =
    ((fun b => {| Value := byte_val b; Active := true; LastUpdate := now |})
       <$> take 512 data) ++
    drop (Nat.min 512 (length data)) channels.
Proof.
  intros Hlen. apply list_eq. intros i.
  destruct (decide (i < length data ∧ i < 512)%nat) as [[Hi H512]|Hout].
  - destruct (lookup_lt_is_Some_2 data i Hi) as [b Hb].
    rewrite (updateChannels_covered0 now data channels i b) by (done || lia).
    rewrite lookup_app_l by (rewrite length_fmap, length_take; lia).
    by rewrite list_lookup_fmap, lookup_take_lt, Hb by lia.
  - rewrite updateChannels_beyond by lia.
    rewrite lookup_app_r by (rewrite length_fmap, length_take; lia).
    rewrite length_fmap, length_take, lookup_drop.
    destruct (decide (i < 512)%nat) as [Hlt|Hge].
    + f_equal. lia.
    + rewrite !lookup_ge_None_2; [done | lia | lia].
Qed.

(** The count kept by the loop of [ActiveChannelCount]. *)
Lemma count_fold (channels : list Channel) (n : Z) :
  fold_left (fun count ch => if Active ch then count + 1 else count) channels n =
  n + Z.of_nat (length (filter (fun ch => Active ch = true) channels)).
Proof.
  revert n. induction channels as [|c l IH]; intros n; simpl; [lia|].
  rewrite IH, filter_cons. destruct (Active c) eqn:E.
  - rewrite decide_True by done. simpl. lia.
  - rewrite decide_False by congruence. lia.
Qed.

Lemma ActiveChannelCount_filter u :
  ActiveChannelCount u =
    Z.of_nat (length (filter (fun ch => Active ch = true) (Channels u))).
Proof. unfold ActiveChannelCount. rewrite count_fold. lia. Qed.

(** Turning channels active, position by position, does not lower the
    number of active channels. *)
Lemma active_count_mono (l l' : list Channel) :
  Forall2 (fun c c' => Active c = true → Active c' = true) l l' →
  (length (filter (fun ch => Active ch = true) l) ≤
   length (filter (fun ch => Active ch = true) l'))%nat.
Proof.
  induction 1 as [|c c' l l' Hc _ IH]; [done|].
  rewrite !filter_cons.
  destruct (decide (Active c = true)) as [Ha|Hn].
  - rewrite decide_True by auto. simpl. lia.
  - destruct (decide (Active c' = true)); simpl; lia.
Qed.

(** X6: [GetChannel] returns the inactive zero channel for an index
    outside 0..511; for an index inside, it returns the channel of the
    array, which after an [Update] is the byte of the packet at that
    index, active and stamped, when the packet covers the index, and the
    channel as it was when it does not. *)
Theorem GetChannel_after_Update (now : Time) (channelData : list byte)
    (sourceName : string) (sourceCID : list byte) (priority sequence : Z)
    (u : Universe) (index : Z) :
  length (Channels u) = 512%nat →
  let u' := Update now channelData sourceName sourceCID priority sequence u in
  (index < 0 ∨ 512 ≤ index → GetChannel index u' = zeroChannel) ∧
  (0 ≤ index < 512 → Channels u !! Z.to_nat index = Some (GetChannel index u)) ∧
  (0 ≤ index < 512 → ∀ b, channelData !! Z.to_nat index = Some b →
     GetChannel index u' =
       {| Value := byte_val b; Active := true; LastUpdate := now |}) ∧
  (0 ≤ index < 512 → Z.of_nat (length channelData) ≤ index →
     GetChannel index u' = GetChannel index u).
Proof.
  intros Hlen u'.
  assert (Hin : ∀ v, 0 ≤ index < 512 →
            GetChannel index v = default zeroChannel (Channels v !! Z.to_nat index)).
  { intros v Hi. unfold GetChannel.
    rewrite (proj2 (Z.ltb_ge index 0)) by lia.
    by rewrite (proj2 (Z.leb_gt 512 index)) by lia. }
  split; [|split; [|split]].
  - intros Hout. unfold GetChannel. destruct Hout.
    + by rewrite (proj2 (Z.ltb_lt index 0)) by lia.
    + rewrite (proj2 (Z.leb_le 512 index)) by lia. by rewrite orb_true_r.
  - intros Hi. rewrite Hin by done.
    destruct (lookup_lt_is_Some_2 (Channels u) (Z.to_nat index)) as [c Hc]; [lia|].
    by rewrite Hc.
  - intros Hi b Hb. rewrite Hin by done. simpl.
    rewrite (updateChannels_covered0 now channelData (Channels u) (Z.to_nat index) b);
      [done | done | lia | lia].
  - intros Hi Hge. rewrite !Hin by done. simpl.
    rewrite updateChannels_beyond by lia. done.
Qed.

Lemma GetChannel_after_Update_witness :
  GetChannel 1 (Update 1000 [xff; x80] "desk" zeroCID 100 7 (NewUniverse 1)) =
    {| Value := 128; Active := true; LastUpdate := 1000 |}.
Proof.
  destruct (GetChannel_after_Update 1000 [xff; x80] "desk" zeroCID 100 7
              (NewUniverse 1) 1 eq_refl) as (_ & _ & Hset & _).
  apply (Hset ltac:(lia) x80). reflexivity.
Defined.

(** X7: [ActiveChannelCount] is the number of active channels, between 0
    and 512; it is 0 for a new universe, [min n 512] after a first packet
    of [n] channels, and no [Update] lowers it. *)
Theorem ActiveChannelCount_grows (now : Time) (channelData : list byte)
    (sourceName : string) (sourceCID : list byte) (priority sequence : Z)
    (u : Universe) :
  length (Channels u) = 512%nat →
  let upd := Update now channelData sourceName sourceCID priority sequence in
  0 ≤ ActiveChannelCount u ≤ 512 ∧
  ActiveChannelCount u ≤ ActiveChannelCount (upd u) ∧
  ActiveChannelCount (upd u) ≤ 512 ∧
  (∀ id, ActiveChannelCount (NewUniverse id) = 0 ∧
         ActiveChannelCount (upd (NewUniverse id)) =
           Z.min (Z.of_nat (length channelData)) 512).
Proof.
  intros Hlen upd.
  assert (Hb : ∀ v, length (Channels v) = 512%nat → 0 ≤ ActiveChannelCount v ≤ 512).
  { intros v Hv. rewrite ActiveChannelCount_filter.
    pose proof (length_filter (fun ch => Active ch = true) (Channels v)). lia. }
  assert (Hlen' : length (Channels (upd u)) = 512%nat).
  { simpl. by rewrite updateChannels_length. }
  split; [by apply Hb|]. split; [|split; [by apply Hb|]].
  - rewrite !ActiveChannelCount_filter. apply inj_le, active_count_mono.
    apply Forall2_same_length_lookup_2; [by rewrite Hlen'|].
    intros i c c' Hc Hc' Hact.
    destruct (decide (i < length channelData ∧ i < 512)%nat) as [[Hi H512]|Hout].
    + destruct (lookup_lt_is_Some_2 channelData i Hi) as [b Hb'].
      simpl in Hc'.
      rewrite (updateChannels_covered0 now channelData (Channels u) i b) in Hc'
        by (done || lia).
      by injection Hc' as <-.
    + simpl in Hc'. rewrite updateChannels_beyond in Hc' by lia. congruence.
  - intros id. split; [reflexivity|].
    rewrite ActiveChannelCount_filter. unfold upd, Update, NewUniverse.
    cbn [Channels].
    rewrite updateChannels_eq by apply length_replicate.
    rewrite filter_app, length_app, drop_replicate.
    rewrite filter_active_zero, filter_active_written, length_take.
    change (length (@nil Channel)) with 0%nat. lia.
Qed.

Lemma ActiveChannelCount_grows_witness :
  let upd := Update 1000 [xff; x80; x00] "desk" zeroCID 100 7 in
  ActiveChannelCount (upd (NewUniverse 1)) = 3 ∧
  ActiveChannelCount (upd (NewUniverse 1)) ≤
    ActiveChannelCount (upd (upd (NewUniverse 1))).
Proof.
  intros upd.
  assert (Hlen : length (Channels (upd (NewUniverse 1))) = 512%nat).
  { unfold upd, Update. cbn [Channels]. rewrite updateChannels_length. reflexivity. }
  destruct (ActiveChannelCount_grows 1000 [xff; x80; x00] "desk" zeroCID 100 7
              (upd (NewUniverse 1)) Hlen) as (_ & Hmono & _ & Hnew).
  split; [exact (proj2 (Hnew 1)) | exact Hmono].
Defined.


(** X8: after an [Update] made when the clock reads [now], the universe
    is stale at a later reading [now'] exactly when the time elapsed
    since [now] exceeds the timeout; it is not stale at the moment of the
    update for any timeout that is not negative. *)
Theorem IsStale_after_Update (now now' : Time) (timeout : Duration)
    (channelData : list byte) (sourceName : string) (sourceCID : list byte)
    (priority sequence : Z) (u : Universe) :
  now ≠ zeroTime →
  let u' := Update now channelData sourceName sourceCID priority sequence u in
  (IsStale now' timeout u' = true ↔ timeout < Since now' now) ∧
  (0 ≤ timeout → IsStale now timeout u' = false) ∧
  (now ≤ now' → now' - now ≤ timeout → IsStale now' timeout u' = false).
Proof.
  intros Hnow u'.
  assert (Hiff : ∀ n, IsStale n timeout u' = true ↔ timeout < Since n now).
  { intros n. rewrite IsStale_iff. simpl. tauto. }
  assert (Hfalse : ∀ n, Since n now ≤ timeout → IsStale n timeout u' = false).
  { intros n Hle. destruct (IsStale n timeout u') eqn:E; [|done].
    apply Hiff in E. lia. }
  split; [apply Hiff|]. split.
  - intros Ht. apply Hfalse. unfold Since, Sub, minDuration, maxDuration.
    rewrite Z.sub_diag. lia.
  - intros Hle Hd. apply Hfalse. unfold Since, Sub, minDuration, maxDuration. lia.
Qed.

Lemma IsStale_after_Update_witness :
  IsStale 1500 Second (Update 1000 [xff] "desk" zeroCID 100 1 (NewUniverse 1)) = false.
Proof.
  destruct (IsStale_after_Update 1000 1500 Second [xff] "desk" zeroCID 100 1
              (NewUniverse 1)) as (_ & _ & H).
  - vm_compute. intros H. discriminate H.
  - apply H; vm_compute; intros E; discriminate E.
Defined.

End UniverseMore.

(** ** More on the universe manager *)

Section ManagerMore.
Import Universe.

#[local] Instance lessEq_total m : Total (lessEq m).
Proof. intros a b. unfold lessEq. lia. Qed.

#[local] Instance lessEq_trans m : Transitive (lessEq m).
Proof. intros a b c. unfold lessEq. lia. Qed.

Lemma idAt_wf m id l : wf m → universes m !! id = Some l → idAt m l = id.
Proof.
  intros Hwf Hl. destruct (Hwf id l Hl) as (u & Hu & Hid).
  unfold idAt, deref. by rewrite Hu.
Qed.

(** In a well-formed manager a pointer is registered under one ID only. *)
Lemma wf_inj m id1 id2 l :
  wf m → universes m !! id1 = Some l → universes m !! id2 = Some l → id1 = id2.
Proof.
  intros Hwf H1 H2.
  rewrite <- (idAt_wf m id1 l), <- (idAt_wf m id2 l); done.
Qed.

Lemma wf_NewManager : wf NewManager.
Proof. intros id l H. simpl in H. by rewrite lookup_empty in H. Qed.

Lemma wf_GetOrCreate id m : wf m → wf (GetOrCreate id m).2.
Proof.
  intros Hwf. unfold GetOrCreate.
  destruct (universes m !! id) as [l|] eqn:Hl; [done|]. simpl.
  intros id' l' H'. simpl in *.
  destruct (decide (id' = id)) as [->|Hne].
  - rewrite lookup_insert_eq in H'. injection H' as <-.
    rewrite lookup_insert_eq. eauto.
  - rewrite lookup_insert_ne in H' by done.
    destruct (Hwf id' l' H') as (u & Hu & Hid).
    exists u. split; [|done].
    rewrite lookup_insert_ne; [done|].
    intros <-. pose proof (is_fresh (dom (store m))) as Hf.
    apply Hf, elem_of_dom. eauto.
Qed.

(** A write through a pointer that keeps the [ID], as [Update] does. *)
Lemma wf_poke l f m : (∀ u, ID (f u) = ID u) → wf m → wf (poke l f m).
Proof.
  intros Hf Hwf id l' H'. simpl in *.
  destruct (Hwf id l' H') as (u & Hu & Hid).
  destruct (decide (l = l')) as [->|Hne].
  - exists (f u). rewrite lookup_alter_eq, Hu. split; [done|]. by rewrite Hf.
  - exists u. by rewrite lookup_alter_ne.
Qed.

Lemma wf_sub (us : gmap Z loc) m :
  us ⊆ universes m → wf m → wf {| universes := us; store := store m |}.
Proof.
  intros Hsub Hwf id l H. simpl in *.
  apply (Hwf id l). by apply (lookup_weaken us).
Qed.

(** The map left by [PruneStale]. *)
Lemma PruneStale_lookup clock timeout m id :
  universes (PruneStale clock timeout m).2 !! id =
    match universes m !! id with
    | Some l => if staleAt clock timeout m id l then None else Some l
    | None => None
    end.
Proof.
  destruct (pruneFold clock timeout m (universes m)) as [Hl _]; [done|].
  simpl. rewrite Hl. by destruct (universes m !! id).
Qed.

Lemma PruneStale_sub clock timeout m :
  universes (PruneStale clock timeout m).2 ⊆ universes m.
Proof.
  apply map_subseteq_spec. intros id l. rewrite PruneStale_lookup.
  destruct (universes m !! id) as [l'|]; [|done].
  by destruct (staleAt clock timeout m id l').
Qed.

(** Sorting by ID gives strictly increasing IDs when no ID repeats. *)
Lemma StronglySorted_le_lt (ids : list Z) :
  StronglySorted Z.le ids → NoDup ids → StronglySorted Z.lt ids.
Proof.
  induction 1 as [|x l Hs IH Hx]; intros Hnd; [constructor|].
  apply NoDup_cons in Hnd as [Hnin Hnd]. constructor; [auto|].
  rewrite Forall_forall in Hx |- *. intros y Hy.
  specialize (Hx y Hy). assert (x ≠ y) by (intros ->; done). lia.
Qed.

Lemma filter_all {A} (P : A → Prop) `{!∀ x, Decision (P x)} (l : list A) :
  (∀ x, x ∈ l → P x) → filter P l = l.
Proof.
  induction l as [|x l IH]; intros Hall; [done|].
  rewrite filter_cons, decide_True by (apply Hall, list_elem_of_here).
  f_equal. apply IH. intros y Hy. by apply Hall, list_elem_of_further.
Qed.

Lemma StronglySorted_lt_NoDup (ids : list Z) :
  StronglySorted Z.lt ids → NoDup ids.
Proof.
  induction 1 as [|x l Hs IH Hx]; constructor; [|done].
  rewrite Forall_forall in Hx. intros Hin. specialize (Hx x Hin). lia.
Qed.

Lemma sorted_ids m (ps : list (Z * loc)) :
  wf m → NoDup ps.*1 → (∀ id l, (id, l) ∈ ps → universes m !! id = Some l) →
  StronglySorted Z.lt (idAt m <$> merge_sort (lessEq m) ps.*2) ∧
  idAt m <$> merge_sort (lessEq m) ps.*2 ≡ₚ ps.*1.
Proof.
  intros Hwf Hnd Hin.
  assert (Hperm : idAt m <$> merge_sort (lessEq m) ps.*2 ≡ₚ ps.*1).
  { rewrite merge_sort_Permutation. rewrite <- list_fmap_compose.
    erewrite list_fmap_ext; [reflexivity|].
    intros i [id l] Hi. simpl. apply (idAt_wf m id l Hwf), Hin.
    apply list_elem_of_lookup. eauto. }
  split; [|exact Hperm].
  apply StronglySorted_le_lt.
  - apply (StronglySorted_fmap (idAt m) (lessEq m) Z.le); [done|].
    apply StronglySorted_merge_sort; apply _.
  - by rewrite Hperm.
Qed.

(** X9: [GetOrCreate] returns the pointer already registered for an ID
    and changes nothing, or registers a new pointer to a new universe of
    that ID with no packets, leaving every other ID and every existing
    universe as they were and raising the count by one; asking again gives
    the same pointer. *)
Theorem GetOrCreate_spec (id : Z) (m : Manager) :
  let r := GetOrCreate id m in
  (∀ l, Get id m = Some l → r = (l, m)) ∧
  (Get id m = None →
     deref m r.1 = None ∧ deref r.2 r.1 = Some (NewUniverse id) ∧
     Count r.2 = Count m + 1 ∧
     (∀ l, l ≠ r.1 → deref r.2 l = deref m l)) ∧
  Get id r.2 = Some r.1 ∧
  (∀ id', id' ≠ id → Get id' r.2 = Get id' m) ∧
  GetOrCreate id r.2 = r ∧
  (wf m → wf r.2).
Proof.
  intros r. subst r. unfold GetOrCreate, Get, deref, Count.
  destruct (universes m !! id) as [l|] eqn:Hl; simpl.
  - split; [by intros l' [= <-]|]. split; [done|]. split; [done|].
    split; [done|]. split; [by rewrite Hl|]. done.
  - assert (Hf : store m !! fresh (dom (store m)) = None).
    { apply not_elem_of_dom, is_fresh. }
    split; [done|]. split.
    { intros _. split; [done|]. split; [apply lookup_insert_eq|]. split.
      - rewrite map_size_insert_None by done. lia.
      - intros l Hne. by apply lookup_insert_ne. }
    split; [apply lookup_insert_eq|].
    split; [intros id' Hne; by apply lookup_insert_ne|].
    split; [by rewrite lookup_insert_eq|].
    intros Hwf. pose proof (wf_GetOrCreate id m Hwf) as H.
    unfold GetOrCreate in H. by rewrite Hl in H.
Qed.

(** X10: in a well-formed manager [GetAll] lists every registered
    universe once, in strictly increasing order of ID. *)
Theorem GetAll_sorted (m : Manager) :
  wf m →
  StronglySorted Z.lt (idAt m <$> GetAll m) ∧
  (∀ id, id ∈ idAt m <$> GetAll m ↔ is_Some (Get id m)) ∧
  (∀ l, l ∈ GetAll m ↔ ∃ id, Get id m = Some l) ∧
  NoDup (GetAll m) ∧
  Z.of_nat (length (GetAll m)) = Count m.
Proof.
  intros Hwf.
  destruct (sorted_ids m (map_to_list (universes m)) Hwf) as [Hs Hp].
  { apply NoDup_fst_map_to_list. }
  { intros id l. by rewrite elem_of_map_to_list. }
  split; [exact Hs|]. split; [|split; [|split]].
  - intros id. unfold GetAll. rewrite Hp. unfold Get.
    rewrite list_elem_of_fmap. split.
    + intros ([id' l] & -> & Hin%elem_of_map_to_list). eauto.
    + intros [l Hl]. exists (id, l). split; [done|]. by apply elem_of_map_to_list.
  - apply GetAll_elem.
  - apply (NoDup_fmap_1 (idAt m)). apply StronglySorted_lt_NoDup, Hs.
  - unfold GetAll, Count.
    rewrite (Permutation_length (merge_sort_Permutation _ _)).
    by rewrite length_fmap, length_map_to_list.
Qed.

Lemma GetAll_sorted_witness :
  let m := (GetOrCreate 1 (GetOrCreate 50 (GetOrCreate 100 NewManager).2).2).2 in
  StronglySorted Z.lt (idAt m <$> GetAll m) ∧ Z.of_nat (length (GetAll m)) = Count m.
Proof.
  intros m.
  destruct (GetAll_sorted m) as (Hs & _ & _ & _ & Hn).
  { do 3 apply wf_GetOrCreate. apply wf_NewManager. }
  split; [exact Hs | exact Hn].
Defined.

(** X11: [GetActiveUniverses] lists exactly the registered universes that
    [IsStale] does not report stale, each of them also listed by [GetAll],
    and in a well-formed manager in strictly increasing order of ID. *)
Theorem GetActiveUniverses_spec (clock : Z → Time) (timeout : Duration) (m : Manager) :
  (∀ l, l ∈ GetActiveUniverses clock timeout m ↔
        ∃ id, Get id m = Some l ∧ staleAt clock timeout m id l = false) ∧
  (∀ l, l ∈ GetActiveUniverses clock timeout m → l ∈ GetAll m) ∧
  (wf m → StronglySorted Z.lt (idAt m <$> GetActiveUniverses clock timeout m)).
Proof.
  assert (Hel : ∀ l, l ∈ GetActiveUniverses clock timeout m ↔
            ∃ id, Get id m = Some l ∧ staleAt clock timeout m id l = false).
  { intros l. unfold GetActiveUniverses, Get.
    rewrite merge_sort_Permutation, list_elem_of_fmap. split.
    - intros ([id l'] & -> & Hin). apply list_elem_of_filter in Hin as [Hst Hin].
      exists id. split; [by apply elem_of_map_to_list | done].
    - intros (id & Hid & Hst). exists (id, l). split; [done|].
      apply list_elem_of_filter. split; [done|]. by apply elem_of_map_to_list. }
  split; [exact Hel|]. split.
  - intros l (id & Hid & _)%Hel. apply GetAll_elem. eauto.
  - intros Hwf.
    apply (sorted_ids m (filter (fun p => staleAt clock timeout m p.1 p.2 = false)
                           (map_to_list (universes m))) Hwf).
    + apply NoDup_fmap_fst.
      * intros id l1 l2 [_ H1]%list_elem_of_filter [_ H2]%list_elem_of_filter.
        apply elem_of_map_to_list in H1, H2. congruence.
      * apply NoDup_filter, NoDup_map_to_list.
    + intros id l [_ Hin]%list_elem_of_filter. by apply elem_of_map_to_list.
Qed.

(** X12: [Remove] unregisters the ID and nothing else: the other IDs and
    all the universe objects stay, the count drops by one when the ID was
    registered and not at all when it was not. A universe created again
    under a removed ID is a new one with no packets, behind a pointer
    different from the old one. *)
Theorem Remove_spec (id : Z) (m : Manager) :
  Get id (Remove id m) = None ∧
  (∀ id', id' ≠ id → Get id' (Remove id m) = Get id' m) ∧
  (∀ l, deref (Remove id m) l = deref m l) ∧
  (Get id m = None → Remove id m = m) ∧
  (is_Some (Get id m) → Count (Remove id m) = Count m - 1) ∧
  (wf m → wf (Remove id m)) ∧
  (wf m → ∀ l, Get id m = Some l →
     let r := GetOrCreate id (Remove id m) in
     r.1 ≠ l ∧ deref r.2 r.1 = Some (NewUniverse id) ∧ deref r.2 l = deref m l).
Proof.
  unfold Get, Remove, deref, Count. simpl.
  split; [apply lookup_delete_eq|].
  split; [intros id' Hne; by apply lookup_delete_ne|].
  split; [done|]. split.
  { intros Hn. destruct m as [us st]. simpl in *. f_equal. by apply delete_id. }
  split.
  { intros Hs. rewrite map_size_delete_Some by done.
    pose proof (map_size_ne_0_lookup_2 _ _ Hs). lia. }
  split.
  { intros Hwf. apply (wf_sub _ m); [apply delete_subseteq | done]. }
  intros Hwf l Hl. unfold GetOrCreate. simpl. rewrite lookup_delete_eq. simpl.
  destruct (Hwf id l Hl) as (u & Hu & _).
  assert (Hne : fresh (dom (store m)) ≠ l).
  { intros E. pose proof (is_fresh (dom (store m))) as Hf.
    apply Hf. rewrite E. apply elem_of_dom. eauto. }
  split; [done|]. split; [apply lookup_insert_eq|].
  by apply lookup_insert_ne.
Qed.

(** X13: with one clock reading for the whole call, [PruneStale] leaves
    exactly the universes that [GetActiveUniverses] listed, so that
    afterwards every universe is active, and a second [PruneStale] with
    the same reading removes nothing. *)
Theorem PruneStale_keeps_active (clock : Z → Time) (timeout : Duration) (m : Manager) :
  wf m →
  let m' := (PruneStale clock timeout m).2 in
  wf m' ∧
  GetAll m' = GetActiveUniverses clock timeout m ∧
  GetActiveUniverses clock timeout m' = GetAll m' ∧
  PruneStale clock timeout m' = (0, m').
Proof.
  intros Hwf m'.
  assert (Hwf' : wf m').
  { apply (wf_sub _ m); [apply PruneStale_sub | done]. }
  assert (Hlk : ∀ id, universes m' !! id =
            match universes m !! id with
            | Some l => if staleAt clock timeout m id l then None else Some l
            | None => None
            end) by apply PruneStale_lookup.
  assert (Hkept : ∀ id l, universes m' !! id = Some l →
            universes m !! id = Some l ∧ staleAt clock timeout m id l = false).
  { intros id l. rewrite Hlk. destruct (universes m !! id) as [l0|]; [|done].
    destruct (staleAt clock timeout m id l0) eqn:E; [done|]. by intros [= <-]. }
  assert (Hsame : ∀ (l1 l2 : list loc),
            (∀ l, l ∈ l1 → ∃ id, universes m !! id = Some l) →
            l1 ≡ₚ l2 →
            merge_sort (lessEq m) l1 = merge_sort (lessEq m) l2).
  { intros l1 l2 Hin Hp.
    apply (Sorted_unique_strong (lessEq m)).
    - intros x1 x2 Hx1 Hx2 H12 H21.
      rewrite merge_sort_Permutation in Hx1, Hx2. rewrite <- Hp in Hx2.
      destruct (Hin x1 Hx1) as [i1 Hi1]. destruct (Hin x2 Hx2) as [i2 Hi2].
      unfold lessEq in H12, H21.
      rewrite (idAt_wf m i1 x1), (idAt_wf m i2 x2) in H12, H21 by done.
      assert (i1 = i2) as -> by lia. congruence.
    - apply Sorted_merge_sort; apply _.
    - apply Sorted_merge_sort; apply _.
    - by rewrite !merge_sort_Permutation. }
  assert (Hperm : (map_to_list (universes m')).*2 ≡ₚ
            (filter (fun p => staleAt clock timeout m p.1 p.2 = false)
               (map_to_list (universes m))).*2).
  { apply fmap_Permutation, NoDup_Permutation.
    - apply NoDup_map_to_list.
    - apply NoDup_filter, NoDup_map_to_list.
    - intros [id l]. rewrite list_elem_of_filter, !elem_of_map_to_list. simpl. split.
      + intros H. destruct (Hkept id l H). done.
      + intros [Hst Hid]. by rewrite Hlk, Hid, Hst. }
  assert (Hall : GetAll m' = GetActiveUniverses clock timeout m).
  { unfold GetAll, GetActiveUniverses.
    change (lessEq m') with (lessEq m). apply Hsame; [|exact Hperm].
    intros l ([id l'] & -> & Hin%elem_of_map_to_list)%list_elem_of_fmap. simpl.
    exists id. by destruct (Hkept id l' Hin). }
  assert (Hnone : ∀ id l, universes m' !! id = Some l →
            staleAt clock timeout m' id l = false).
  { intros id l H. by destruct (Hkept id l H). }
  split; [exact Hwf'|]. split; [exact Hall|]. split.
  - unfold GetActiveUniverses, GetAll. do 2 f_equal.
    apply filter_all.
    intros [id l] Hin%elem_of_map_to_list. simpl. by apply Hnone.
  - destruct (pruneFold clock timeout m' (universes m')) as [Hl2 Hn2]; [done|].
    assert (Heq : (map_fold (pruneStep clock timeout m') (universes m', 0)
                     (universes m')).1 = universes m').
    { apply map_eq. intros id. rewrite Hl2.
      destruct (universes m' !! id) as [l|] eqn:E; [|done].
      by rewrite (Hnone id l E). }
    unfold PruneStale. rewrite Hn2, Heq, Z.sub_diag. reflexivity.
Qed.

Lemma PruneStale_keeps_active_witness :
  let m0 := (GetOrCreate 2 (GetOrCreate 1 NewManager).2).2 in
  let m := poke 1%positive (Update 1000 [xff] "active" zeroCID 100 1) m0 in
  GetAll (PruneStale (fun _ => 2000) Hour m).2 = GetActiveUniverses (fun _ => 2000) Hour m.
Proof.
  intros m0 m.
  destruct (PruneStale_keeps_active (fun _ => 2000) Hour m) as (_ & H & _).
  - apply wf_poke; [done|]. do 2 apply wf_GetOrCreate. apply wf_NewManager.
  - exact H.
Defined.

End ManagerMore.

(** ** The tracker over sequences of calls *)

Section TrackerRun.
Import Stats StatsRun.

(** [RecordPacket] in a well-formed tracker, whatever it finds: the
    pointers it uses, what was behind them, and the three maps after. *)
Lemma RecordPacket_shape now uid cid name seq t :
  wf t →
  ∃ ls lsrc st0 src0 ex,
    (universes t !! uid = Some ls ∧ statsStore t !! ls = Some st0 ∨
     universes t !! uid = None ∧ statsStore t !! ls = None ∧ st0 = newStats uid) ∧
    (UniverseStats.Sources st0 !! cid = Some lsrc ∧
       sourceStore t !! lsrc = Some src0 ∧ ex = true ∨
     UniverseStats.Sources st0 !! cid = None ∧ sourceStore t !! lsrc = None ∧
       src0 = newSource cid name ∧ ex = false) ∧
    let chk := checkLoss ex src0 st0 seq in
    RecordPacket now uid cid name seq t =
      {| universes := <[uid := ls]> (universes t);
         rateWindow := rateWindow t;
         statsStore :=
           <[ls := statsAfter now (rateWindow t)
                     (<[cid := lsrc]> (UniverseStats.Sources st0)) chk st0]>
             (statsStore t);
         sourceStore := <[lsrc := sourceAfter now name seq chk src0]> (sourceStore t) |}.
Proof.
  intros Hwf. unfold RecordPacket, statsFor.
  destruct (universes t !! uid) as [ls|] eqn:Hls.
  - destruct (Hwf uid ls Hls) as (st & Hst & Hall). rewrite Hst.
    unfold sourceFor.
    destruct (UniverseStats.Sources st !! cid) as [l|] eqn:Hl.
    + destruct (Hall cid l Hl) as [src Hsrc]. rewrite Hsrc.
      exists ls, l, st, src, true. split; [by left|]. split; [by left|].
      simpl. by rewrite (insert_id _ _ _ Hls), (insert_id _ _ _ Hl).
    + rewrite lookup_insert_eq.
      exists ls, (fresh (dom (sourceStore t))), st, (newSource cid name), false.
      split; [by left|]. split.
      { right. split; [done|]. split; [|done]. apply not_elem_of_dom, is_fresh. }
      simpl. by rewrite (insert_id _ _ _ Hls), insert_insert_eq.
  - simpl. rewrite lookup_insert_eq. unfold sourceFor. simpl.
    rewrite lookup_empty, lookup_insert_eq.
    exists (fresh (dom (statsStore t))), (fresh (dom (sourceStore t))),
      (newStats uid), (newSource cid name), false.
    split.
    { right. split; [done|]. split; [|done]. apply not_elem_of_dom, is_fresh. }
    split.
    { right. split; [done|]. split; [|done]. apply not_elem_of_dom, is_fresh. }
    simpl. by rewrite !insert_insert_eq.
Qed.

Lemma separated_wf t : separated t → wf t.
Proof.
  intros [HA _] id ls Hls. destruct (HA id ls Hls) as (st & Hst & _ & Hall).
  exists st. split; [done|]. intros cid l Hl.
  destruct (Hall cid l Hl) as (src & Hsrc & _). eauto.
Qed.

Lemma separated_stats t id st :
  separated t → statsOf id t = Some st →
  UniverseStats.UniverseID st = id ∧
  ∀ cid l, UniverseStats.Sources st !! cid = Some l →
    ∃ src, sourceStore t !! l = Some src ∧ Source.CID src = cid.
Proof.
  intros [HA _]. rewrite statsOf_unfold.
  destruct (universes t !! id) as [ls|] eqn:Hls; [|done]. intros Hst.
  destruct (HA id ls Hls) as (st' & Hst' & Hid & Hall).
  assert (st' = st) as -> by congruence. done.
Qed.

(** In a separated tracker the pointer of a universe is its own. *)
Lemma separated_universe_inj t id1 id2 ls :
  separated t → universes t !! id1 = Some ls → universes t !! id2 = Some ls → id1 = id2.
Proof.
  intros [HA _] H1 H2.
  destruct (HA id1 ls H1) as (st1 & Hst1 & Hid1 & _).
  destruct (HA id2 ls H2) as (st2 & Hst2 & Hid2 & _). congruence.
Qed.

Lemma separated_NewTracker : separated NewTracker.
Proof.
  split.
  - intros id ls H. simpl in H. by rewrite lookup_empty in H.
  - intros id1 id2 st1 st2 cid1 cid2 l H. rewrite statsOf_unfold in H. simpl in H.
    by rewrite lookup_empty in H.
Qed.

(** [RecordPacket] in a separated tracker: besides the shape of the
    result, the pointers of the other universes and of the other sources
    differ from the two it writes through. *)
Lemma RecordPacket_sep now uid cid name seq t :
  separated t →
  ∃ ls lsrc st0 src0 ex,
    (statsOf uid t = Some st0 ∨ statsOf uid t = None ∧ st0 = newStats uid) ∧
    (UniverseStats.Sources st0 !! cid = Some lsrc ∧
       sourceStore t !! lsrc = Some src0 ∧ ex = true ∨
     UniverseStats.Sources st0 !! cid = None ∧ sourceStore t !! lsrc = None ∧
       src0 = newSource cid name ∧ ex = false) ∧
    UniverseStats.UniverseID st0 = uid ∧ Source.CID src0 = cid ∧
    (∀ id ls', id ≠ uid → universes t !! id = Some ls' → ls' ≠ ls) ∧
    (∀ id c st l, statsOf id t = Some st →
       UniverseStats.Sources st !! c = Some l → (id, c) ≠ (uid, cid) → l ≠ lsrc) ∧
    let chk := checkLoss ex src0 st0 seq in
    RecordPacket now uid cid name seq t =
      {| universes := <[uid := ls]> (universes t);
         rateWindow := rateWindow t;
         statsStore :=
           <[ls := statsAfter now (rateWindow t)
                     (<[cid := lsrc]> (UniverseStats.Sources st0)) chk st0]>
             (statsStore t);
         sourceStore := <[lsrc := sourceAfter now name seq chk src0]> (sourceStore t) |}.
Proof.
  intros Hsep.
  destruct (RecordPacket_shape now uid cid name seq t (separated_wf t Hsep))
    as (ls & lsrc & st0 & src0 & ex & Hu & Hs & Heq).
  exists ls, lsrc, st0, src0, ex.
  assert (Hst0 : statsOf uid t = Some st0 ∨ statsOf uid t = None ∧ st0 = newStats uid).
  { rewrite statsOf_unfold.
    destruct Hu as [[-> Hst]|(-> & _ & ->)]; [by left | by right]. }
  assert (Hid : UniverseStats.UniverseID st0 = uid).
  { destruct Hst0 as [Hst0|[_ ->]]; [|done].
    by destruct (separated_stats t uid st0 Hsep Hst0). }
  assert (Hcid : Source.CID src0 = cid).
  { destruct Hs as [(Hl0 & Hsrc0 & _)|(_ & _ & -> & _)]; [|done].
    destruct Hst0 as [Hst0|[_ ->]]; [|simpl in Hl0; by rewrite lookup_empty in Hl0].
    destruct (separated_stats t uid st0 Hsep Hst0) as [_ Hall].
    destruct (Hall cid lsrc Hl0) as (src & Hsrc & Hc). congruence. }
  split; [exact Hst0|]. split; [exact Hs|]. split; [exact Hid|]. split; [exact Hcid|].
  split; [|split; [|exact Heq]].
  - intros id ls' Hne Hls' <-.
    destruct Hu as [[Hls _]|(_ & Hnone & _)].
    + by apply Hne, (separated_universe_inj t id uid ls').
    + destruct Hsep as [HA _]. destruct (HA id ls' Hls') as (st & Hst & _). congruence.
  - intros id c st l Hst Hl Hne <-.
    destruct (separated_stats t id st Hsep Hst) as [_ Hall].
    destruct (Hall c l Hl) as (src & Hsrc & Hc).
    destruct Hs as [(Hl0 & Hsrc0 & _)|(_ & Hnone & _)]; [|congruence].
    destruct Hst0 as [Hst0|[Hn ->]]; [|simpl in Hl0; by rewrite lookup_empty in Hl0].
    pose proof (proj2 Hsep id uid st st0 c cid l Hst Hl Hst0 Hl0) as ->.
    assert (st = st0) as -> by congruence.
    destruct (Hall cid l Hl0) as (src' & Hsrc' & Hc').
    apply Hne. f_equal. congruence.
Qed.

(** What [RecordPacket] leaves for the other universes and sources. *)
Lemma RecordPacket_other now uid cid name seq t :
  separated t →
  let t' := RecordPacket now uid cid name seq t in
  (∀ id, id ≠ uid → statsOf id t' = statsOf id t) ∧
  (∀ id c, (id, c) ≠ (uid, cid) → sourceOf id c t' = sourceOf id c t).
Proof.
  intros Hsep t'.
  destruct (RecordPacket_sep now uid cid name seq t Hsep)
    as (ls & lsrc & st0 & src0 & ex & Hst0 & Hs & Hid & Hcid & Hls & Hptr & Heq).
  simpl in Heq. subst t'. rewrite Heq. clear Heq.
  set (chk := checkLoss ex src0 st0 seq).
  assert (Hother : ∀ id, id ≠ uid →
            statsOf id {| universes := <[uid:=ls]> (universes t);
                          rateWindow := rateWindow t;
                          statsStore := <[ls:=statsAfter now (rateWindow t)
                               (<[cid:=lsrc]> (UniverseStats.Sources st0)) chk st0]>
                               (statsStore t);
                          sourceStore := <[lsrc:=sourceAfter now name seq chk src0]>
                               (sourceStore t) |} = statsOf id t).
  { intros id Hne. rewrite !statsOf_unfold. simpl.
    rewrite lookup_insert_ne by done.
    destruct (universes t !! id) as [ls'|] eqn:Hls'; [|done].
    rewrite lookup_insert_ne; [done|]. intros E. by apply (Hls id ls'). }
  split; [exact Hother|].
  intros id c Hne. rewrite !sourceOf_unfold.
  destruct (decide (id = uid)) as [->|Hne'].
  - assert (Hc : c ≠ cid) by (intros ->; done).
    rewrite statsOf_unfold. simpl. rewrite !lookup_insert_eq. simpl.
    rewrite lookup_insert_ne by done.
    destruct Hst0 as [Hst0|[Hn ->]].
    + rewrite Hst0.
      destruct (UniverseStats.Sources st0 !! c) as [l|] eqn:Hl; [|done].
      apply lookup_insert_ne. intros E. by apply (Hptr uid c st0 l).
    + rewrite Hn. simpl. by rewrite lookup_empty.
  - rewrite Hother by done.
    destruct (statsOf id t) as [st|] eqn:Hst; [|done].
    destruct (UniverseStats.Sources st !! c) as [l|] eqn:Hl; [|done].
    simpl. apply lookup_insert_ne. intros E. by apply (Hptr id c st l).
Qed.

Lemma separated_RecordPacket now uid cid name seq t :
  separated t → separated (RecordPacket now uid cid name seq t).
Proof.
  intros Hsep.
  destruct (RecordPacket_sep now uid cid name seq t Hsep)
    as (ls & lsrc & st0 & src0 & ex & Hst0 & Hs & Hid & Hcid & Hls & Hptr & Heq).
  simpl in Heq.
  destruct (RecordPacket_other now uid cid name seq t Hsep) as [Hso Hsrco].
  simpl in Hso, Hsrco.
  set (chk := checkLoss ex src0 st0 seq) in *.
  set (st' := statsAfter now (rateWindow t)
                (<[cid:=lsrc]> (UniverseStats.Sources st0)) chk st0) in *.
  set (src' := sourceAfter now name seq chk src0) in *.
  (* the sources of the universe before the call *)
  assert (Hold : ∀ c l, c ≠ cid → UniverseStats.Sources st0 !! c = Some l →
            statsOf uid t = Some st0).
  { intros c l _ Hl. destruct Hst0 as [H|[_ ->]]; [done|].
    simpl in Hl. by rewrite lookup_empty in Hl. }
  assert (HstOf' : statsOf uid (RecordPacket now uid cid name seq t) = Some st').
  { rewrite Heq, statsOf_unfold. simpl. by rewrite !lookup_insert_eq. }
  (* who holds a pointer to a source after the call *)
  assert (Hown : ∀ id st c l,
            statsOf id (RecordPacket now uid cid name seq t) = Some st →
            UniverseStats.Sources st !! c = Some l →
            (id = uid ∧ c = cid ∧ l = lsrc) ∨
            ((id, c) ≠ (uid, cid) ∧ l ≠ lsrc ∧
             ∃ st1, statsOf id t = Some st1 ∧ UniverseStats.Sources st1 !! c = Some l)).
  { intros id st c l Hst Hl.
    destruct (decide (id = uid)) as [->|Hne].
    - assert (st = st') as -> by congruence. simpl in Hl.
      destruct (decide (c = cid)) as [->|Hc].
      + rewrite lookup_insert_eq in Hl. left. split; [done|]. split; congruence.
      + rewrite lookup_insert_ne in Hl by done. right.
        assert ((uid, c) ≠ (uid, cid)) by congruence.
        split; [done|]. split; [by apply (Hptr uid c st0 l); eauto|].
        exists st0. split; [by apply (Hold c l)|done].
    - rewrite Hso in Hst by done. right.
      assert ((id, c) ≠ (uid, cid)) by congruence.
      split; [done|]. split; [by apply (Hptr id c st l)|]. eauto. }
  split.
  - intros id ls0 Hls0. rewrite Heq in Hls0 |- *. simpl in *.
    destruct (decide (id = uid)) as [->|Hne].
    + rewrite lookup_insert_eq in Hls0. injection Hls0 as <-.
      exists st'. rewrite lookup_insert_eq. split; [done|]. split; [done|].
      intros c l Hl. fold st' src'.
      destruct (Hown uid st' c l HstOf' Hl) as [(_ & -> & ->)|(_ & Hl' & st1 & Hst1 & Hl1)].
      * exists src'. by rewrite lookup_insert_eq.
      * destruct (separated_stats t uid st1 Hsep Hst1) as [_ Hall].
        destruct (Hall c l Hl1) as (src & Hsrc & Hc).
        exists src. by rewrite lookup_insert_ne.
    + rewrite lookup_insert_ne in Hls0 by done.
      destruct (proj1 Hsep id ls0 Hls0) as (st & Hst & Hi & Hall).
      exists st. rewrite lookup_insert_ne by (intros E; by apply (Hls id ls0)).
      split; [done|]. split; [done|].
      intros c l Hl. destruct (Hall c l Hl) as (src & Hsrc & Hc).
      exists src. rewrite lookup_insert_ne; [done|].
      intros E. apply (Hptr id c st l); [|done|congruence|done].
      by rewrite statsOf_unfold, Hls0.
  - intros id1 id2 st1 st2 c1 c2 l H1 Hl1 H2 Hl2.
    destruct (Hown id1 st1 c1 l H1 Hl1) as [(-> & _ & ->)|(_ & Hn1 & s1 & Hs1 & Hls1)];
      destruct (Hown id2 st2 c2 _ H2 Hl2) as [(-> & _ & E2)|(_ & Hn2 & s2 & Hs2 & Hls2)];
      try done.
    by apply (proj2 Hsep id1 id2 s1 s2 c1 c2 l).
Qed.

(** What [ResetUniverseStats] leaves of a universe and of a source. *)
Lemma ResetUniverseStats_keeps uid t :
  let t' := ResetUniverseStats uid t in
  universes t' = universes t ∧
  (∀ ls, statsStore t' !! ls = statsStore t !! ls ∨
         ∃ st, statsStore t !! ls = Some st ∧ statsStore t' !! ls = Some (resetStats st)) ∧
  (∀ l, sourceStore t' !! l = sourceStore t !! l ∨
        sourceStore t' !! l = resetSource <$> sourceStore t !! l).
Proof.
  unfold ResetUniverseStats.
  destruct (universes t !! uid) as [ls|] eqn:Hls; [|by auto].
  destruct (statsStore t !! ls) as [st|] eqn:Hst; [|by auto]. simpl.
  split; [done|]. split.
  - intros ls'. destruct (decide (ls' = ls)) as [->|Hne].
    + right. exists st. by rewrite lookup_insert_eq.
    + left. by apply lookup_insert_ne.
  - intros l. by destruct (resetFold (sourceStore t) (UniverseStats.Sources st) l).
Qed.

Lemma ResetUniverseStats_statsOf uid t id st' :
  statsOf id (ResetUniverseStats uid t) = Some st' →
  ∃ st, statsOf id t = Some st ∧
        UniverseStats.Sources st' = UniverseStats.Sources st ∧
        UniverseStats.UniverseID st' = UniverseStats.UniverseID st.
Proof.
  destruct (ResetUniverseStats_keeps uid t) as (Hu & Hs & _). simpl in *.
  rewrite !statsOf_unfold, Hu.
  destruct (universes t !! id) as [ls|]; [|done].
  destruct (Hs ls) as [->|(st & -> & ->)]; [eauto|].
  intros [= <-]. eauto.
Qed.

Lemma separated_ResetUniverseStats uid t :
  separated t → separated (ResetUniverseStats uid t).
Proof.
  intros Hsep.
  destruct (ResetUniverseStats_keeps uid t) as (Hu & Hs & Hm). simpl in *.
  split.
  - intros id ls Hls. rewrite Hu in Hls.
    destruct (proj1 Hsep id ls Hls) as (st & Hst & Hid & Hall).
    assert (Hsrc : ∀ cid l, UniverseStats.Sources st !! cid = Some l →
              ∃ src, sourceStore (ResetUniverseStats uid t) !! l = Some src ∧
                     Source.CID src = cid).
    { intros cid l Hl. destruct (Hall cid l Hl) as (src & Hsrc & Hc).
      destruct (Hm l) as [->| ->]; [eauto|]. rewrite Hsrc. simpl. eauto. }
    destruct (Hs ls) as [E|(st1 & Hst1 & E)].
    + exists st. by rewrite E.
    + assert (st1 = st) as -> by congruence.
      exists (resetStats st). by rewrite E.
  - intros id1 id2 st1 st2 c1 c2 l H1 Hl1 H2 Hl2.
    destruct (ResetUniverseStats_statsOf _ _ _ _ H1) as (s1 & Hs1 & E1 & _).
    destruct (ResetUniverseStats_statsOf _ _ _ _ H2) as (s2 & Hs2 & E2 & _).
    rewrite E1 in Hl1. rewrite E2 in Hl2.
    by apply (proj2 Hsep id1 id2 s1 s2 c1 c2 l).
Qed.

Lemma separated_ResetAllStats t : separated (ResetAllStats t).
Proof.
  split.
  - intros id ls H. simpl in H. by rewrite lookup_empty in H.
  - intros id1 id2 st1 st2 cid1 cid2 l H. rewrite statsOf_unfold in H. simpl in H.
    by rewrite lookup_empty in H.
Qed.

Lemma separated_GetSources o uid t :
  separated t → separated (GetSources o uid t).2.
Proof.
  intros Hsep.
  destruct (allocSources_read (sourceValues o uid t) (sourceStore t)) as (_ & Hsub & _).
  split.
  - intros id ls Hls. simpl in *.
    destruct (proj1 Hsep id ls Hls) as (st & Hst & Hid & Hall).
    exists st. split; [done|]. split; [done|].
    intros cid l Hl. destruct (Hall cid l Hl) as (src & Hsrc & Hc).
    exists src. split; [|done]. by apply (lookup_weaken _ _ _ _ Hsrc).
  - intros id1 id2 st1 st2 c1 c2 l H1 Hl1 H2 Hl2.
    by apply (proj2 Hsep id1 id2 st1 st2 c1 c2 l).
Qed.

Lemma separated_call t c : separated t → separated (call t c).
Proof.
  intros Hsep. destruct c; simpl.
  - by apply separated_RecordPacket.
  - by apply separated_ResetUniverseStats.
  - apply separated_ResetAllStats.
  - by apply separated_GetSources.
Qed.

Lemma fold_call_ind (P : Tracker → Prop) (cs : list Call) (t : Tracker) :
  (∀ t c, P t → P (call t c)) → P t → P (fold_left call cs t).
Proof.
  intros Hstep. revert t. induction cs as [|c cs IH]; intros t Ht; simpl; [done|].
  apply IH. by apply Hstep.
Qed.

(** X14: after any sequence of [RecordPacket], [ResetUniverseStats],
    [ResetAllStats] and [GetSources] calls on a new tracker, every pointer
    of the tracker refers to a variable, every [UniverseStats] is
    registered under its own ID and every [Source] under its own CID, and
    no [Source] variable is registered twice. *)
Theorem run_separated (cs : list Call) :
  separated (run cs) ∧ wf (run cs).
Proof.
  assert (H : separated (run cs)).
  { unfold run. apply fold_call_ind; [apply separated_call | apply separated_NewTracker]. }
  split; [exact H | by apply separated_wf].
Qed.


Lemma sumOver_empty (f : Source.t → Z) (mem : gmap loc Source.t) : sumOver f mem ∅ = 0.
Proof. unfold sumOver. apply map_fold_empty. Qed.

Lemma sumOver_insert (f : Source.t → Z) (mem : gmap loc Source.t)
    (sources : gmap (list byte) loc) (cid : list byte) (l : loc) :
  sources !! cid = None →
  sumOver f mem (<[cid := l]> sources) =
    sumOver f mem sources + from_option f 0 (mem !! l).
Proof.
  intros Hn. unfold sumOver. rewrite map_fold_insert_L; [done| |done].
  intros. lia.
Qed.

(** The sum looks only at the variables the pointers refer to. *)
Lemma sumOver_ext (f g : Source.t → Z) (mem mem' : gmap loc Source.t)
    (sources : gmap (list byte) loc) :
  (∀ cid l, sources !! cid = Some l →
     from_option f 0 (mem' !! l) = from_option g 0 (mem !! l)) →
  sumOver f mem' sources = sumOver g mem sources.
Proof.
  induction sources as [|cid l sources Hn IH] using map_ind; intros H.
  { by rewrite !sumOver_empty. }
  rewrite !sumOver_insert by done. rewrite IH.
  - f_equal. apply (H cid). apply lookup_insert_eq.
  - intros c l' Hl'. apply (H c). rewrite lookup_insert_ne; [done|]. congruence.
Qed.

Lemma sumOver_zero (f : Source.t → Z) (mem : gmap loc Source.t)
    (sources : gmap (list byte) loc) :
  (∀ cid l, sources !! cid = Some l → from_option f 0 (mem !! l) = 0) →
  sumOver f mem sources = 0.
Proof.
  induction sources as [|cid l sources Hn IH] using map_ind; intros H.
  { apply sumOver_empty. }
  rewrite sumOver_insert by done. rewrite IH.
  - rewrite (H cid l); [done|]. apply lookup_insert_eq.
  - intros c l' Hl'. apply (H c). rewrite lookup_insert_ne; [done|]. congruence.
Qed.

(** Taking one source out of the sum. *)
Lemma sumOver_delete (f : Source.t → Z) (mem : gmap loc Source.t)
    (sources : gmap (list byte) loc) (cid : list byte) (l : loc) :
  sources !! cid = Some l →
  sumOver f mem sources =
    sumOver f mem (delete cid sources) + from_option f 0 (mem !! l).
Proof.
  intros Hl. rewrite <- (insert_delete_id sources cid l Hl) at 1.
  apply sumOver_insert, lookup_delete_eq.
Qed.

(** The loss check either leaves both lost counters or adds the same
    number to both. *)
Lemma checkLoss_both ex src st seq :
  let chk := checkLoss ex src st seq in
  (sourceLost chk = Source.LostPackets src ∧
   universeLost chk = UniverseStats.LostPackets st) ∨
  ∃ g, sourceLost chk = u64_add (Source.LostPackets src) g ∧
       universeLost chk = u64_add (UniverseStats.LostPackets st) g.
Proof.
  unfold checkLoss.
  destruct (ex && (0 <? Source.PacketCount src)); [|by left].
  destruct (negb (seq =? expectedSeq (Source.LastSequence src))); [|by left].
  destruct (gap seq (expectedSeq (Source.LastSequence src)) <? sourceRestartThreshold);
    [|by left].
  right. eauto.
Qed.

Lemma balanced_NewTracker : balanced NewTracker.
Proof.
  intros id st H. rewrite statsOf_unfold in H. simpl in H.
  by rewrite lookup_empty in H.
Qed.

Lemma balanced_RecordPacket now uid cid name seq t :
  separated t → balanced t → balanced (RecordPacket now uid cid name seq t).
Proof.
  intros Hsep Hbal.
  destruct (RecordPacket_sep now uid cid name seq t Hsep)
    as (ls & lsrc & st0 & src0 & ex & Hst0 & Hs & Hid & Hcid & Hls & Hptr & Heq).
  simpl in Heq.
  destruct (RecordPacket_other now uid cid name seq t Hsep) as [Hso _].
  simpl in Hso.
  set (chk := checkLoss ex src0 st0 seq) in *.
  set (src' := sourceAfter now name seq chk src0) in *.
  intros id st Hst.
  destruct (decide (id = uid)) as [->|Hne].
  2:{ rewrite Hso in Hst by done.
      destruct (Hbal id st Hst) as [Hp Hl].
      rewrite Heq. simpl.
      rewrite (sumOver_ext Source.PacketCount Source.PacketCount (sourceStore t)),
              (sumOver_ext Source.LostPackets Source.LostPackets (sourceStore t)); [done| |].
      - intros c l Hcl. rewrite lookup_insert_ne; [done|].
        intros E. apply (Hptr id c st l); [done|done|congruence|done].
      - intros c l Hcl. rewrite lookup_insert_ne; [done|].
        intros E. apply (Hptr id c st l); [done|done|congruence|done]. }
  rewrite Heq, statsOf_unfold in Hst. simpl in Hst.
  rewrite !lookup_insert_eq in Hst. injection Hst as <-.
  rewrite Heq. simpl.
  set (D := delete cid (UniverseStats.Sources st0)).
  rewrite <- (insert_delete_eq (UniverseStats.Sources st0)). fold D.
  assert (HD : D !! cid = None) by apply lookup_delete_eq.
  rewrite !sumOver_insert by done. rewrite !lookup_insert_eq. simpl.
  (* the other sources of the universe are behind other pointers *)
  assert (Hrest : ∀ f, sumOver f (<[lsrc:=src']> (sourceStore t)) D =
                       sumOver f (sourceStore t) D).
  { intros f. apply sumOver_ext. intros c l Hcl.
    apply lookup_delete_Some in Hcl as [Hc Hcl].
    rewrite lookup_insert_ne; [done|]. intros E.
    destruct Hst0 as [Hst0|[_ ->]]; [|simpl in Hcl; by rewrite lookup_empty in Hcl].
    apply (Hptr uid c st0 l); [done|done|congruence|done]. }
  rewrite !Hrest.
  (* the counters before the call *)
  assert (Hbefore :
    UniverseStats.PacketCount st0 =
      (sumOver Source.PacketCount (sourceStore t) D + Source.PacketCount src0)
        mod u64_modulus ∧
    UniverseStats.LostPackets st0 =
      (sumOver Source.LostPackets (sourceStore t) D + Source.LostPackets src0)
        mod u64_modulus).
  { destruct Hs as [(Hl0 & Hsrc0 & _)|(Hl0 & _ & -> & _)].
    - destruct Hst0 as [Hst0|[_ ->]]; [|simpl in Hl0; by rewrite lookup_empty in Hl0].
      destruct (Hbal uid st0 Hst0) as [Hp Hl].
      rewrite (sumOver_delete _ _ _ cid lsrc Hl0), Hsrc0 in Hp.
      rewrite (sumOver_delete _ _ _ cid lsrc Hl0), Hsrc0 in Hl. done.
    - simpl. rewrite !Z.add_0_r. unfold D. rewrite delete_id by done.
      destruct Hst0 as [Hst0|[_ ->]].
      + apply (Hbal uid st0 Hst0).
      + simpl. by rewrite !sumOver_empty. }
  destruct Hbefore as [Hp Hl]. unfold u64_add in *.
  split.
  - rewrite Hp. rewrite Z.add_mod_idemp_l by (unfold u64_modulus; lia).
    rewrite Z.add_mod_idemp_r by (unfold u64_modulus; lia). f_equal. lia.
  - destruct (checkLoss_both ex src0 st0 seq) as [[E1 E2]|(g & E1 & E2)];
      fold chk in E1, E2; rewrite E1, E2.
    + exact Hl.
    + unfold u64_add. rewrite Hl.
      rewrite Z.add_mod_idemp_l by (unfold u64_modulus; lia).
      rewrite Z.add_mod_idemp_r by (unfold u64_modulus; lia). f_equal. lia.
Qed.

Lemma balanced_ResetUniverseStats uid t :
  separated t → balanced t → balanced (ResetUniverseStats uid t).
Proof.
  intros Hsep Hbal. unfold ResetUniverseStats.
  destruct (universes t !! uid) as [ls|] eqn:Hls; [|done].
  destruct (statsStore t !! ls) as [st|] eqn:Hst; [|done].
  assert (Hstu : statsOf uid t = Some st) by (by rewrite statsOf_unfold, Hls).
  intros id st' Hst'. rewrite statsOf_unfold in Hst'. simpl in Hst'. simpl.
  destruct (universes t !! id) as [ls'|] eqn:Hls'; [|done]. simpl in Hst'.
  destruct (decide (ls' = ls)) as [->|Hne].
  - rewrite lookup_insert_eq in Hst'. injection Hst' as <-. simpl.
    rewrite !sumOver_zero; [done| |].
    + intros cid l Hl.
      destruct (resetFold (sourceStore t) (UniverseStats.Sources st) l) as (_ & Hin & _).
      rewrite Hin by eauto. by destruct (sourceStore t !! l).
    + intros cid l Hl.
      destruct (resetFold (sourceStore t) (UniverseStats.Sources st) l) as (_ & Hin & _).
      rewrite Hin by eauto. by destruct (sourceStore t !! l).
  - rewrite lookup_insert_ne in Hst' by done.
    assert (Hsti : statsOf id t = Some st') by (by rewrite statsOf_unfold, Hls').
    assert (Hid : id ≠ uid).
    { intros ->. congruence. }
    assert (Hout : ∀ cid l, UniverseStats.Sources st' !! cid = Some l →
              map_fold (fun (_ : list byte) (source : loc) mem => alter resetSource source mem)
                (sourceStore t) (UniverseStats.Sources st) !! l = sourceStore t !! l).
    { intros cid l Hl.
      destruct (resetFold (sourceStore t) (UniverseStats.Sources st) l) as (_ & _ & Hnot).
      apply Hnot. intros c Hc. apply Hid.
      apply (proj2 Hsep id uid st' st cid c l); done. }
    destruct (Hbal id st' Hsti) as [Hp Hl].
    rewrite (sumOver_ext Source.PacketCount Source.PacketCount (sourceStore t)),
            (sumOver_ext Source.LostPackets Source.LostPackets (sourceStore t)); [done| |].
    + intros cid l Hcl. by rewrite (Hout cid l Hcl).
    + intros cid l Hcl. by rewrite (Hout cid l Hcl).
Qed.

Lemma balanced_ResetAllStats t : balanced (ResetAllStats t).
Proof.
  intros id st H. rewrite statsOf_unfold in H. simpl in H.
  by rewrite lookup_empty in H.
Qed.

Lemma balanced_GetSources o uid t :
  separated t → balanced t → balanced (GetSources o uid t).2.
Proof.
  intros Hsep Hbal id st Hst.
  destruct (allocSources_read (sourceValues o uid t) (sourceStore t)) as (_ & Hsub & _).
  assert (Hsti : statsOf id t = Some st) by (by rewrite statsOf_unfold in *).
  destruct (Hbal id st Hsti) as [Hp Hl]. simpl.
  destruct (separated_stats t id st Hsep Hsti) as [_ Hall].
  rewrite (sumOver_ext Source.PacketCount Source.PacketCount (sourceStore t)),
          (sumOver_ext Source.LostPackets Source.LostPackets (sourceStore t)); [done| |].
  - intros cid l Hcl. destruct (Hall cid l Hcl) as (src & Hsrc & _).
    by rewrite Hsrc, (lookup_weaken _ _ _ _ Hsrc Hsub).
  - intros cid l Hcl. destruct (Hall cid l Hcl) as (src & Hsrc & _).
    by rewrite Hsrc, (lookup_weaken _ _ _ _ Hsrc Hsub).
Qed.

(** X15: after any sequence of calls on a new tracker, the packet counter
    and the lost counter of every universe equal the sums of the counters
    of its sources, modulo [2^64]. *)
Theorem run_balanced (cs : list Call) (id : Z) (st : UniverseStats.t) :
  statsOf id (run cs) = Some st →
  UniverseStats.PacketCount st =
    sumOver Source.PacketCount (sourceStore (run cs)) (UniverseStats.Sources st)
      mod u64_modulus ∧
  UniverseStats.LostPackets st =
    sumOver Source.LostPackets (sourceStore (run cs)) (UniverseStats.Sources st)
      mod u64_modulus.
Proof.
  assert (H : separated (run cs) ∧ balanced (run cs)).
  { unfold run.
    apply (fold_call_ind (λ t, separated t ∧ balanced t)).
    - intros t c [Hsep Hbal]. split; [by apply separated_call|].
      destruct c; simpl.
      + by apply balanced_RecordPacket.
      + by apply balanced_ResetUniverseStats.
      + apply balanced_ResetAllStats.
      + by apply balanced_GetSources.
    - split; [apply separated_NewTracker | apply balanced_NewTracker]. }
  apply (proj2 H).
Qed.

Lemma run_balanced_witness :
  let cs := [CallRecordPacket 1000 1 sampleCID "desk" 0;
             CallRecordPacket 2000 1 sampleCID "desk" 5;
             CallRecordPacket 2500 1 (replicate 16 x07) "wing" 9] in
  ∃ st, statsOf 1 (run cs) = Some st ∧
    UniverseStats.PacketCount st =
      sumOver Source.PacketCount (sourceStore (run cs)) (UniverseStats.Sources st)
        mod u64_modulus ∧
    UniverseStats.LostPackets st =
      sumOver Source.LostPackets (sourceStore (run cs)) (UniverseStats.Sources st)
        mod u64_modulus.
Proof.
  intros cs.
  destruct (statsOf 1 (run cs)) as [st|] eqn:Hst.
  - exists st. split; [reflexivity|]. exact (run_balanced cs 1 st Hst).
  - exfalso. vm_compute in Hst. discriminate Hst.
Defined.

End TrackerRun.

(** ** Single calls on the tracker *)

Section TrackerCalls.
Import Stats StatsRun StatsLoops.

Lemma count_fold_filter (cutoff : Time) (w : list Time) (n : Z) :
  fold_left (fun count pt => if After pt cutoff then count + 1 else count) w n =
  n + Z.of_nat (length (pruneTimes cutoff w)).
Proof.
  revert n. induction w as [|pt w IH]; intros n; [simpl; lia|].
  cbn [fold_left]. rewrite IH. unfold pruneTimes. rewrite filter_cons.
  destruct (decide (After pt cutoff = true)) as [E|E].
  - rewrite E. cbn [length]. lia.
  - apply not_true_is_false in E. rewrite E. lia.
Qed.

(** Pruning at an earlier cutoff loses nothing that a later cutoff keeps. *)
Lemma pruneTimes_twice (c c' : Time) (w : list Time) :
  c ≤ c' → pruneTimes c' (pruneTimes c w) = pruneTimes c' w.
Proof.
  intros Hc. unfold pruneTimes. induction w as [|pt w IH]; [done|].
  rewrite !filter_cons.
  destruct (decide (After pt c' = true)) as [H'|H'].
  - rewrite decide_True by (unfold After in *; lia).
    rewrite filter_cons, decide_True by done. by rewrite IH.
  - destruct (decide (After pt c = true)); [|done].
    rewrite filter_cons, decide_False by done. done.
Qed.

Lemma pruneEvents_twice (c c' : Time) (w : list PacketEvent) :
  c ≤ c' → pruneEvents c' (pruneEvents c w) = pruneEvents c' w.
Proof.
  intros Hc. unfold pruneEvents. induction w as [|evt w IH]; [done|].
  rewrite !filter_cons.
  destruct (decide (After (Timestamp evt) c' = true)) as [H'|H'].
  - rewrite decide_True by (unfold After in *; lia).
    rewrite filter_cons, decide_True by done. by rewrite IH.
  - destruct (decide (After (Timestamp evt) c = true)); [|done].
    rewrite filter_cons, decide_False by done. done.
Qed.

Lemma totals_fold_filter (cutoff : Time) (w : list PacketEvent) (totals : Z * Z) :
  fold_left
    (fun (totals : Z * Z) evt =>
       if After (Timestamp evt) cutoff
       then (u64_add totals.1 (Received evt), u64_add totals.2 (Lost evt))
       else totals) w totals =
  fold_left
    (fun (totals : Z * Z) evt =>
       (u64_add totals.1 (Received evt), u64_add totals.2 (Lost evt)))
    (pruneEvents cutoff w) totals.
Proof.
  revert totals. induction w as [|evt w IH]; intros totals; [done|].
  cbn [fold_left]. rewrite IH. unfold pruneEvents. rewrite filter_cons.
  destruct (decide (After (Timestamp evt) cutoff = true)) as [E|E].
  - by rewrite E.
  - apply not_true_is_false in E. by rewrite E.
Qed.

(** What [RecordPacket] leaves behind the pointer of its universe. *)
Lemma RecordPacket_stats now uid cid name seq t :
  wf t →
  let st0 := default (newStats uid) (statsOf uid t) in
  let t' := RecordPacket now uid cid name seq t in
  rateWindow t' = rateWindow t ∧
  ∃ sources chk,
    statsOf uid t' = Some (statsAfter now (rateWindow t) sources chk st0) ∧
    chk = checkLoss (bool_decide (is_Some (UniverseStats.Sources st0 !! cid)))
            (default (newSource cid name) (sourceOf uid cid t)) st0 seq.
Proof.
  intros Hwf st0 t'. subst st0 t'.
  destruct (RecordPacket_shape now uid cid name seq t Hwf)
    as (ls & lsrc & st0 & src0 & ex & Hu & Hs & Heq).
  simpl in Heq. rewrite Heq. simpl. split; [done|].
  assert (Hst : default (newStats uid) (statsOf uid t) = st0).
  { rewrite statsOf_unfold. by destruct Hu as [[-> ->]|(-> & _ & ->)]. }
  rewrite Hst. eexists _, _. split.
  { rewrite statsOf_unfold. simpl. by rewrite !lookup_insert_eq. }
  f_equal.
  - destruct Hs as [(-> & _ & ->)|(-> & _ & _ & ->)].
    + by rewrite bool_decide_eq_true_2 by eauto.
    + by rewrite bool_decide_eq_false_2 by (by intros [? ?]).
  - rewrite sourceOf_unfold.
    destruct Hu as [[Hls Hst0]|(Hls & _ & ->)].
    + rewrite statsOf_unfold, Hls. simpl. rewrite Hst0. simpl.
      destruct Hs as [(-> & -> & _)|(-> & _ & -> & _)]; done.
    + rewrite statsOf_unfold, Hls. simpl.
      destruct Hs as [(Hl & _)|(_ & _ & -> & _)]; [|done].
      simpl in Hl. by rewrite lookup_empty in Hl.
Qed.

(** The count of a later rate query. *)
Lemma packetRateCount_after now uid cid name seq t (q : Time) :
  wf t → now ≤ q →
  packetRateCount q uid (RecordPacket now uid cid name seq t) =
    Some (default 0 (packetRateCount q uid t) +
          (if After now (Add q (- rateWindow t)) then 1 else 0)).
Proof.
  intros Hwf Hq. unfold packetRateCount.
  destruct (RecordPacket_stats now uid cid name seq t Hwf)
    as (Hrw & sources & chk & Hst & _).
  rewrite Hst, Hrw. simpl. f_equal.
  rewrite count_fold_filter, pruneTimes_twice by (unfold Add; lia).
  unfold pruneTimes at 1. rewrite filter_app, length_app.
  rewrite filter_cons, filter_nil.
  assert (Hold : default 0
            (match statsOf uid t with
             | Some stats =>
                 Some (fold_left
                         (fun count pt =>
                            if After pt (Add q (- rateWindow t)) then count + 1 else count)
                         (UniverseStats.packetsInWindow stats) 0)
             | None => None
             end) =
          Z.of_nat (length (pruneTimes (Add q (- rateWindow t))
             (UniverseStats.packetsInWindow (default (newStats uid) (statsOf uid t)))))).
  { destruct (statsOf uid t) as [st|]; simpl; [|done].
    by rewrite count_fold_filter. }
  rewrite Hold. unfold pruneTimes.
  destruct (decide (After now (Add q (- rateWindow t)) = true)) as [E|E].
  - rewrite E. cbn [length]. lia.
  - apply not_true_is_false in E. rewrite E. cbn [length]. lia.
Qed.

(** The totals of a later recent-loss query. *)
Lemma recentLossTotals_after now uid cid name seq t (q : Time) :
  wf t → now ≤ q →
  let st0 := default (newStats uid) (statsOf uid t) in
  let chk := checkLoss (bool_decide (is_Some (UniverseStats.Sources st0 !! cid)))
               (default (newSource cid name) (sourceOf uid cid t)) st0 seq in
  let old := default (0, 0) (recentLossTotals q uid t) in
  recentLossTotals q uid (RecordPacket now uid cid name seq t) =
    Some (if After now (Add q (- lossWindowDuration))
          then (u64_add old.1 1, u64_add old.2 (lostThisPacket chk))
          else old).
Proof.
  intros Hwf Hq st0 chk old. subst old. unfold recentLossTotals.
  destruct (RecordPacket_stats now uid cid name seq t Hwf)
    as (Hrw & sources & chk' & Hst & Hchk).
  fold st0 in Hst, Hchk. fold chk in Hchk. subst chk'.
  rewrite Hst. cbn [statsAfter UniverseStats.lossWindow]. f_equal.
  rewrite totals_fold_filter, pruneEvents_twice by (unfold Add; lia).
  unfold pruneEvents at 1. rewrite filter_app, fold_left_app.
  rewrite filter_cons, filter_nil. cbn [Timestamp].
  assert (Hold : default (0, 0)
            (match statsOf uid t with
             | Some stats =>
                 Some (fold_left
                   (fun (totals : Z * Z) evt =>
                      if After (Timestamp evt) (Add q (- lossWindowDuration))
                      then (u64_add totals.1 (Received evt), u64_add totals.2 (Lost evt))
                      else totals)
                   (UniverseStats.lossWindow stats) (0, 0))
             | None => None
             end) =
          fold_left
            (fun (totals : Z * Z) evt =>
               (u64_add totals.1 (Received evt), u64_add totals.2 (Lost evt)))
            (pruneEvents (Add q (- lossWindowDuration)) (UniverseStats.lossWindow st0))
            (0, 0)).
  { subst st0. destruct (statsOf uid t) as [st|]; simpl; [|done].
    by rewrite totals_fold_filter. }
  rewrite Hold. unfold pruneEvents.
  destruct (decide (After now (Add q (- lossWindowDuration)) = true)) as [E|E].
  - by rewrite E.
  - apply not_true_is_false in E. by rewrite E.
Qed.

(** X16: the rate and recent-loss queries made at [q], not before a
    packet was recorded. The rate query counts the packet if and only
    if it lies in the rate window of [q]; the recent-loss query adds one
    received packet and the packets that the loss check of this packet
    counted as lost, if the packet lies in the last minute before [q].
    Both count what was recorded before as they would have without
    this packet: the pruning that [RecordPacket] does changes no later
    result. *)
Theorem window_queries_after_RecordPacket now uid cid name seq t (q : Time) :
  wf t → now ≤ q →
  let st0 := default (newStats uid) (statsOf uid t) in
  let chk := checkLoss (bool_decide (is_Some (UniverseStats.Sources st0 !! cid)))
               (default (newSource cid name) (sourceOf uid cid t)) st0 seq in
  let old := default (0, 0) (recentLossTotals q uid t) in
  let t' := RecordPacket now uid cid name seq t in
  packetRateCount q uid t' =
    Some (default 0 (packetRateCount q uid t) +
          (if After now (Add q (- rateWindow t)) then 1 else 0)) ∧
  recentLossTotals q uid t' =
    Some (if After now (Add q (- lossWindowDuration))
          then (u64_add old.1 1, u64_add old.2 (lostThisPacket chk))
          else old).
Proof.
  intros Hwf Hq st0 chk old t'. split.
  - by apply packetRateCount_after.
  - by apply recentLossTotals_after.
Qed.

Lemma window_queries_after_RecordPacket_witness :
  let t := RecordPacket 1000 1 sampleCID "desk" 0 NewTracker in
  let t' := RecordPacket 2000 1 sampleCID "desk" 4 t in
  packetRateCount (Second + 1500) 1 t' = Some 1 ∧
  recentLossTotals 5000 1 t' = Some (2, 3).
Proof.
  intros t t'.
  assert (Hwf : wf t) by apply wf_RecordPacket, wf_NewTracker.
  split.
  - etrans.
    + apply (window_queries_after_RecordPacket 2000 1 sampleCID "desk"%string 4 t
               (Second + 1500) Hwf).
      vm_compute. discriminate.
    + vm_compute. reflexivity.
  - etrans.
    + apply (window_queries_after_RecordPacket 2000 1 sampleCID "desk"%string 4 t
               5000 Hwf).
      vm_compute. discriminate.
    + vm_compute. reflexivity.
Defined.

(** The universe and the source of a packet after [RecordPacket]. *)
Lemma RecordPacket_here now uid cid name seq t :
  separated t →
  let t' := RecordPacket now uid cid name seq t in
  ∃ st' src',
    statsOf uid t' = Some st' ∧ sourceOf uid cid t' = Some src' ∧
    UniverseStats.UniverseID st' = uid ∧
    UniverseStats.PacketCount st' =
      u64_add (from_option UniverseStats.PacketCount 0 (statsOf uid t)) 1 ∧
    UniverseStats.LastPacket st' = now ∧
    Source.CID src' = cid ∧ Source.Name src' = name ∧
    Source.LastSequence src' = seq ∧ Source.LastSeen src' = now ∧
    Source.PacketCount src' =
      u64_add (from_option Source.PacketCount 0 (sourceOf uid cid t)) 1.
Proof.
  intros Hsep t'. subst t'.
  destruct (RecordPacket_sep now uid cid name seq t Hsep)
    as (ls & lsrc & st0 & src0 & ex & Hst0 & Hs & Hid & Hcid & _ & _ & Heq).
  simpl in Heq. rewrite Heq. clear Heq.
  eexists _, _. split; [|split].
  { rewrite statsOf_unfold. simpl. by rewrite !lookup_insert_eq. }
  { rewrite sourceOf_unfold, statsOf_unfold. simpl.
    rewrite !lookup_insert_eq. simpl. by rewrite !lookup_insert_eq. }
  simpl. split; [done|]. split.
  { destruct Hst0 as [->|[-> ->]]; done. }
  split; [done|]. split; [done|]. split; [done|]. split; [done|]. split; [done|].
  rewrite sourceOf_unfold.
  destruct Hst0 as [->|[-> ->]]; simpl.
  - destruct Hs as [(-> & -> & _)|(-> & _ & -> & _)]; done.
  - destruct Hs as [(Hl & _)|(_ & _ & -> & _)]; [|done].
    simpl in Hl. by rewrite lookup_empty in Hl.
Qed.

(** X17: in a tracker whose variables are registered once,
    [RecordPacket] counts the packet in its universe and in its source,
    stamps both with the time and stores the name and the sequence
    number, and changes the statistics of no other universe and no
    other source. *)
Theorem RecordPacket_effect now uid cid name seq t :
  separated t →
  let t' := RecordPacket now uid cid name seq t in
  (∃ st' src',
     statsOf uid t' = Some st' ∧ sourceOf uid cid t' = Some src' ∧
     UniverseStats.UniverseID st' = uid ∧
     UniverseStats.PacketCount st' =
       u64_add (from_option UniverseStats.PacketCount 0 (statsOf uid t)) 1 ∧
     UniverseStats.LastPacket st' = now ∧
     Source.CID src' = cid ∧ Source.Name src' = name ∧
     Source.LastSequence src' = seq ∧ Source.LastSeen src' = now ∧
     Source.PacketCount src' =
       u64_add (from_option Source.PacketCount 0 (sourceOf uid cid t)) 1) ∧
  (∀ id, id ≠ uid → statsOf id t' = statsOf id t) ∧
  (∀ id c, (id, c) ≠ (uid, cid) → sourceOf id c t' = sourceOf id c t).
Proof.
  intros Hsep t'. split.
  - apply (RecordPacket_here now uid cid name seq t Hsep).
  - apply (RecordPacket_other now uid cid name seq t Hsep).
Qed.

Lemma RecordPacket_effect_witness :
  let t := RecordPacket 1000 1 sampleCID "desk" 0 NewTracker in
  let t' := RecordPacket 2000 2 sampleCID "desk" 7 t in
  statsOf 1 t' = statsOf 1 t ∧ sourceOf 1 sampleCID t' = sourceOf 1 sampleCID t.
Proof.
  intros t t'.
  destruct (RecordPacket_effect 2000 2 sampleCID "desk"%string 7 t) as (_ & Hst & Hsrc).
  - apply separated_RecordPacket, separated_NewTracker.
  - split; [apply Hst | apply Hsrc]; intros H; discriminate H.
Defined.

Lemma resetSource_fold_twice (mem : gmap loc Source.t) (sources : gmap (list byte) loc) :
  let reset := map_fold (fun (_ : list byte) (source : loc) mem =>
                           alter resetSource source mem) in
  reset (reset mem sources) sources = reset mem sources.
Proof.
  intros reset. subst reset. apply map_eq. intros l.
  destruct (resetFold (map_fold (fun (_ : list byte) (source : loc) mem =>
                                   alter resetSource source mem) mem sources) sources l)
    as (_ & Hin & Hout).
  destruct (resetFold mem sources l) as (_ & Hin0 & _).
  destruct (decide (l ∈ (map_to_list sources).*2)) as [Hex|Hnex].
  - assert (Hex' : ∃ cid, sources !! cid = Some l).
    { apply list_elem_of_fmap in Hex as ([cid l'] & -> & Hin').
      exists cid. by apply elem_of_map_to_list. }
    rewrite (Hin Hex'), (Hin0 Hex'). apply resetSource_idemp.
  - apply Hout. intros cid Hc. apply Hnex.
    apply list_elem_of_fmap. exists (cid, l). split; [done|].
    by apply elem_of_map_to_list.
Qed.

(** X18: resetting the statistics of a universe twice is the same as
    resetting them once, and resetting a universe that is not tracked
    changes nothing. *)
Theorem ResetUniverseStats_idempotent uid t :
  ResetUniverseStats uid (ResetUniverseStats uid t) = ResetUniverseStats uid t ∧
  (statsOf uid t = None → ResetUniverseStats uid t = t).
Proof.
  unfold ResetUniverseStats at 2 3 4.
  rewrite statsOf_unfold. unfold GetUniverseStats.
  destruct (universes t !! uid) as [ls|] eqn:Hls; simpl.
  2:{ split; [|done]. unfold ResetUniverseStats. by rewrite Hls. }
  destruct (statsStore t !! ls) as [st|] eqn:Hst.
  2:{ split; [|done]. unfold ResetUniverseStats. by rewrite Hls, Hst. }
  split; [|done].
  unfold ResetUniverseStats. simpl. rewrite Hls, lookup_insert_eq. simpl.
  f_equal.
  - by rewrite insert_insert_eq.
  - apply (resetSource_fold_twice (sourceStore t) (UniverseStats.Sources st)).
Qed.


(** X19: in a tracker whose variables are registered once, resetting a
    universe changes the statistics of no other universe and of no
    source of another universe, and the tracked universes stay the
    same: every ID keeps its pointer, and [GetAllUniverseIDs] lists the
    same IDs, in the order of its loop, which may differ from one call
    to the next. *)
Theorem ResetUniverseStats_frame uid t :
  separated t →
  let t' := ResetUniverseStats uid t in
  (∀ id, GetUniverseStats id t' = GetUniverseStats id t) ∧
  (∀ o1 o2, GetAllUniverseIDs o1 t' ≡ₚ GetAllUniverseIDs o2 t) ∧
  ∀ id, id ≠ uid →
    statsOf id t' = statsOf id t ∧ ∀ c, sourceOf id c t' = sourceOf id c t.
Proof.
  intros Hsep t'. subst t'.
  pose proof (proj1 (ResetUniverseStats_keeps uid t)) as Hkeep. simpl in Hkeep.
  split.
  { intros id. unfold GetUniverseStats. by rewrite Hkeep. }
  split.
  { intros o1 o2. by apply GetAllUniverseIDs_perm. }
  intros id Hid.
  unfold ResetUniverseStats.
  destruct (universes t !! uid) as [ls|] eqn:Hls; [|done].
  destruct (statsStore t !! ls) as [st|] eqn:Hst; [|done].
  assert (Hstu : statsOf uid t = Some st) by (by rewrite statsOf_unfold, Hls).
  assert (Hso : statsOf id
            {| universes := universes t; rateWindow := rateWindow t;
               statsStore := <[ls:=resetStats st]> (statsStore t);
               sourceStore :=
                 map_fold (fun (_ : list byte) (source : loc) mem =>
                             alter resetSource source mem)
                   (sourceStore t) (UniverseStats.Sources st) |} = statsOf id t).
  { rewrite !statsOf_unfold. simpl.
    destruct (universes t !! id) as [ls'|] eqn:Hls'; [|done]. simpl.
    rewrite lookup_insert_ne; [done|]. intros <-.
    apply Hid. symmetry. by apply (separated_universe_inj t uid id ls). }
  split; [exact Hso|]. intros c.
  rewrite !sourceOf_unfold, Hso.
  destruct (statsOf id t) as [st'|] eqn:Hst'; [|done]. simpl.
  destruct (UniverseStats.Sources st' !! c) as [l|] eqn:Hl; [|done]. simpl.
  destruct (resetFold (sourceStore t) (UniverseStats.Sources st) l) as (_ & _ & Hnot).
  apply Hnot. intros c' Hc'. apply Hid.
  by apply (proj2 Hsep id uid st' st c c' l).
Qed.

Lemma ResetUniverseStats_frame_witness :
  let t := RecordPacket 2000 2 sampleCID "desk" 7
             (RecordPacket 1000 1 sampleCID "desk" 0 NewTracker) in
  let t' := ResetUniverseStats 2 t in
  GetAllUniverseIDs reversedOrder t' ≡ₚ GetAllUniverseIDs storedOrder t ∧
  statsOf 1 t' = statsOf 1 t ∧ sourceOf 1 sampleCID t' = sourceOf 1 sampleCID t.
Proof.
  intros t t'.
  destruct (ResetUniverseStats_frame 2 t) as (_ & Hids & Hother).
  - apply separated_RecordPacket, separated_RecordPacket, separated_NewTracker.
  - split; [apply Hids|].
    destruct (Hother 1) as [Hst Hsrc]; [intros H; discriminate H|].
    split; [exact Hst | apply Hsrc].
Defined.

(** X20: [ResetAllStats] forgets every universe, and the packet recorded
    next is the first packet of its universe and of its source, also
    for a source that was tracked before the reset: both count one
    packet and no lost packet. *)
Theorem ResetAllStats_forgets t :
  let t0 := ResetAllStats t in
  (∀ o, GetAllUniverseIDs o t0 = []) ∧
  (∀ id, GetUniverseStats id t0 = None) ∧
  ∀ now uid cid name seq,
    let t' := RecordPacket now uid cid name seq t0 in
    ∃ st' src',
      statsOf uid t' = Some st' ∧ sourceOf uid cid t' = Some src' ∧
      UniverseStats.PacketCount st' = 1 ∧ UniverseStats.LostPackets st' = 0 ∧
      Source.PacketCount src' = 1 ∧ Source.LostPackets src' = 0 ∧
      ∀ o, GetAllUniverseIDs o t' = [uid].
Proof.
  intros t0. subst t0. split; [|split].
  - intros o. unfold GetAllUniverseIDs, ResetAllStats. simpl.
    rewrite map_to_list_empty.
    by rewrite (proj1 (Permutation_nil_r _) (ranged_perm o [])).
  - intros id. unfold GetUniverseStats, ResetAllStats. simpl. apply lookup_empty.
  - intros now uid cid name seq t'. subst t'.
    destruct (RecordPacket_new_universe now uid cid name seq (ResetAllStats t))
      as ((sources & Hst) & Hsrc).
    { simpl. apply lookup_empty. }
    eexists _, _. split; [exact Hst|]. split; [exact Hsrc|].
    split; [done|]. split; [done|]. split; [done|]. split; [done|].
    assert (Hwf : wf (ResetAllStats t)).
    { intros id ls H. simpl in H. by rewrite lookup_empty in H. }
    destruct (RecordPacket_shape now uid cid name seq (ResetAllStats t) Hwf)
      as (ls & lsrc & st0 & src0 & ex & _ & _ & Heq).
    simpl in Heq. intros o. unfold GetAllUniverseIDs. rewrite Heq. simpl.
    rewrite insert_empty, map_to_list_singleton.
    by rewrite (proj1 (Permutation_singleton_r _ _) (ranged_perm o [(uid, ls)])).
Qed.


Lemma GetAllUniverseIDs_elem o id t :
  id ∈ GetAllUniverseIDs o t ↔ is_Some (GetUniverseStats id t).
Proof.
  unfold GetAllUniverseIDs, GetUniverseStats.
  rewrite (ranged_perm o), list_elem_of_fmap. split.
  - intros ([id' l] & -> & Hin). apply elem_of_map_to_list in Hin. eauto.
  - intros [l Hl]. exists (id, l). split; [done|]. by apply elem_of_map_to_list.
Qed.

(** X21: [GetAllUniverseIDs] lists every tracked universe once, in the
    order of its loop: two calls list the same IDs, possibly in
    different orders. Recording a packet adds the universe of the
    packet to the IDs listed and removes none, and neither
    [ResetUniverseStats] nor [GetSources] changes which IDs are
    listed. *)
Theorem GetAllUniverseIDs_spec t :
  wf t →
  (∀ o, NoDup (GetAllUniverseIDs o t)) ∧
  (∀ o id, id ∈ GetAllUniverseIDs o t ↔ is_Some (GetUniverseStats id t)) ∧
  (∀ o1 o2, GetAllUniverseIDs o1 t ≡ₚ GetAllUniverseIDs o2 t) ∧
  (∀ o o' now uid cid name seq id,
     id ∈ GetAllUniverseIDs o' (RecordPacket now uid cid name seq t) ↔
     id = uid ∨ id ∈ GetAllUniverseIDs o t) ∧
  (∀ o1 o2 uid,
     GetAllUniverseIDs o1 (ResetUniverseStats uid t) ≡ₚ GetAllUniverseIDs o2 t) ∧
  (∀ o1 o2 o uid,
     GetAllUniverseIDs o1 (GetSources o uid t).2 ≡ₚ GetAllUniverseIDs o2 t).
Proof.
  intros Hwf. split; [|split; [|split; [|split; [|split]]]].
  - intros o. unfold GetAllUniverseIDs. rewrite (ranged_perm o).
    apply NoDup_fst_map_to_list.
  - intros o id. apply GetAllUniverseIDs_elem.
  - intros o1 o2. by apply GetAllUniverseIDs_perm.
  - intros o o' now uid cid name seq id.
    rewrite !GetAllUniverseIDs_elem. unfold GetUniverseStats.
    destruct (RecordPacket_shape now uid cid name seq t Hwf)
      as (ls & lsrc & st0 & src0 & ex & _ & _ & Heq).
    simpl in Heq. rewrite Heq. simpl.
    destruct (decide (id = uid)) as [->|Hne].
    + rewrite lookup_insert_eq. split; [by left | eauto].
    + rewrite lookup_insert_ne by done. split; [by right | by intros [?|?]].
  - intros o1 o2 uid. apply GetAllUniverseIDs_perm.
    apply (proj1 (ResetUniverseStats_keeps uid t)).
  - intros o1 o2 o uid. by apply GetAllUniverseIDs_perm.
Qed.

Lemma GetAllUniverseIDs_spec_witness :
  let t := RecordPacket 1000 1 sampleCID "desk" 0 NewTracker in
  NoDup (GetAllUniverseIDs storedOrder t) ∧
  (7 ∈ GetAllUniverseIDs reversedOrder (RecordPacket 2000 7 sampleCID "desk" 1 t)).
Proof.
  intros t.
  destruct (GetAllUniverseIDs_spec t) as (Hnd & _ & _ & Hrec & _).
  - apply wf_RecordPacket, wf_NewTracker.
  - split; [apply Hnd|]. apply (Hrec storedOrder). left. reflexivity.
Defined.

Lemma allocSources_NoDup (vals : list Source.t) (mem : gmap loc Source.t) :
  NoDup (allocSources vals mem).1 ∧
  length (allocSources vals mem).1 = length vals.
Proof.
  revert mem. induction vals as [|v vals IH]; intros mem; simpl.
  { split; [constructor | done]. }
  destruct (IH (<[fresh (dom mem) := v]> mem)) as [Hnd Hlen].
  split; [|by rewrite Hlen].
  constructor; [|done]. intros Hin.
  destruct (allocSources_read vals (<[fresh (dom mem) := v]> mem)) as (_ & _ & Hnew & _).
  specialize (Hnew _ Hin). by rewrite lookup_insert_eq in Hnew.
Qed.

(** X22: whatever the order of its loop, [GetSources] returns one
    variable for every source of the universe and none for a universe
    that is not tracked; the variables are new, different from one
    another, and the call changes neither the statistics of a universe
    nor those of a source. *)
Theorem GetSources_count o uid t :
  wf t →
  let r := GetSources o uid t in
  length r.1 =
    from_option (fun st => size (UniverseStats.Sources st)) 0%nat (statsOf uid t) ∧
  NoDup r.1 ∧
  (∀ l, l ∈ r.1 → sourceStore t !! l = None) ∧
  (∀ id, statsOf id r.2 = statsOf id t) ∧
  (∀ id c, sourceOf id c r.2 = sourceOf id c t).
Proof.
  intros Hwf r. subst r.
  destruct (allocSources_NoDup (sourceValues o uid t) (sourceStore t)) as [Hnd Hlen].
  destruct (allocSources_read (sourceValues o uid t) (sourceStore t))
    as (_ & Hsub & Hnew & _).
  assert (Hstats : ∀ id, statsOf id (GetSources o uid t).2 = statsOf id t).
  { intros id. by rewrite !statsOf_unfold. }
  split; [|split; [exact Hnd|split; [exact Hnew|split; [exact Hstats|]]]].
  - simpl. rewrite Hlen. unfold sourceValues.
    rewrite statsOf_unfold. unfold GetUniverseStats.
    destruct (universes t !! uid) as [ls|] eqn:Hls; [|done]. simpl.
    destruct (Hwf uid ls Hls) as (st & Hst & Hall). rewrite Hst. simpl.
    rewrite <- length_map_to_list.
    rewrite <- (Permutation_length (ranged_perm o (map_to_list (UniverseStats.Sources st)))).
    assert (Hgen : ∀ (ps : list (list byte * loc)),
              (∀ p, p ∈ ps → is_Some (sourceStore t !! p.2)) →
              length (omap (fun p : list byte * loc => sourceStore t !! p.2) ps) = length ps).
    { induction ps as [|p ps IH]; intros Hps; [done|].
      destruct (Hps p) as [src Hsrc]; [apply list_elem_of_here|].
      cbn [omap list_omap]. rewrite Hsrc. cbn [length]. f_equal. apply IH.
      intros p' Hp'. apply Hps. by apply list_elem_of_further. }
    apply Hgen. intros [c l] Hp. rewrite (ranged_perm o) in Hp.
    apply elem_of_map_to_list in Hp. by apply (Hall c).
  - intros id c. rewrite !sourceOf_unfold, Hstats.
    destruct (statsOf id t) as [st|] eqn:Hst; [|done]. simpl.
    destruct (UniverseStats.Sources st !! c) as [l|] eqn:Hl; [|done]. simpl.
    revert Hst. rewrite statsOf_unfold. unfold GetUniverseStats.
    destruct (universes t !! id) as [ls|] eqn:Hls; [|done]. simpl. intros Hst.
    destruct (Hwf id ls Hls) as (st' & Hst' & Hall).
    assert (st' = st) as -> by congruence.
    destruct (Hall c l Hl) as [src Hsrc]. rewrite Hsrc.
    by apply (lookup_weaken _ _ _ _ Hsrc).
Qed.

Lemma GetSources_count_witness :
  let t := RecordPacket 2000 1 (replicate 16 x07) "wing" 0
             (RecordPacket 1000 1 sampleCID "desk" 0 NewTracker) in
  length (GetSources reversedOrder 1 t).1 = 2%nat ∧
  length (GetSources storedOrder 2 t).1 = 0%nat.
Proof.
  intros t.
  assert (Hwf : wf t) by apply wf_RecordPacket, wf_RecordPacket, wf_NewTracker.
  split.
  - etrans; [apply (proj1 (GetSources_count reversedOrder 1 t Hwf))|].
    vm_compute. reflexivity.
  - etrans; [apply (proj1 (GetSources_count storedOrder 2 t Hwf))|].
    vm_compute. reflexivity.
Defined.

End TrackerCalls.

(** ** The packet loop *)

Section PacketLoop.
Import Main.

(** [GetOrCreate] followed by an assignment through the pointer it
    returns. *)
Lemma GetOrCreate_poke id f (m : Universe.Manager) :
  Universe.wf m → (∀ u, Universe.ID (f u) = Universe.ID u) →
  let r := Universe.GetOrCreate id m in
  let m' := Universe.poke r.1 f r.2 in
  Universe.wf m' ∧
  universeOf id m' = Some (f (default (Universe.NewUniverse id) (universeOf id m))) ∧
  ∀ id', id' ≠ id → universeOf id' m' = universeOf id' m.
Proof.
  intros Hwf Hf r m'. subst r m'.
  split; [apply wf_poke; [done|]; by apply wf_GetOrCreate|].
  unfold universeOf, Universe.Get, Universe.deref, Universe.GetOrCreate.
  destruct (Universe.universes m !! id) as [l|] eqn:Hl; simpl.
  - destruct (Hwf id l Hl) as (u & Hu & Hid).
    rewrite Hl. simpl. rewrite Hu, lookup_alter_eq, Hu. split; [done|].
    intros id' Hne.
    destruct (Universe.universes m !! id') as [l'|] eqn:Hl'; [|done]. simpl.
    rewrite lookup_alter_ne; [done|]. intros <-.
    apply Hne. by apply (wf_inj m id' id l).
  - rewrite !lookup_insert_eq. simpl. rewrite lookup_alter_eq, lookup_insert_eq.
    split; [done|].
    intros id' Hne. rewrite lookup_insert_ne by done.
    destruct (Universe.universes m !! id') as [l'|] eqn:Hl'; [|done]. simpl.
    destruct (Hwf id' l' Hl') as (u & Hu & Hid).
    assert (Hfresh : l' ≠ fresh (dom (Universe.store m))).
    { intros ->. pose proof (is_fresh (dom (Universe.store m))) as Hfr.
      apply Hfr. apply elem_of_dom. eauto. }
    rewrite lookup_alter_ne by done. by rewrite lookup_insert_ne.
Qed.

Lemma consistent_start : consistent start.
Proof.
  intros id. unfold universeOf, Universe.Get. simpl.
  rewrite lookup_empty. simpl. rewrite statsOf_unfold. simpl.
  by rewrite lookup_empty.
Qed.

Lemma consistent_process nowU nowR packet s :
  Universe.wf (universeManager s) → StatsRun.separated (statsTracker s) →
  consistent s → consistent (process nowU nowR packet s).
Proof.
  intros Hwf Hsep Hcons id. unfold process. simpl.
  set (uid := Sacn.Universe packet).
  set (f := Universe.Update nowU (Sacn.ChannelData packet) (Sacn.SourceName packet)
              (Sacn.CID packet) (Sacn.Priority packet) (Sacn.Sequence packet)).
  destruct (GetOrCreate_poke uid f (universeManager s) Hwf) as (_ & Hhere & Hother);
    [done|]. simpl in Hhere, Hother.
  destruct (RecordPacket_other nowR uid (Sacn.CID packet) (Sacn.SourceName packet)
              (Sacn.Sequence packet) (statsTracker s) Hsep) as [Hso Hsrco].
  simpl in Hso, Hsrco.
  destruct (decide (id = uid)) as [->|Hne].
  - rewrite Hhere.
    destruct (RecordPacket_here nowR uid (Sacn.CID packet) (Sacn.SourceName packet)
                (Sacn.Sequence packet) (statsTracker s) Hsep)
      as (st' & src' & Hst' & Hsrc' & _ & Hpc & _ & _ & Hname & Hseq & _).
    simpl in Hst', Hsrc'. rewrite Hst'.
    specialize (Hcons uid).
    split; [|split].
    + subst f. cbn [Universe.Update Universe.Channels].
      rewrite updateChannels_length.
      destruct (universeOf uid (universeManager s)) as [u|].
      * destruct (Stats.statsOf uid (statsTracker s)); [|done]. apply Hcons.
      * reflexivity.
    + rewrite Hpc. subst f. cbn [Universe.Update Universe.PacketCount]. f_equal.
      destruct (universeOf uid (universeManager s)) as [u|];
        destruct (Stats.statsOf uid (statsTracker s)) as [st|]; try done.
      apply Hcons.
    + exists src'. subst f.
      cbn [Universe.Update Universe.SourceCID Universe.LastSequence Universe.SourceName].
      done.
  - rewrite (Hother id Hne), (Hso id Hne).
    specialize (Hcons id).
    destruct (universeOf id (universeManager s)) as [u|];
      destruct (Stats.statsOf id (statsTracker s)) as [st|]; try done.
    destruct Hcons as (Hlen & Hpc & src & Hsrc & Hrest).
    split; [done|]. split; [done|]. exists src. split; [|done].
    rewrite Hsrco; [done|]. intros [= ? _]. done.
Qed.

Lemma loop_invariant (received : list (Time * Time * Sacn.Packet)) :
  Universe.wf (universeManager (loop received)) ∧
  StatsRun.separated (statsTracker (loop received)) ∧
  consistent (loop received).
Proof.
  unfold loop.
  assert (H0 : Universe.wf (universeManager start) ∧
               StatsRun.separated (statsTracker start) ∧ consistent start).
  { split; [apply wf_NewManager|]. split; [apply separated_NewTracker|].
    apply consistent_start. }
  revert H0. generalize start.
  induction received as [|e received IH]; intros s Hs; [done|].
  simpl. apply IH. destruct Hs as (Hwf & Hsep & Hcons).
  split; [|split].
  - unfold process. simpl. apply wf_poke; [done|]. by apply wf_GetOrCreate.
  - unfold process. simpl. by apply separated_RecordPacket.
  - by apply consistent_process.
Qed.

(** X23: after the packet loop has processed any packets, the manager
    and the tracker know the same universes, the packet count of a
    universe is the same in both, and the source that the manager shows
    for the universe is tracked there with the name and the sequence
    number shown. *)
Theorem loop_consistent (received : list (Time * Time * Sacn.Packet)) (id : Z) :
  let s := loop received in
  (is_Some (Universe.Get id (universeManager s)) ↔
   is_Some (Stats.GetUniverseStats id (statsTracker s))) ∧
  ∀ u, universeOf id (universeManager s) = Some u →
    ∃ st src,
      Stats.statsOf id (statsTracker s) = Some st ∧
      Stats.sourceOf id (Universe.SourceCID u) (statsTracker s) = Some src ∧
      Universe.PacketCount u = Stats.UniverseStats.PacketCount st ∧
      Universe.LastSequence u = Stats.Source.LastSequence src ∧
      Universe.SourceName u = Stats.Source.Name src.
Proof.
  intros s. subst s.
  destruct (loop_invariant received) as (Hwf & Hsep & Hcons).
  specialize (Hcons id). split.
  - unfold universeOf, Universe.Get, Universe.deref in Hcons.
    rewrite statsOf_unfold in Hcons.
    unfold Universe.Get, Stats.GetUniverseStats in *.
    destruct (Universe.universes (universeManager (loop received)) !! id) as [l|] eqn:Hl;
      destruct (Stats.universes (statsTracker (loop received)) !! id) as [ls|] eqn:Hls;
      simpl in Hcons.
    + split; eauto.
    + destruct (Hwf id l Hl) as (u & Hu & _). rewrite Hu in Hcons. done.
    + destruct (proj1 Hsep id ls Hls) as (st & Hst & _). rewrite Hst in Hcons. done.
    + split; intros [? ?]; done.
  - intros u Hu. rewrite Hu in Hcons.
    destruct (Stats.statsOf id (statsTracker (loop received))) as [st|]; [|done].
    destruct Hcons as (_ & Hpc & src & Hsrc & Hseq & Hname).
    exists st, src. done.
Qed.


(** X24: from the datagram to the display. When a datagram that
    [Parse] accepts has been processed by the packet loop, the manager
    holds the universe named in bytes 113 and 114; channel [i] of that
    universe is active with the value of byte [126 + i] of the datagram,
    for the first 512 bytes after the header; the channels past the
    data are as before; and the other universes are as before. *)
Theorem datagram_shown (nowP nowU nowR : Time) (data : list byte) (p : Sacn.Packet)
    (received : list (Time * Time * Sacn.Packet)) :
  Sacn.Parse nowP data = inr p →
  let s := loop received in
  let s' := process nowU nowR p s in
  let before :=
    default (Universe.NewUniverse (Sacn.Universe p))
      (universeOf (Sacn.Universe p) (universeManager s)) in
  (∃ u', universeOf (Sacn.Universe p) (universeManager s') = Some u' ∧
     Universe.LastPacket u' = nowU ∧
     (∀ (i : nat) b, data !! (126 + i)%nat = Some b → (i < 512)%nat →
        Universe.GetChannel (Z.of_nat i) u' =
          {| Universe.Value := byte_val b; Universe.Active := true;
             Universe.LastUpdate := nowU |}) ∧
     (∀ (i : nat), (length data ≤ 126 + i)%nat →
        Universe.GetChannel (Z.of_nat i) u' = Universe.GetChannel (Z.of_nat i) before)) ∧
  ∀ id, id ≠ Sacn.Universe p →
    universeOf id (universeManager s') = universeOf id (universeManager s).
Proof.
  intros Hparse s s' before.
  destruct (loop_invariant received) as (Hwf & Hsep & Hcons). fold s in Hwf, Hsep, Hcons.
  set (uid := Sacn.Universe p) in *.
  set (f := Universe.Update nowU (Sacn.ChannelData p) (Sacn.SourceName p)
              (Sacn.CID p) (Sacn.Priority p) (Sacn.Sequence p)).
  destruct (GetOrCreate_poke uid f (universeManager s) Hwf) as (_ & Hhere & Hother);
    [done|]. simpl in Hhere, Hother.
  split; [|exact Hother].
  exists (f before). split; [exact Hhere|]. split; [done|].
  assert (Hlen : length (Universe.Channels before) = 512%nat).
  { subst before. specialize (Hcons uid).
    destruct (universeOf uid (universeManager s)) as [u|]; [|reflexivity].
    destruct (Stats.statsOf uid (statsTracker s)); [|done]. apply Hcons. }
  destruct (Parse_inr nowP data p Hparse) as (_ & _ & _ & Hdata).
  rewrite channelDataOf_eq in Hdata.
  split.
  - intros i b Hb Hi. unfold Universe.GetChannel.
    rewrite (proj2 (Z.ltb_ge _ _)) by lia.
    rewrite (proj2 (Z.leb_gt _ _)) by lia. cbn [orb].
    rewrite Nat2Z.id. subst f. cbn [Universe.Update Universe.Channels].
    rewrite (updateChannels_covered0 nowU _ _ i b); [done| |done|lia].
    rewrite Hdata, lookup_take_lt by lia. by rewrite lookup_drop.
  - intros i Hi. unfold Universe.GetChannel.
    destruct ((Z.of_nat i <? 0) || (512 <=? Z.of_nat i)); [done|].
    rewrite Nat2Z.id. subst f. cbn [Universe.Update Universe.Channels].
    rewrite updateChannels_beyond; [done|]. left.
    rewrite Hdata, length_take, length_drop. lia.
Qed.

Lemma datagram_shown_witness :
  let s' := process 2000 2001 {|
              Sacn.CID := [x01; x02; x03; x04; x05; x06; x07; x08;
                           x09; x0a; x0b; x0c; x0d; x0e; x0f; x10];
              Sacn.SourceName := "desk"; Sacn.Priority := 100; Sacn.Sequence := 7;
              Sacn.Universe := 1; Sacn.StartCode := 0;
              Sacn.ChannelData := [xff; x80];
              Sacn.SourceAddr := None; Sacn.ReceivedAt := 1000 |} (loop []) in
  ∃ u', universeOf 1 (universeManager s') = Some u' ∧
        Universe.GetChannel 1 u' =
          {| Universe.Value := 128; Universe.Active := true;
             Universe.LastUpdate := 2000 |}.
Proof.
  intros s'.
  destruct (datagram_shown 1000 2000 2001 (Sacn.sample_packet [xff; x80]) _ [] eq_refl)
    as [(u' & Hu & _ & Hset & _) _].
  exists u'. split; [exact Hu|].
  apply (Hset 1%nat x80); [reflexivity | lia].
Defined.

End PacketLoop.

(** ** The receiver *)

Section ReceiverFacts.
Import Receiver.

Lemma octet_listed (h : Z) : 0 ≤ h < 256 → In h (map Z.of_nat (seq 0 256)).
Proof.
  intros Hh. apply in_map_iff. exists (Z.to_nat h). split; [lia|].
  apply in_seq. lia.
Qed.

(** The decimal form of an octet has no dot, and two octets with the
    same decimal form are equal. *)
Lemma formatUint_octets :
  forallb (fun a =>
    String.eqb (splitDot (formatUint a)).1 (formatUint a) &&
    forallb (fun b => implb (String.eqb (formatUint a) (formatUint b)) (a =? b))
      (map Z.of_nat (seq 0 256)))
    (map Z.of_nat (seq 0 256)) = true.
Proof. vm_compute. reflexivity. Qed.

Lemma formatUint_no_dot (a : Z) :
  0 ≤ a < 256 → (splitDot (formatUint a)).1 = formatUint a.
Proof.
  intros Ha. pose proof formatUint_octets as H.
  rewrite forallb_forall in H. specialize (H a (octet_listed a Ha)).
  apply andb_prop in H as [H _]. by apply String.eqb_eq.
Qed.

Lemma formatUint_inj (a b : Z) :
  0 ≤ a < 256 → 0 ≤ b < 256 → formatUint a = formatUint b → a = b.
Proof.
  intros Ha Hb Heq. pose proof formatUint_octets as H.
  rewrite forallb_forall in H. specialize (H a (octet_listed a Ha)).
  apply andb_prop in H as [_ H].
  rewrite forallb_forall in H. specialize (H b (octet_listed b Hb)).
  rewrite Heq, String.eqb_refl in H. simpl in H. by apply Z.eqb_eq.
Qed.

Lemma splitDot_app (s rest : string) :
  (splitDot s).1 = s → splitDot (s ++ "." ++ rest) = (s, rest).
Proof.
  induction s as [|c s IH]; [done|]. simpl.
  destruct (Ascii.eqb c "."%char) eqn:E; simpl; [done|].
  intros [= Hs]. by rewrite (IH Hs).
Qed.

Lemma append_cancel (p a b : string) : (p ++ a)%string = (p ++ b)%string → a = b.
Proof. induction p as [|c p IH]; [done|]. simpl. intros [= H]. auto. Qed.

Lemma octets_of_universe (u : Z) :
  0 ≤ u < 65536 →
  Z.land (Z.shiftr u 8) 255 = u / 256 ∧ Z.land u 255 = u mod 256 ∧
  0 ≤ u / 256 < 256 ∧ 0 ≤ u mod 256 < 256.
Proof.
  intros Hu.
  change 255 with (Z.ones 8). rewrite !Z.land_ones, Z.shiftr_div_pow2 by lia.
  change (2 ^ 8) with 256.
  assert (0 ≤ u / 256 < 256).
  { split; [apply Z.div_pos; lia | apply Z.div_lt_upper_bound; lia]. }
  rewrite (Z.mod_small (u / 256)) by done.
  pose proof (Z.mod_pos_bound u 256). lia.
Qed.

(** X25: the multicast group of a universe is [239.255.high.low] with
    [universe = high * 256 + low], and different universes have
    different groups. *)
Theorem multicastAddressForUniverse_distinct (u v : Z) :
  0 ≤ u < 65536 → 0 ≤ v < 65536 →
  multicastAddressForUniverse u =
    ("239.255." ++ formatUint (u / 256) ++ "." ++ formatUint (u mod 256))%string ∧
  0 ≤ u / 256 < 256 ∧ 0 ≤ u mod 256 < 256 ∧
  (u ≠ v → multicastAddressForUniverse u ≠ multicastAddressForUniverse v).
Proof.
  intros Hu Hv.
  destruct (octets_of_universe u Hu) as (Hh & Hl & Hhr & Hlr).
  destruct (octets_of_universe v Hv) as (Hh' & Hl' & Hhr' & Hlr').
  unfold multicastAddressForUniverse. cbv zeta. rewrite Hh, Hl, Hh', Hl'.
  split; [done|]. split; [done|]. split; [done|].
  intros Hne Heq. apply Hne.
  apply append_cancel in Heq.
  apply (f_equal splitDot) in Heq.
  rewrite !splitDot_app in Heq by (by apply formatUint_no_dot).
  injection Heq as Hhigh Hlow.
  apply formatUint_inj in Hhigh; [|done|done].
  apply formatUint_inj in Hlow; [|done|done].
  rewrite (Z.div_mod u 256), (Z.div_mod v 256) by lia. congruence.
Qed.

Lemma multicastAddressForUniverse_distinct_witness :
  multicastAddressForUniverse 1 = "239.255.0.1"%string ∧
  multicastAddressForUniverse 1 ≠ multicastAddressForUniverse 257.
Proof.
  destruct (multicastAddressForUniverse_distinct 1 257) as (Hform & _ & _ & Hne);
    [lia | lia |].
  split; [exact Hform|]. apply Hne. lia.
Defined.


(** X26: one datagram in [readPackets]. The loop goes on; the packet
    that [Parse] makes of the whole datagram, with the address of the
    sender, is appended to the channel when fewer than 1000 packets
    wait there; a datagram that [Parse] rejects, or one that arrives
    while the channel is full, changes nothing. The 1500 bytes of the
    read buffer cut off nothing that [Parse] reads. *)
Theorem readStep_datagram (now : Time) (data : list byte) (src : string) (r : Receiver) :
  let s := readStep (Datagram now data src) r in
  s.2 = true ∧
  conn s.1 = conn r ∧ rawConn s.1 = rawConn r ∧ started s.1 = started r ∧
  packets s.1 =
    match Sacn.Parse now data with
    | inl _ => packets r
    | inr p =>
        if (length (packets r) <? 1000)%nat
        then packets r ++ [setSourceAddr src p]
        else packets r
    end.
Proof.
  intros s. subst s. unfold readStep.
  rewrite Parse_take_ge by (unfold bufSize; lia).
  destruct (Sacn.Parse now data) as [e|p]; [done|].
  unfold trySend, packetsCap.
  by destruct (length (packets r) <? 1000)%nat.
Qed.

Lemma readStep_packets (e : Read) (r : Receiver) :
  packets (readStep e r).1 = packets r ∨
  (length (packets r) < 1000)%nat ∧
  ∃ now data src p, e = Datagram now data src ∧ Sacn.Parse now data = inr p ∧
    packets (readStep e r).1 = packets r ++ [setSourceAddr src p].
Proof.
  destruct e as [|c|now data src]; [by left | by left|].
  destruct (readStep_datagram now data src r) as (_ & _ & _ & _ & Hp).
  rewrite Hp. destruct (Sacn.Parse now data) as [err|p] eqn:Hparse; [by left|].
  destruct (length (packets r) <? 1000)%nat eqn:Hlen; [|by left].
  right. apply Nat.ltb_lt in Hlen. split; [done|]. by exists now, data, src, p.
Qed.

(** X27: [readPackets] only appends to the channel: what waits there
    stays, in its order; the channel never holds more than 1000
    packets; every packet added is what [Parse] makes of a datagram
    that was read, with the address of its sender; and nothing is
    read after the pass that finds the context done. *)
Theorem readPackets_queue (es : list Read) (r : Receiver) :
  (∃ added, packets (readPackets es r) = packets r ++ added ∧
     ∀ q, q ∈ added →
       ∃ now data src p, In (Datagram now data src) es ∧
         Sacn.Parse now data = inr p ∧ q = setSourceAddr src p) ∧
  ((length (packets r) ≤ 1000)%nat →
   (length (packets (readPackets es r)) ≤ 1000)%nat) ∧
  (∀ es', readPackets (es ++ Cancelled :: es') r =
          Stop (readPackets es r) ∨
          readPackets (es ++ Cancelled :: es') r = readPackets es r).
Proof.
  revert r. induction es as [|e es IH]; intros r.
  { split; [|split].
    - exists []. split; [by rewrite app_nil_r|]. by intros q ?%elem_of_nil.
    - done.
    - intros es'. by left. }
  cbn [readPackets].
  destruct (IH (readStep e r).1) as ((added & Hadd & Hsrc) & Hbound & Hstop).
  assert (Hpre : ∃ added0, packets (readStep e r).1 = packets r ++ added0 ∧
            (length (packets r) ≤ 1000 → length (packets (readStep e r).1) ≤ 1000)%nat ∧
            ∀ q, q ∈ added0 →
              ∃ now data src p, e = Datagram now data src ∧
                Sacn.Parse now data = inr p ∧ q = setSourceAddr src p).
  { destruct (readStep_packets e r) as [Hsame|(Hlt & now & data & src & p & He & Hp & Happ)].
    - exists []. rewrite Hsame, app_nil_r. split; [done|]. split; [done|].
      by intros q ?%elem_of_nil.
    - exists [setSourceAddr src p]. split; [done|]. split.
      + rewrite Happ, length_app. simpl. lia.
      + intros q ->%list_elem_of_singleton. by exists now, data, src, p. }
  destruct Hpre as (added0 & Hadd0 & Hbound0 & Hsrc0).
  split; [|split].
  - destruct (readStep e r).2.
    + exists (added0 ++ added). split; [by rewrite Hadd, Hadd0, app_assoc|].
      intros q [Hq|Hq]%elem_of_app.
      * destruct (Hsrc0 q Hq) as (now & data & src & p & -> & Hp & ->).
        exists now, data, src, p. split; [by left|done].
      * destruct (Hsrc q Hq) as (now & data & src & p & Hin & Hp & ->).
        exists now, data, src, p. split; [by right|done].
    + exists added0. split; [done|].
      intros q Hq. destruct (Hsrc0 q Hq) as (now & data & src & p & -> & Hp & ->).
      exists now, data, src, p. split; [by left|done].
  - intros Hlen. destruct (readStep e r).2; auto.
  - intros es'. cbn [app readPackets].
    destruct (readStep e r).2; [apply Hstop | by right].
Qed.

(** X28: [Start] and [Stop]. A receiver that is started refuses to
    start again and is left as it is. When listening fails, the
    receiver stays marked as started, so that starting again is refused
    until [Stop] is called; after [Stop] the receiver can be started.
    [Stop] leaves the packets in the channel, and stopping twice is
    stopping once. *)
Theorem Start_Stop (r : Receiver) :
  (started r = true → ∀ listen, Start listen r = (Some AlreadyStarted, r)) ∧
  (started r = false →
     (Start None r).1 = Some ListenFailed ∧
     (∀ listen, (Start listen (Start None r).2).1 = Some AlreadyStarted) ∧
     ∀ c, (Start (Some c) r).1 = None ∧
          rawConn (Start (Some c) r).2 = Some c ∧
          started (Start (Some c) r).2 = true ∧
          packets (Start (Some c) r).2 = packets r) ∧
  (∀ listen c, (Start (Some c) (Stop (Start listen r).2)).1 = None) ∧
  started (Stop r) = false ∧ rawConn (Stop r) = None ∧
  packets (Stop r) = packets r ∧ Stop (Stop r) = Stop r.
Proof.
  unfold Start, Stop. split; [|split; [|split]].
  - intros ->. done.
  - intros ->. split; [done|]. split; [done|]. done.
  - intros listen c. done.
  - done.
Qed.

End ReceiverFacts.

(** ** The terminal interface *)

Section TuiFacts.
Import Tui.

Lemma StronglySorted_lt_le (ids : list Z) :
  StronglySorted Z.lt ids → StronglySorted Z.le ids.
Proof.
  induction 1 as [|x l Hs IH Hx]; constructor; [done|].
  eapply Forall_impl; [exact Hx|]. intros y. simpl. lia.
Qed.

(** The IDs read from the slice of [GetAll] are sorted already: the
    sort of [updateUniverseList] changes nothing. *)
Lemma universeList_sorted (um : Universe.Manager) :
  Universe.wf um →
  merge_sort Z.le (Universe.idAt um <$> Universe.GetAll um) =
    Universe.idAt um <$> Universe.GetAll um ∧
  StronglySorted Z.lt (Universe.idAt um <$> Universe.GetAll um) ∧
  ∀ id, id ∈ Universe.idAt um <$> Universe.GetAll um ↔ is_Some (Universe.Get id um).
Proof.
  intros Hwf.
  destruct (sorted_ids um (map_to_list (Universe.universes um)) Hwf) as [Hs Hp].
  { apply NoDup_fst_map_to_list. }
  { intros id l. by rewrite elem_of_map_to_list. }
  fold (Universe.GetAll um) in Hs, Hp.
  split; [|split; [exact Hs|]].
  - apply (StronglySorted_unique Z.le).
    + apply StronglySorted_merge_sort; apply _.
    + by apply StronglySorted_lt_le.
    + apply merge_sort_Permutation.
  - intros id. rewrite Hp. unfold Universe.Get.
    rewrite list_elem_of_fmap. split.
    + intros ([id' l] & -> & Hin%elem_of_map_to_list). eauto.
    + intros [l Hl]. exists (id, l). split; [done|]. by apply elem_of_map_to_list.
Qed.

Lemma found_elem (selected : Z) (l : list Z) :
  found selected l = true ↔ selected ∈ l.
Proof.
  induction l as [|id l IH]; simpl.
  { split; [done | by intros ?%elem_of_nil]. }
  destruct (id =? selected) eqn:E.
  - apply Z.eqb_eq in E as ->. split; [intros _; apply list_elem_of_here | done].
  - apply Z.eqb_neq in E. rewrite IH, elem_of_cons. split; [by right|].
    by intros [->|?].
Qed.

(** The loop of [Tab] from position [i] on, in a list without
    repetition. *)
Lemma cycle_at (L : list Z) (selected : Z) (i : nat) (rest : list Z) (k : nat) :
  rest !! k = Some selected → NoDup rest →
  cycle L selected i rest = default selected (L !! ((i + k + 1) mod length L)%nat).
Proof.
  revert i k. induction rest as [|id rest IH]; intros i k Hk Hnd; [done|].
  apply NoDup_cons in Hnd as [Hnin Hnd]. simpl.
  destruct k as [|k]; simpl in Hk.
  - injection Hk as ->. rewrite Z.eqb_refl. by rewrite Nat.add_0_r.
  - assert (id ≠ selected).
    { intros ->. apply Hnin. apply list_elem_of_lookup. eauto. }
    rewrite (proj2 (Z.eqb_neq _ _)) by done.
    rewrite (IH (S i) k Hk Hnd). do 3 f_equal. lia.
Qed.

Lemma cycle_absent (L : list Z) (selected : Z) (i : nat) (rest : list Z) :
  selected ∉ rest → cycle L selected i rest = selected.
Proof.
  revert i. induction rest as [|id rest IH]; intros i Hn; [done|]. simpl.
  apply not_elem_of_cons in Hn as [Hne Hn].
  rewrite (proj2 (Z.eqb_neq _ _)) by done. by apply IH.
Qed.

(** X29: a tick and the key [Tab]. After a tick the list of the model
    holds the IDs of the universes of the manager in increasing order;
    when there is a universe the selected one is among them: the one
    selected before if the manager still has it, else the one of the
    least ID. [Tab] then selects the universe that follows in the
    list, the first one after the last, which is another universe as
    soon as there are two. *)
Theorem tick_then_tab (um : Universe.Manager) (m : Model) :
  Universe.wf um →
  let m1 := (Update um TickMsg m).1 in
  let m2 := (Update um KeyTab m1).1 in
  StronglySorted Z.lt (universeList m1) ∧
  (∀ id, id ∈ universeList m1 ↔ is_Some (Universe.Get id um)) ∧
  (universeList m1 ≠ [] → selectedUniverse m1 ∈ universeList m1) ∧
  (is_Some (Universe.Get (selectedUniverse m) um) →
     selectedUniverse m1 = selectedUniverse m) ∧
  (Universe.Get (selectedUniverse m) um = None →
     ∀ id, id ∈ universeList m1 → selectedUniverse m1 ≤ id) ∧
  universeList m2 = universeList m1 ∧
  (∀ i, universeList m1 !! i = Some (selectedUniverse m1) →
     universeList m1 !! ((i + 1) mod length (universeList m1))%nat =
       Some (selectedUniverse m2)) ∧
  ((1 < length (universeList m1))%nat → selectedUniverse m2 ≠ selectedUniverse m1).
Proof.
  intros Hwf m1 m2.
  destruct (universeList_sorted um Hwf) as (Hsort & Hs & Hin).
  set (L := Universe.idAt um <$> Universe.GetAll um) in *.
  assert (HL : universeList m1 = L).
  { subst m1. unfold Update, updateUniverseList. cbn [fst universeList]. exact Hsort. }
  assert (Hsel : selectedUniverse m1 =
                 match L with
                 | [] => selectedUniverse m
                 | first :: _ => if found (selectedUniverse m) L
                                 then selectedUniverse m else first
                 end).
  { subst m1. unfold Update, updateUniverseList. cbn [fst selectedUniverse].
    fold L. by rewrite Hsort. }
  assert (Hnd : NoDup L) by (by apply StronglySorted_lt_NoDup).
  assert (Hm1in : L ≠ [] → selectedUniverse m1 ∈ L).
  { intros Hne. rewrite Hsel. destruct L as [|first L']; [done|].
    destruct (found (selectedUniverse m) (first :: L')) eqn:Hf.
    - by apply found_elem.
    - apply list_elem_of_here. }
  assert (Hlist2 : universeList m2 = L).
  { subst m2. unfold Update. cbn [fst].
    destruct (1 <? length (universeList m1))%nat; cbn [universeList]; exact HL. }
  assert (Hnext : ∀ i, L !! i = Some (selectedUniverse m1) →
            L !! ((i + 1) mod length L)%nat = Some (selectedUniverse m2)).
  { intros i Hi.
    assert (Hlen : (i < length L)%nat) by (apply lookup_lt_is_Some; eauto).
    subst m2. unfold Update. cbn [fst]. rewrite HL.
    destruct (1 <? length L)%nat eqn:H1.
    - cbn [selectedUniverse].
      rewrite (cycle_at L (selectedUniverse m1) 0 L i Hi Hnd).
      rewrite Nat.add_0_l.
      destruct (L !! ((i + 1) mod length L)%nat) as [x|] eqn:Hx; [done|].
      apply lookup_ge_None in Hx.
      pose proof (Nat.mod_upper_bound (i + 1) (length L)). lia.
    - apply Nat.ltb_ge in H1.
      assert (length L = 1%nat) as Hone by lia.
      rewrite Hone. replace i with 0%nat in * by lia.
      by rewrite Nat.Div0.mod_same. }
  rewrite HL, Hlist2.
  split; [exact Hs|]. split; [exact Hin|]. split; [exact Hm1in|].
  split; [|split; [|split; [done|split; [exact Hnext|]]]].
  - intros Hsome. rewrite Hsel. apply Hin in Hsome.
    destruct L as [|first L']; [done|].
    by rewrite (proj2 (found_elem _ _) Hsome).
  - intros Hnone id Hid. rewrite Hsel.
    assert (Hnf : found (selectedUniverse m) L = false).
    { apply not_true_is_false. rewrite found_elem, Hin, Hnone. by intros [? ?]. }
    rewrite Hnf. destruct L as [|first L']; [by apply elem_of_nil in Hid|].
    apply elem_of_cons in Hid as [->|Hid]; [lia|].
    apply StronglySorted_inv in Hs as [_ Hall].
    rewrite Forall_forall in Hall. specialize (Hall id Hid). lia.
  - intros Hlen Heq.
    assert (Hne : L ≠ []) by (intros E; rewrite E in Hlen; simpl in Hlen; lia).
    destruct (proj1 (list_elem_of_lookup _ _) (Hm1in Hne)) as [i Hi].
    pose proof (Hnext i Hi) as Hn. rewrite Heq in Hn.
    assert (Hlt : (i < length L)%nat) by (apply lookup_lt_is_Some; eauto).
    pose proof (NoDup_lookup L _ _ _ Hnd Hn Hi) as Hidx.
    destruct (decide (i + 1 = length L)%nat) as [E|E].
    + rewrite E, Nat.Div0.mod_same in Hidx. lia.
    + rewrite Nat.mod_small in Hidx by lia. lia.
Qed.

Lemma tick_then_tab_witness :
  let um := (Universe.GetOrCreate 1 (Universe.GetOrCreate 50 Universe.NewManager).2).2 in
  let m1 := (Update um TickMsg NewModel).1 in
  let m2 := (Update um KeyTab m1).1 in
  universeList m2 = universeList m1 ∧ selectedUniverse m2 ≠ selectedUniverse m1.
Proof.
  intros um m1 m2.
  destruct (tick_then_tab um NewModel) as (_ & _ & _ & _ & _ & Hl & _ & Hne).
  - apply wf_GetOrCreate, wf_GetOrCreate, wf_NewManager.
  - split; [exact Hl|]. apply Hne. vm_compute. reflexivity.
Defined.


Lemma to_int_range (n : Z) : - 2 ^ 63 ≤ to_int n < 2 ^ 63.
Proof. unfold to_int. pose proof (Z.mod_pos_bound (n + 2 ^ 63) (2 ^ 64)). lia. Qed.

Lemma to_int_small (n : Z) : - 2 ^ 63 ≤ n < 2 ^ 63 → to_int n = n.
Proof. intros Hn. unfold to_int. rewrite Z.mod_small by lia. lia. Qed.

(** The number of columns of a model made by [NewModel] and updated by
    any messages. *)
Lemma columnsPerRow_range (msgs : list (Universe.Manager * Msg)) :
  1 ≤ columnsPerRow (updates msgs NewModel) < 2 ^ 61.
Proof.
  unfold updates.
  assert (H0 : 1 ≤ columnsPerRow NewModel < 2 ^ 61) by (simpl; lia).
  revert H0. generalize NewModel.
  induction msgs as [|[um msg] msgs IH]; intros m Hm; [done|].
  cbn [fold_left]. apply IH. cbn [fst snd].
  destruct msg; cbn [Update fst]; try done.
  - by destruct (1 <? length (universeList m))%nat.
  - by destruct (columnsPerRow m <=? scrollOffset m).
  - cbn [columnsPerRow]. unfold max, int_sub.
    pose proof (to_int_range (Width - 2)) as Hr.
    destruct (Z.quot (to_int (Width - 2)) 6 <? 1) eqn:E.
    + lia.
    + apply Z.ltb_ge in E. split; [lia|].
      destruct (Z_lt_le_dec (to_int (Width - 2)) 0) as [Hneg|Hpos].
      * pose proof (Z.quot_le_mono (to_int (Width - 2)) 0 6 ltac:(lia) ltac:(lia)) as Hq.
        rewrite Z.quot_0_l in Hq by lia. lia.
      * apply Z.quot_lt_upper_bound; lia.
Qed.

(** The inner loop ends within the passes given and reads inside the
    array. *)
Lemma rowIndices_safe (cpr : Z) (fuel : nat) (i j : Z) :
  0 ≤ i → 0 ≤ j → i + j ≤ 512 → (Z.to_nat (512 - (i + j)) ≤ fuel)%nat →
  ∃ row, rowIndices fuel i j cpr = Some row ∧
         Forall (fun c => 0 ≤ c < 512) row ∧
         (j < cpr → i + j < 512 → row ≠ []).
Proof.
  revert j. induction fuel as [|fuel IH]; intros j Hi Hj Hij Hfuel.
  - assert (i + j = 512) as E by lia.
    remember (rowIndices 0 i j cpr) as o eqn:Ho.
    cbn [rowIndices] in Ho. unfold int_add in Ho. rewrite to_int_small in Ho by lia.
    rewrite (proj2 (Z.ltb_ge (i + j) 512)), andb_false_r in Ho by lia.
    exists []. split; [done|]. split; [constructor|]. lia.
  - remember (rowIndices (S fuel) i j cpr) as o eqn:Ho.
    cbn [rowIndices] in Ho. unfold int_add in Ho.
    rewrite !to_int_small in Ho by lia.
    destruct (j <? cpr) eqn:Hc; destruct (i + j <? 512) eqn:H512; cbn [andb] in Ho.
    + apply Z.ltb_lt in H512.
      destruct (IH (j + 1)) as (row & Hrow & Hall & _); [lia..|].
      rewrite Hrow in Ho. exists ((i + j) :: row). split; [done|]. split; [|done].
      constructor; [lia|done].
    + exists []. split; [done|]. split; [constructor|].
      apply Z.ltb_ge in H512. lia.
    + exists []. split; [done|]. split; [constructor|].
      apply Z.ltb_ge in Hc. lia.
    + exists []. split; [done|]. split; [constructor|].
      apply Z.ltb_ge in Hc. lia.
Qed.

(** The outer loop ends within the passes given. *)
Lemma gridIndices_safe (cpr endChannel : Z) (fuel : nat) (i : Z) :
  1 ≤ cpr < 2 ^ 61 → endChannel ≤ 512 → 0 ≤ i →
  (Z.to_nat (endChannel - i) ≤ fuel)%nat →
  ∃ rows, gridIndices fuel i endChannel cpr = Some rows ∧
          Forall (fun row => row ≠ [] ∧ Forall (fun c => 0 ≤ c < 512) row) rows.
Proof.
  intros Hcpr Hend. revert i. induction fuel as [|fuel IH]; intros i Hi Hfuel.
  - remember (gridIndices 0 i endChannel cpr) as o eqn:Ho.
    cbn [gridIndices] in Ho. rewrite (proj2 (Z.ltb_ge i endChannel)) in Ho by lia.
    exists []. split; [done|constructor].
  - remember (gridIndices (S fuel) i endChannel cpr) as o eqn:Ho.
    cbn [gridIndices] in Ho. destruct (i <? endChannel) eqn:E.
    2:{ exists []. split; [done|constructor]. }
    apply Z.ltb_lt in E.
    destruct (rowIndices_safe cpr 512 i 0) as (row & Hrow & Hall & Hne); [lia..|].
    rewrite Hrow in Ho. cbn [mbind option_bind] in Ho.
    unfold int_add in Ho. rewrite to_int_small in Ho by lia.
    destruct (IH (i + cpr)) as (rows & Hrows & Hrall); [lia|lia|].
    rewrite Hrows in Ho. cbn [mbind option_bind] in Ho.
    exists (row :: rows). split; [done|].
    constructor; [|done]. split; [apply Hne; lia | done].
Qed.

(** X30: the channel grid. For a model made by [NewModel] and updated
    by any messages the number of columns is at least one, so that the
    fallback of 16 columns is never taken; the two loops of
    [renderChannelGrid] end; every row that is drawn has a card; and
    every index at which the array of 512 channels is read lies inside
    it, however far the view was scrolled and whatever the size of the
    window. *)
Theorem renderChannelGrid_in_bounds (msgs : list (Universe.Manager * Msg)) :
  let m := updates msgs NewModel in
  channelsPerRow m = columnsPerRow m ∧ 1 ≤ columnsPerRow m ∧
  0 ≤ startChannel m < 512 ∧ endChannel m ≤ 512 ∧
  ∃ rows, renderedIndices m = Some rows ∧
    ∀ row, row ∈ rows → row ≠ [] ∧ ∀ c, c ∈ row → 0 ≤ c < 512.
Proof.
  intros m. pose proof (columnsPerRow_range msgs) as Hcpr. fold m in Hcpr.
  assert (Hc : channelsPerRow m = columnsPerRow m).
  { unfold channelsPerRow. by rewrite (proj2 (Z.ltb_ge _ _)) by lia. }
  assert (Hstart : 0 ≤ startChannel m < 512).
  { unfold startChannel. rewrite Hc. unfold int_sub.
    rewrite to_int_small by lia.
    destruct (512 <=? scrollOffset m) eqn:E.
    - destruct (512 - columnsPerRow m <? 0) eqn:E'; [lia|].
      apply Z.ltb_ge in E'. lia.
    - apply Z.leb_gt in E.
      destruct (scrollOffset m <? 0) eqn:E'; [lia|].
      apply Z.ltb_ge in E'. lia. }
  assert (Hend : endChannel m ≤ 512).
  { unfold endChannel, min.
    destruct (512 <? _) eqn:E; [lia|]. by apply Z.ltb_ge in E. }
  split; [exact Hc|]. split; [lia|]. split; [exact Hstart|]. split; [exact Hend|].
  unfold renderedIndices. rewrite Hc.
  destruct (gridIndices_safe (columnsPerRow m) (endChannel m) 512 (startChannel m))
    as (rows & Hrows & Hall); [done|done|lia|lia|].
  exists rows. split; [exact Hrows|].
  intros row Hrow. rewrite Forall_forall in Hall.
  destruct (Hall row Hrow) as [Hne Hin]. split; [exact Hne|].
  by rewrite Forall_forall in Hin.
Qed.

End TuiFacts.
